(** * A shallow embedding of the [context] package (cancellation tree)

    The Go package keeps a tree of contexts.  Every context is a heap
    object reached through a pointer; the cancellable ones carry a lazily
    created [done] channel, a set of registered children and the cause of
    their cancellation.  The embedding below keeps that shape: a store of
    context objects indexed by references, channel identities with a set
    of closed channels, and the package's functions as state-passing
    functions in a small result monad (a Go [panic] is a result of its
    own).

    Mutexes are not modelled: each function that runs under [c.mu] is one
    atomic state transformer here, and goroutines (the fall-back watcher
    and the timer callback) are scheduled between such transformers. *)

From stdpp Require Import gmap list.
From Stdlib Require Import ZArith Lia.

Local Open Scope Z_scope.

(** ** Data model *)

(** Pointers to context objects and channel identities. *)
Abbreviation ref := nat (only parsing).
Abbreviation chan := nat (only parsing).

(** [var closedchan = make(chan struct{})], closed by [init]. *)
Definition closedchan : chan := 0%nat.

(** Values of Go's [error] interface that a context can report:
    [Canceled], [DeadlineExceeded], and whatever a context implemented
    outside the package chooses to return. *)
Inductive error : Type :=
| Canceled
| DeadlineExceeded
| ForeignError (code : nat).

#[global] Instance error_eq_dec : EqDecision error.
Proof. solve_decision. Defined.

(** Keys of [Value].  [cancelCtxKey] stands for the address of the
    unexported package variable [&cancelCtxKey]; [UncomparableKey] stands
    for keys whose dynamic type is not comparable (slices, maps). *)
Inductive key : Type :=
| cancelCtxKey
| UserKey (k : nat)
| UncomparableKey (k : nat).

#[global] Instance key_eq_dec : EqDecision key.
Proof. solve_decision. Defined.

(** Results of [Value]: a [*cancelCtx] (the answer to [&cancelCtxKey]) or
    an opaque user value. *)
Inductive value : Type :=
| VCancelCtx (p : ref)
| VUser (v : nat).

#[global] Instance value_eq_dec : EqDecision value.
Proof. solve_decision. Defined.

(** [type cancelCtx struct { Context; mu; done; children; err }].
    [c_children = None] is the nil map, [c_done = None] the nil channel,
    [c_err = None] the nil error. *)
Record cancelCtx : Type := mkCancelCtx {
  c_Context : ref;
  c_done : option chan;
  c_children : option (gset ref);
  c_err : option error
}.

(** Modelled from the spec: the declaration of [timerCtx] is not among
    the sources.  The spec describes it as a cancellable scope extended
    with an absolute [deadline] and a [timerHandle], the scheduled
    callback; [WithDeadline] builds it with the fields [cancelCtx],
    [deadline] and [timer].  A pending timer is recorded by the instant
    at which it fires. *)
Record timerCtx : Type := mkTimerCtx {
  t_cancelCtx : cancelCtx;
  t_timer : option Z;
  t_deadline : Z
}.

(** A context implemented outside the package: it answers [Done] with a
    channel of its own, [Err] and [Deadline] from its own fields, and
    hands [Value] to an inner context when it wraps one. *)
Record foreignCtx : Type := mkForeignCtx {
  f_done : option chan;
  f_err : option error;
  f_deadline : option Z;
  f_inner : option ref
}.

(** The implementations of the [Context] interface.  [EmptyCtx] and
    [ValueCtx] are modelled from the spec (see [Done], [Err], [Value] and
    [Deadline] below). *)
Inductive ctx : Type :=
| EmptyCtx
| CancelCtx (c : cancelCtx)
| TimerCtx (t : timerCtx)
| ValueCtx (parent : ref) (k : key) (v : value)
| ForeignCtx (f : foreignCtx).

(** The goroutine started by [propagateCancel].  It first evaluates the
    two channel operands of its [select], then blocks on them. *)
Inductive task : Type :=
| WatchStart (parent child : ref)
| WatchBlocked (parent child : ref) (pd cd : option chan).

#[global] Instance task_eq_dec : EqDecision task.
Proof. solve_decision. Defined.

Record state : Type := mkState {
  heap : gmap ref ctx;
  closed : gset chan;
  next_ref : ref;
  next_chan : chan;
  now : Z;
  goroutines : Z;
  tasks : list task
}.

(** [CancelFunc]: the closure [func() { c.cancel(b, Canceled) }]. *)
Record CancelFunc : Type := mkCancelFunc {
  cf_target : ref;
  cf_removeFromParent : bool
}.

(** ** Results *)

Inductive res (A : Type) : Type :=
| Ok (a : A)
| Panic
| OutOfFuel.
Arguments Ok {A} a.
Arguments Panic {A}.
Arguments OutOfFuel {A}.

#[global] Instance res_ret : MRet res := λ A a, Ok a.
#[global] Instance res_bind : MBind res := λ A B f m,
  match m with
  | Ok a => f a
  | Panic => Panic
  | OutOfFuel => OutOfFuel
  end.

Fixpoint foldM {A S : Type} (f : A → S → res S) (l : list A) (s : S) : res S :=
  match l with
  | [] => Ok s
  | a :: l' => s' ← f a s; foldM f l' s'
  end.

(** ** State updates *)

Definition set_heap (h : gmap ref ctx) (s : state) : state :=
  mkState h (closed s) (next_ref s) (next_chan s) (now s) (goroutines s) (tasks s).
Definition set_closed (X : gset chan) (s : state) : state :=
  mkState (heap s) X (next_ref s) (next_chan s) (now s) (goroutines s) (tasks s).
Definition set_next_ref (r : ref) (s : state) : state :=
  mkState (heap s) (closed s) r (next_chan s) (now s) (goroutines s) (tasks s).
Definition set_next_chan (d : chan) (s : state) : state :=
  mkState (heap s) (closed s) (next_ref s) d (now s) (goroutines s) (tasks s).
Definition set_now (t : Z) (s : state) : state :=
  mkState (heap s) (closed s) (next_ref s) (next_chan s) t (goroutines s) (tasks s).
Definition set_goroutines (g : Z) (s : state) : state :=
  mkState (heap s) (closed s) (next_ref s) (next_chan s) (now s) g (tasks s).
Definition set_tasks (l : list task) (s : state) : state :=
  mkState (heap s) (closed s) (next_ref s) (next_chan s) (now s) (goroutines s) l.

Definition set_done (d : option chan) (c : cancelCtx) : cancelCtx :=
  mkCancelCtx (c_Context c) d (c_children c) (c_err c).
Definition set_children (X : option (gset ref)) (c : cancelCtx) : cancelCtx :=
  mkCancelCtx (c_Context c) (c_done c) X (c_err c).
Definition set_err (e : option error) (c : cancelCtx) : cancelCtx :=
  mkCancelCtx (c_Context c) (c_done c) (c_children c) e.

(** The [cancelCtx] of a canceler: the object itself, or the struct
    embedded in a [timerCtx]. *)
Definition cancelCtx_of (x : ctx) : option cancelCtx :=
  match x with
  | CancelCtx c => Some c
  | TimerCtx t => Some (t_cancelCtx t)
  | _ => None
  end.

Definition map_cancelCtx (f : cancelCtx → cancelCtx) (x : ctx) : ctx :=
  match x with
  | CancelCtx c => CancelCtx (f c)
  | TimerCtx t => TimerCtx (mkTimerCtx (f (t_cancelCtx t)) (t_timer t) (t_deadline t))
  | _ => x
  end.

Definition map_timer (f : option Z → option Z) (x : ctx) : ctx :=
  match x with
  | TimerCtx t => TimerCtx (mkTimerCtx (t_cancelCtx t) (f (t_timer t)) (t_deadline t))
  | _ => x
  end.

Definition timer_of (x : ctx) : option Z :=
  match x with
  | TimerCtx t => t_timer t
  | _ => None
  end.

(** Reading and writing the fields of the [cancelCtx] behind a pointer. *)
Definition get (r : ref) (s : state) : option cancelCtx :=
  heap s !! r ≫= cancelCtx_of.

Definition update (r : ref) (f : cancelCtx → cancelCtx) (s : state) : state :=
  set_heap (alter (map_cancelCtx f) r (heap s)) s.

Definition update_timer (r : ref) (f : option Z → option Z) (s : state) : state :=
  set_heap (alter (map_timer f) r (heap s)) s.

Definition alloc (x : ctx) (s : state) : state * ref :=
  (set_next_ref (S (next_ref s)) (set_heap (<[next_ref s := x]> (heap s)) s),
   next_ref s).

(** The children of a [cancelCtx]; ranging over the nil map ranges over
    nothing. *)
Definition children_of (c : cancelCtx) : gset ref :=
  default ∅ (c_children c).

(** [close(d)]: closing a closed channel panics. *)
Definition close (d : chan) (s : state) : res state :=
  if decide (d ∈ closed s) then Panic
  else Ok (set_closed ({[d]} ∪ closed s) s).

(** [atomic.AddInt32]: two's-complement wrap-around on 32 bits. *)
Definition wrap32 (z : Z) : Z := (z + 2 ^ 31) mod 2 ^ 32 - 2 ^ 31.

(** ** The [Context] interface

    Method calls through the interface dispatch on the object found in
    the store.  A [valueCtx] and the [Context] embedded in a [cancelCtx]
    forward to the parent, so each call walks the parent chain; [n]
    bounds the length of the walk. *)

(** [func (c *cancelCtx) Done() <-chan struct{}] *)
Definition cancelCtx_Done (c : ref) (s : state) : res (state * option chan) :=
  match get c s with
  | None => Panic
  | Some cc =>
    match c_done cc with
    | Some d => Ok (s, Some d)
    | None =>
      let d := next_chan s in
      Ok (set_next_chan (S d) (update c (set_done (Some d)) s), Some d)
    end
  end.

(** [func (c *cancelCtx) Err() error] *)
Definition cancelCtx_Err (c : ref) (s : state) : res (option error) :=
  match get c s with
  | None => Panic
  | Some cc => Ok (c_err cc)
  end.

(** [Done] through the interface.  Modelled from the spec: the root scope
    ([emptyCtx], absent from the sources) answers nil, a [valueCtx]
    (absent too) is a pure pass-through to its parent. *)
Fixpoint Done_fuel (n : nat) (c : ref) (s : state) : res (state * option chan) :=
  match n with
  | O => OutOfFuel
  | S n' =>
    match heap s !! c with
    | None => Panic
    | Some EmptyCtx => Ok (s, None)
    | Some (CancelCtx _) | Some (TimerCtx _) => cancelCtx_Done c s
    | Some (ValueCtx parent _ _) => Done_fuel n' parent s
    | Some (ForeignCtx f) => Ok (s, f_done f)
    end
  end.

Definition Done (c : ref) (s : state) : res (state * option chan) :=
  Done_fuel (S c) c s.

(** [Err] through the interface. *)
Fixpoint Err_fuel (n : nat) (c : ref) (s : state) : res (option error) :=
  match n with
  | O => OutOfFuel
  | S n' =>
    match heap s !! c with
    | None => Panic
    | Some EmptyCtx => Ok None
    | Some (CancelCtx _) | Some (TimerCtx _) => cancelCtx_Err c s
    | Some (ValueCtx parent _ _) => Err_fuel n' parent s
    | Some (ForeignCtx f) => Ok (f_err f)
    end
  end.

Definition Err (c : ref) (s : state) : res (option error) :=
  Err_fuel (S c) c s.

(** [Value] through the interface.
    [func (c *cancelCtx) Value(key)]: [&cancelCtxKey] is answered with [c]
    itself, any other key by [c.Context.Value(key)]; a [timerCtx] has the
    method of its embedded [cancelCtx].  Modelled from the spec: a
    [valueCtx] returns its own value if the requested key matches and
    delegates to its parent otherwise; a root always reports absent. *)
Fixpoint Value_fuel (n : nat) (c : ref) (k : key) (s : state) : res (option value) :=
  match n with
  | O => OutOfFuel
  | S n' =>
    match heap s !! c with
    | None => Panic
    | Some EmptyCtx => Ok None
    | Some (CancelCtx cc) =>
      if decide (k = cancelCtxKey) then Ok (Some (VCancelCtx c))
      else Value_fuel n' (c_Context cc) k s
    | Some (TimerCtx t) =>
      if decide (k = cancelCtxKey) then Ok (Some (VCancelCtx c))
      else Value_fuel n' (c_Context (t_cancelCtx t)) k s
    | Some (ValueCtx parent k' v) =>
      if decide (k' = k) then Ok (Some v) else Value_fuel n' parent k s
    | Some (ForeignCtx f) =>
      match f_inner f with
      | None => Ok None
      | Some inner => Value_fuel n' inner k s
      end
    end
  end.

Definition Value (c : ref) (k : key) (s : state) : res (option value) :=
  Value_fuel (S c) c k s.

(** [Deadline] through the interface.  A [cancelCtx] has the method of
    its embedded parent.  Modelled from the spec: a root reports absent,
    a timer scope its own deadline, a [valueCtx] its parent's. *)
Fixpoint Deadline_fuel (n : nat) (c : ref) (s : state) : res (option Z) :=
  match n with
  | O => OutOfFuel
  | S n' =>
    match heap s !! c with
    | None => Panic
    | Some EmptyCtx => Ok None
    | Some (CancelCtx cc) => Deadline_fuel n' (c_Context cc) s
    | Some (TimerCtx t) => Ok (Some (t_deadline t))
    | Some (ValueCtx parent _ _) => Deadline_fuel n' parent s
    | Some (ForeignCtx f) => Ok (f_deadline f)
    end
  end.

Definition Deadline (c : ref) (s : state) : res (option Z) :=
  Deadline_fuel (S c) c s.

(** ** Ancestor discovery and detachment *)

(** [func parentCancelCtx(parent Context)], returning a [*cancelCtx] and a flag *)
Definition parentCancelCtx (parent : ref) (s : state) : res (state * option ref) :=
  '(s, done) ← Done parent s;
  if decide (done = Some closedchan ∨ done = None) then Ok (s, None)
  else
    v ← Value parent cancelCtxKey s;
    match v with
    | Some (VCancelCtx p) =>
      match get p s with
      | None => Panic
      | Some pc =>
        if decide (c_done pc = done) then Ok (s, Some p) else Ok (s, None)
      end
    | _ => Ok (s, None)
    end.

(** [func removeChild(parent Context, child canceler)] *)
Definition removeChild (parent child : ref) (s : state) : res state :=
  '(s, po) ← parentCancelCtx parent s;
  match po with
  | None => Ok s
  | Some p =>
    match get p s with
    | None => Panic
    | Some pc =>
      match c_children pc with
      | None => Ok s
      | Some X => Ok (update p (set_children (Some (X ∖ {[child]}))) s)
      end
    end
  end.

(** ** Cancellation *)

Section Cancellation.

(** Go leaves the order in which [range] visits a map unspecified.  The
    development is parametric in it: [order X] is the sequence in which
    the keys of the children map [X] are visited. *)
Variable order : gset ref → list ref.
Hypothesis order_perm : ∀ X, order X ≡ₚ elements X.

(** [func (c *cancelCtx) cancel(removeFromParent bool, err error)], with
    [child.cancel], the call through the [canceler] interface, as a
    parameter. *)
Definition cancelCtx_cancel_with
    (child_cancel : ref → bool → option error → state → res state)
    (c : ref) (removeFromParent : bool) (err : option error) (s : state) : res state :=
  match err with
  | None => Panic
  | Some e =>
    match get c s with
    | None => Panic
    | Some cc =>
      match c_err cc with
      | Some _ => Ok s
      | None =>
        let s := update c (set_err err) s in
        s ← match c_done cc with
            | None => Ok (update c (set_done (Some closedchan)) s)
            | Some d => close d s
            end;
        s ← foldM (λ child, child_cancel child false err) (order (children_of cc)) s;
        let s := update c (set_children None) s in
        if removeFromParent then removeChild (c_Context cc) c s else Ok s
      end
    end
  end.

(** Modelled from the spec: the [cancel] method of [timerCtx] is not among the
    sources.  The spec gives a timer scope the cancellation of a
    cancellable scope and has its timer handle cancelled whenever the
    scope is cancelled, so that the callback cannot fire on a scope that
    is already torn down. *)
Definition timerCtx_cancel_with
    (child_cancel : ref → bool → option error → state → res state)
    (c : ref) (removeFromParent : bool) (err : option error) (s : state) : res state :=
  s ← cancelCtx_cancel_with child_cancel c removeFromParent err s;
  Ok (update_timer c (λ _, None) s).

(** [child.cancel(removeFromParent, err)] through the [canceler]
    interface, implemented by [*cancelCtx] and [*timerCtx].  Each nested
    call cancels a scope that was not cancelled before, which bounds the
    depth by the number of scopes. *)
Fixpoint cancel_fuel (n : nat) (c : ref) (removeFromParent : bool)
    (err : option error) (s : state) : res state :=
  match n with
  | O => OutOfFuel
  | S n' =>
    match heap s !! c with
    | Some (CancelCtx _) =>
      cancelCtx_cancel_with (cancel_fuel n') c removeFromParent err s
    | Some (TimerCtx _) =>
      timerCtx_cancel_with (cancel_fuel n') c removeFromParent err s
    | _ => Panic
    end
  end.

Definition cancel (c : ref) (removeFromParent : bool) (err : option error)
    (s : state) : res state :=
  cancel_fuel (S (size (heap s))) c removeFromParent err s.

(** The closure returned by the derivation functions. *)
Definition call (f : CancelFunc) (s : state) : res state :=
  cancel (cf_target f) (cf_removeFromParent f) (Some Canceled) s.

(** ** Propagation *)

(** [go func() { select { ... } }()] *)
Definition spawn (t : task) (s : state) : state :=
  set_tasks (tasks s ++ [t]) s.

(** [func propagateCancel(parent Context, child canceler)] *)
Definition propagateCancel (parent child : ref) (s : state) : res state :=
  '(s, done) ← Done parent s;
  match done with
  | None => Ok s
  | Some d =>
    if decide (d ∈ closed s) then
      e ← Err parent s;
      cancel child false e s
    else
      '(s, po) ← parentCancelCtx parent s;
      match po with
      | Some p =>
        match get p s with
        | None => Panic
        | Some pc =>
          match c_err pc with
          | Some e => cancel child false (Some e) s
          | None =>
            Ok (update p (set_children (Some ({[child]} ∪ children_of pc))) s)
          end
        end
      | None =>
        Ok (spawn (WatchStart parent child)
              (set_goroutines (wrap32 (goroutines s + 1)) s))
      end
  end.

(** ** Derivation *)

(** [func newCancelCtx(parent Context) cancelCtx] *)
Definition newCancelCtx (parent : ref) : cancelCtx :=
  mkCancelCtx parent None None None.

(** [func WithCancel(parent Context) (ctx Context, cancel CancelFunc)];
    a nil parent is [None]. *)
Definition WithCancel (parent : option ref) (s : state) : res (state * ref * CancelFunc) :=
  match parent with
  | None => Panic
  | Some parent =>
    let '(s, c) := alloc (CancelCtx (newCancelCtx parent)) s in
    s ← propagateCancel parent c s;
    Ok (s, c, mkCancelFunc c true)
  end.

(** [func (t Time) Before(u Time) bool] of the [time] package. *)
Definition Before (t u : Z) : bool := bool_decide (t < u).

(** [func WithDeadline(parent Context, d time.Time) (Context, CancelFunc)].
    Instants and durations are integers; [time.Until(d)] is [d - now].
    [Deadline] answers [None] when its second result is false. *)
Definition WithDeadline (parent : option ref) (d : Z) (s : state)
    : res (state * ref * CancelFunc) :=
  match parent with
  | None => Panic
  | Some p =>
    cur ← Deadline p s;
    if from_option (λ cur, Before cur d) false cur then WithCancel parent s
    else
      let '(s, c) := alloc (TimerCtx (mkTimerCtx (newCancelCtx p) None d)) s in
      s ← propagateCancel p c s;
      let dur := d - now s in
      if decide (dur ≤ 0) then
        s ← cancel c true (Some DeadlineExceeded) s;
        Ok (s, c, mkCancelFunc c false)
      else
        match get c s with
        | None => Panic
        | Some cc =>
          match c_err cc with
          | None => Ok (update_timer c (λ _, Some (now s + dur)) s, c, mkCancelFunc c true)
          | Some _ => Ok (s, c, mkCancelFunc c true)
          end
        end
  end.

(** [func WithTimeout(parent Context, timeout time.Duration)] *)
Definition WithTimeout (parent : option ref) (timeout : Z) (s : state)
    : res (state * ref * CancelFunc) :=
  WithDeadline parent (now s + timeout) s.

(** [func WithValue(parent Context, key, val interface{}) Context];
    a nil key is [None]. *)
Definition WithValue (parent : option ref) (k : option key) (v : value) (s : state)
    : res (state * ref) :=
  match parent with
  | None => Panic
  | Some parent =>
    match k with
    | None => Panic
    | Some (UncomparableKey _) => Panic
    | Some k => Ok (alloc (ValueCtx parent k v) s)
    end
  end.

(** ** Goroutines and the environment *)

(** The watcher goroutine of [propagateCancel] enters its [select]: the
    operands [parent.Done()] and [child.Done()] are evaluated. *)
Definition watch_start (parent child : ref) (s : state) : res (state * task) :=
  '(s, pd) ← Done parent s;
  '(s, cd) ← cancelCtx_Done child s;
  Ok (s, WatchBlocked parent child pd cd).

(** [case <-parent.Done(): child.cancel(false, parent.Err())] *)
Definition watch_fire (parent child : ref) (s : state) : res state :=
  e ← Err parent s;
  cancel child false e s.

(** The callback of [time.AfterFunc] in [WithDeadline]. *)
Definition timer_fire (c : ref) (s : state) : res state :=
  cancel c true (Some DeadlineExceeded) s.

(** A context of another package is created, possibly around a context of
    the tree, with a fresh [done] channel or none. *)
Definition foreign_new (has_done : bool) (deadline : option Z) (inner : option ref)
    (s : state) : state * ref :=
  if has_done then
    alloc (ForeignCtx (mkForeignCtx (Some (next_chan s)) None deadline inner))
      (set_next_chan (S (next_chan s)) s)
  else alloc (ForeignCtx (mkForeignCtx None None deadline inner)) s.

(** A context of another package is cancelled by its owner. *)
Definition foreign_cancel (c : ref) (e : error) (s : state) : res state :=
  match heap s !! c with
  | Some (ForeignCtx f) =>
    match f_done f, f_err f with
    | Some d, None =>
      s ← close d s;
      Ok (set_heap (<[c := ForeignCtx (mkForeignCtx (Some d) (Some e) (f_deadline f) (f_inner f))]> (heap s)) s)
    | _, _ => Ok s
    end
  | _ => Panic
  end.

(** One atomic step of the program or of its environment: a call of the
    package's functions by some goroutine, a step of a watcher, a timer
    callback, the clock.  The parent handed to a derivation is a context
    that exists. *)
Inductive step : state → state → Prop :=
| step_Done c s s' d :
    Done c s = Ok (s', d) → step s s'
| step_WithCancel parent s s' c f :
    is_Some (heap s !! parent) →
    WithCancel (Some parent) s = Ok (s', c, f) → step s s'
| step_WithDeadline parent d s s' c f :
    is_Some (heap s !! parent) →
    WithDeadline (Some parent) d s = Ok (s', c, f) → step s s'
| step_WithTimeout parent t s s' c f :
    is_Some (heap s !! parent) →
    WithTimeout (Some parent) t s = Ok (s', c, f) → step s s'
| step_WithValue parent k v s s' c :
    is_Some (heap s !! parent) →
    WithValue (Some parent) (Some (UserKey k)) v s = Ok (s', c) → step s s'
| step_cancel c b e s s' :
    cancel c b (Some e) s = Ok s' → step s s'
| step_removeChild parent child s s' :
    removeChild parent child s = Ok s' → step s s'
| step_propagateCancel parent child s s' :
    is_Some (get child s) →
    propagateCancel parent child s = Ok s' → step s s'
| step_watch_start i parent child s s' t :
    tasks s !! i = Some (WatchStart parent child) →
    watch_start parent child s = Ok (s', t) →
    step s (set_tasks (<[i := t]> (tasks s')) s')
| step_watch_parent i parent child pd cd s s' :
    tasks s !! i = Some (WatchBlocked parent child (Some pd) cd) →
    pd ∈ closed s →
    watch_fire parent child s = Ok s' →
    step s (set_tasks (delete i (tasks s')) s')
| step_watch_child i parent child pd cd s :
    tasks s !! i = Some (WatchBlocked parent child pd (Some cd)) →
    cd ∈ closed s →
    step s (set_tasks (delete i (tasks s)) s)
| step_timer c t at_ s s' :
    heap s !! c = Some (TimerCtx t) →
    t_timer t = Some at_ →
    at_ ≤ now s →
    timer_fire c s = Ok s' → step s s'
| step_tick dt s :
    0 ≤ dt → step s (set_now (now s + dt) s)
| step_foreign_new has_done deadline inner s :
    (∀ i, inner = Some i → is_Some (heap s !! i)) →
    step s (foreign_new has_done deadline inner s).1
| step_foreign_cancel c e s s' :
    foreign_cancel c e s = Ok s' → step s s'.

(** [background] and [todo], the two [emptyCtx] singletons. *)
Definition Background : ref := 0%nat.
Definition TODO : ref := 1%nat.

(** The state after package initialisation, at instant [t0]. *)
Definition init (t0 : Z) : state :=
  mkState (<[Background := EmptyCtx]> (<[TODO := EmptyCtx]> ∅))
          {[closedchan]} 2%nat 1%nat t0 0 [].

Inductive reachable : state → Prop :=
| reachable_init t0 : reachable (init t0)
| reachable_step s s' : reachable s → step s s' → reachable s'.

(** Zero or more steps. *)
Inductive steps : state → state → Prop :=
| steps_refl s : steps s s
| steps_step s s' s'' : steps s s' → step s' s'' → steps s s''.


(** ** Well-formed states *)

Definition parent_of (x : ctx) : option ref :=
  match x with
  | EmptyCtx => None
  | CancelCtx c => Some (c_Context c)
  | TimerCtx t => Some (c_Context (t_cancelCtx t))
  | ValueCtx p _ _ => Some p
  | ForeignCtx f => f_inner f
  end.

(** The channel an object owns, if any. *)
Definition chan_of (x : ctx) : option chan :=
  match x with
  | CancelCtx c => c_done c
  | TimerCtx t => c_done (t_cancelCtx t)
  | ForeignCtx f => f_done f
  | _ => None
  end.

Definition task_parent (t : task) : ref :=
  match t with WatchStart p _ | WatchBlocked p _ _ _ => p end.
Definition task_child (t : task) : ref :=
  match t with WatchStart _ c | WatchBlocked _ c _ _ => c end.

(** The scope behind [c] is cancelled; with a cause. *)
Definition cancelled (c : ref) (s : state) : Prop :=
  ∃ cc, get c s = Some cc ∧ is_Some (c_err cc).
Definition cancelled_with (e : error) (c : ref) (s : state) : Prop :=
  ∃ cc, get c s = Some cc ∧ c_err cc = Some e.

(** The [done] channel of the scope behind [c] is closed. *)
Definition done_closed (c : ref) (s : state) : Prop :=
  ∃ cc d, get c s = Some cc ∧ c_done cc = Some d ∧ d ∈ closed s.

(** What holds of the store between any two calls, and also while a
    cancellation is fanning out. *)
Record wf_base (s : state) : Prop := {
  wb_closedchan : closedchan ∈ closed s;
  wb_closed_alloc : ∀ d, d ∈ closed s → (d < next_chan s)%nat;
  wb_dom : ∀ r x, heap s !! r = Some x → (r < next_ref s)%nat;
  wb_parent : ∀ r x p, heap s !! r = Some x → parent_of x = Some p →
    (p < r)%nat ∧ is_Some (heap s !! p);
  wb_key : ∀ r p k v, heap s !! r = Some (ValueCtx p k v) → k ≠ cancelCtxKey;
  wb_children : ∀ r c k, get r s = Some c → k ∈ children_of c → is_Some (get k s);
  wb_chan_alloc : ∀ r x d, heap s !! r = Some x → chan_of x = Some d →
    (d < next_chan s)%nat;
  wb_chan_owner : ∀ r r' x x' d, heap s !! r = Some x → heap s !! r' = Some x' →
    chan_of x = Some d → chan_of x' = Some d → d ≠ closedchan → r = r';
  wb_err_done : ∀ r c, get r s = Some c →
    (is_Some (c_err c) ↔ ∃ d, c_done c = Some d ∧ d ∈ closed s);
  wb_foreign : ∀ r f d, heap s !! r = Some (ForeignCtx f) → f_done f = Some d →
    d ≠ closedchan ∧ (d ∈ closed s ↔ is_Some (f_err f));
  wb_tasks : ∀ t, t ∈ tasks s →
    is_Some (heap s !! task_parent t) ∧ is_Some (get (task_child t) s)
}.

(** What holds between calls only: a cancelled scope has forgotten its
    children and has no pending timer.  The scopes in [P] are the ones
    whose cancellation is in progress. *)
Record wf_strong (P : ref → Prop) (s : state) : Prop := {
  ws_children : ∀ r c, ¬ P r → get r s = Some c → is_Some (c_err c) →
    c_children c = None;
  ws_timer : ∀ r t, ¬ P r → heap s !! r = Some (TimerCtx t) →
    is_Some (t_timer t) → c_err (t_cancelCtx t) = None
}.

Definition wf (s : state) : Prop := wf_base s ∧ wf_strong (λ _, False) s.

(** The scopes that are not cancelled yet. *)
Definition is_live (x : ctx) : bool :=
  match cancelCtx_of x with
  | Some c => bool_decide (c_err c = None)
  | None => false
  end.

Definition live (s : state) : gset ref :=
  dom (filter (λ rx, is_live rx.2 = true) (heap s)).

(** [k] is registered below [c]: in its children set, or in that of one
    of its descendants. *)
Inductive descendant (s : state) : ref → ref → Prop :=
| descendant_child c cc k :
    get c s = Some cc → k ∈ children_of cc → descendant s c k
| descendant_trans c cc k k' :
    get c s = Some cc → k ∈ children_of cc → descendant s k k' →
    descendant s c k'.


(** What a cancellation with cause [e] may change between [s] and [s']:
    scopes that were cancelled stay as they are; a scope that was not is
    either untouched or is now cancelled with cause [e], its channel
    closed, its children forgotten and all of them cancelled. *)
Record cancels (e : error) (s s' : state) : Prop := {
  cn_next_ref : next_ref s' = next_ref s;
  cn_next_chan : next_chan s' = next_chan s;
  cn_now : now s' = now s;
  cn_goroutines : goroutines s' = goroutines s;
  cn_tasks : tasks s' = tasks s;
  cn_closed : closed s ⊆ closed s';
  cn_other : ∀ r x, heap s !! r = Some x → cancelCtx_of x = None →
    heap s' !! r = Some x;
  cn_none : ∀ r, heap s !! r = None → heap s' !! r = None;
  cn_scope : ∀ r x c, heap s !! r = Some x → cancelCtx_of x = Some c →
    ∃ x' c', heap s' !! r = Some x' ∧ cancelCtx_of x' = Some c' ∧
      (∀ cc, x = CancelCtx cc → x' = CancelCtx c') ∧
      (∀ t, x = TimerCtx t → ∃ tm, x' = TimerCtx (mkTimerCtx c' tm (t_deadline t)) ∧
          (tm = t_timer t ∨ tm = None)) ∧
      (is_Some (c_err c) → c' = c) ∧
      (c_err c = None → c' = c ∨
         (c_err c' = Some e ∧
          c_done c' = Some (default closedchan (c_done c)) ∧
          default closedchan (c_done c) ∈ closed s' ∧
          c_children c' = None ∧
          c_Context c' = c_Context c ∧
          ∀ k, k ∈ children_of c → cancelled k s'))
}.

(** What no step ever undoes: an object keeps its kind and its parent, a
    channel once created stays, a cause once recorded stays, and a
    cancelled scope that has forgotten its children registers no new
    one. *)
Definition evolve_c (c c' : cancelCtx) : Prop :=
  c_Context c' = c_Context c ∧
  (∀ d, c_done c = Some d → c_done c' = Some d) ∧
  (∀ e, c_err c = Some e →
     c_err c' = Some e ∧ (c_children c = None → c_children c' = None)).

Definition evolve (x x' : ctx) : Prop :=
  match x, x' with
  | EmptyCtx, EmptyCtx => True
  | CancelCtx c, CancelCtx c' => evolve_c c c'
  | TimerCtx t, TimerCtx t' =>
    evolve_c (t_cancelCtx t) (t_cancelCtx t') ∧ t_deadline t' = t_deadline t
  | ValueCtx _ _ _, _ => x' = x
  | ForeignCtx f, ForeignCtx f' =>
    f_done f' = f_done f ∧ f_deadline f' = f_deadline f ∧
    f_inner f' = f_inner f ∧ ∀ e, f_err f = Some e → f_err f' = Some e
  | _, _ => False
  end.

Record mono (s s' : state) : Prop := {
  mn_closed : closed s ⊆ closed s';
  mn_heap : ∀ r x, heap s !! r = Some x →
    ∃ x', heap s' !! r = Some x' ∧ evolve x x'
}.

(** The state once the scope behind [c] has its cause [e] recorded and
    its channel [d] closed. *)
Definition marked (c : ref) (e : error) (d : chan) (s : state) : state :=
  set_closed ({[d]} ∪ closed s)
    (update c (λ cc, set_done (Some d) (set_err (Some e) cc)) s).

(** The state once [Done] has created the channel of the scope behind
    [c]. *)
Definition alloc_done (c : ref) (s : state) : state :=
  set_next_chan (S (next_chan s)) (update c (set_done (Some (next_chan s))) s).

(** [Done] as a relation: the parent chain is followed down to the first
    object that answers itself. *)
Inductive Done_at (s : state) : ref → state → option chan → Prop :=
| Done_at_empty c :
    heap s !! c = Some EmptyCtx → Done_at s c s None
| Done_at_foreign c f :
    heap s !! c = Some (ForeignCtx f) → Done_at s c s (f_done f)
| Done_at_old c cc d :
    get c s = Some cc → c_done cc = Some d → Done_at s c s (Some d)
| Done_at_new c cc :
    get c s = Some cc → c_done cc = None →
    Done_at s c (alloc_done c s) (Some (next_chan s))
| Done_at_value c p k v s' d :
    heap s !! c = Some (ValueCtx p k v) → Done_at s p s' d →
    Done_at s c s' d.

(** Steps that spawn nothing, allocate no object and leave the clock
    alone. *)
Record quiet (s s' : state) : Prop := {
  qt_next_ref : next_ref s' = next_ref s;
  qt_now : now s' = now s;
  qt_goroutines : goroutines s' = goroutines s;
  qt_tasks : tasks s' = tasks s
}.

(** The scope [c], derived in [s], comes out of its derivation cancelled
    with cause [e]: it is a new object, its channel is closed, nothing
    that existed has changed, no children map mentions it and no
    goroutine was started for it. *)
Definition born_cancelled (e : error) (s s' : state) (c : ref) : Prop :=
  c = next_ref s ∧ heap s !! c = None ∧
  cancelled_with e c s' ∧ done_closed c s' ∧
  (∀ r x, heap s !! r = Some x → heap s' !! r = Some x) ∧
  (∀ r cr, get r s' = Some cr → c ∉ children_of cr) ∧
  tasks s' = tasks s ∧ goroutines s' = goroutines s.

(** Between [s] and [s'] no children map has gained an entry and no
    scope has appeared. *)
Definition shrinks (s s' : state) : Prop :=
  ∀ r cr', get r s' = Some cr' →
    ∃ cr, get r s = Some cr ∧ children_of cr' ⊆ children_of cr.

(** Between [s] and [s'] nothing has changed outside the subtree
    registered below [c]: the objects outside are what they were, a
    scope that is still alive is what it was, and a channel closed
    meanwhile was the channel of a live scope of the subtree. *)
Record confined (c : ref) (s s' : state) : Prop := {
  conf_outside : ∀ r, r ≠ c → ¬ descendant s c r → heap s' !! r = heap s !! r;
  conf_shrinks : shrinks s s';
  conf_live : ∀ r cr', get r s' = Some cr' → c_err cr' = None →
    get r s = Some cr';
  conf_closed : ∀ d, d ∈ closed s' →
    d ∈ closed s ∨
    ∃ r cr, (r = c ∨ descendant s c r) ∧ get r s = Some cr ∧
            c_err cr = None ∧ c_done cr = Some d
}.

(** The object of a scope once it is cancelled with cause [e]: the
    cause is recorded, the channel is the one it had or [closedchan],
    the children are forgotten and the timer is stopped. *)
Definition killed (e : error) (x : ctx) : ctx :=
  match x with
  | CancelCtx c =>
    CancelCtx (mkCancelCtx (c_Context c) (Some (default closedchan (c_done c)))
                 None (Some e))
  | TimerCtx t =>
    TimerCtx (mkTimerCtx
                (mkCancelCtx (c_Context (t_cancelCtx t))
                   (Some (default closedchan (c_done (t_cancelCtx t))))
                   None (Some e))
                None (t_deadline t))
  | _ => x
  end.

(** What [cancel] with [removeFromParent] false has done when it
    returns [s'] from [s]. *)
Definition cancel_post (c : ref) (e : error) (s s' : state) : Prop :=
  wf s' ∧ cancels e s s' ∧ confined c s s' ∧
  ∀ r, r = c ∨ descendant s c r → cancelled r s'.

(** ** Three small states

    [ex_tree]: [a := WithCancel(Background)], [b := WithCancel(a)],
    [t := WithDeadline(b, 100)], at instant 0; the objects are 2, 3
    and 4. *)
Definition ex_a : cancelCtx := mkCancelCtx 0%nat (Some 1%nat) (Some {[3%nat]}) None.
Definition ex_b : cancelCtx := mkCancelCtx 2%nat (Some 2%nat) (Some {[4%nat]}) None.
Definition ex_t : timerCtx :=
  mkTimerCtx (mkCancelCtx 3%nat None None None) (Some 100) 100.

Definition ex_tree : state :=
  mkState
    (<[4%nat := TimerCtx ex_t]>
       (<[3%nat := CancelCtx ex_b]>
          (<[2%nat := CancelCtx ex_a]> (heap (init 0)))))
    {[closedchan]} 5%nat 3%nat 0 0 [].

(** [ex_done]: [a := WithCancel(Background)], then [a]'s trigger. *)
Definition ex_cancelled : cancelCtx :=
  mkCancelCtx 0%nat (Some closedchan) None (Some Canceled).

Definition ex_done : state :=
  mkState (<[2%nat := CancelCtx ex_cancelled]> (heap (init 0)))
    {[closedchan]} 3%nat 1%nat 0 0 [].


(** ** Reading the store after an update *)

Lemma bind_Ok {A B} (m : res A) (f : A → res B) (b : B) :
  m ≫= f = Ok b ↔ ∃ a, m = Ok a ∧ f a = Ok b.
Proof.
  destruct m; simpl; split; try naive_solver.
Qed.

Lemma heap_update_Some c f s r x' :
  heap (update c f s) !! r = Some x' ↔
  (c = r ∧ ∃ x, heap s !! r = Some x ∧ x' = map_cancelCtx f x) ∨
  (c ≠ r ∧ heap s !! r = Some x').
Proof. unfold update; simpl. rewrite lookup_alter_Some. naive_solver. Qed.

Lemma heap_update_None c f s r :
  heap (update c f s) !! r = None ↔ heap s !! r = None.
Proof. unfold update; simpl. apply lookup_alter_None. Qed.

Lemma heap_update_timer_Some c f s r x' :
  heap (update_timer c f s) !! r = Some x' ↔
  (c = r ∧ ∃ x, heap s !! r = Some x ∧ x' = map_timer f x) ∨
  (c ≠ r ∧ heap s !! r = Some x').
Proof. unfold update_timer; simpl. rewrite lookup_alter_Some. naive_solver. Qed.

Lemma cancelCtx_of_map f x :
  cancelCtx_of (map_cancelCtx f x) = f <$> cancelCtx_of x.
Proof. by destruct x. Qed.

Lemma cancelCtx_of_map_timer f x :
  cancelCtx_of (map_timer f x) = cancelCtx_of x.
Proof. by destruct x. Qed.

Lemma get_update c f s r :
  get r (update c f s) = if decide (c = r) then f <$> get r s else get r s.
Proof.
  unfold get, update; simpl. rewrite lookup_alter.
  case_decide; [|done]. subst. destruct (heap s !! r) as [x|]; [|done].
  simpl. apply cancelCtx_of_map.
Qed.

Lemma get_update_eq c f s : get c (update c f s) = f <$> get c s.
Proof. rewrite get_update. by case_decide. Qed.

Lemma get_update_ne c f s r : c ≠ r → get r (update c f s) = get r s.
Proof. intros. rewrite get_update. by case_decide. Qed.

Lemma get_update_timer c f s r : get r (update_timer c f s) = get r s.
Proof.
  unfold get, update_timer; simpl. rewrite lookup_alter.
  case_decide; [|done]. subst. destruct (heap s !! r) as [x|]; [|done].
  simpl. apply cancelCtx_of_map_timer.
Qed.

Lemma get_Some r s c :
  get r s = Some c ↔ ∃ x, heap s !! r = Some x ∧ cancelCtx_of x = Some c.
Proof.
  unfold get. destruct (heap s !! r) as [x|]; simpl; naive_solver.
Qed.

Lemma parent_of_map f x :
  (∀ c, c_Context (f c) = c_Context c) →
  parent_of (map_cancelCtx f x) = parent_of x.
Proof. intros Hf. destruct x; simpl; by rewrite ?Hf. Qed.

Lemma elem_of_order X k : k ∈ order X ↔ k ∈ X.
Proof. rewrite (order_perm X). apply elem_of_elements. Qed.

Lemma elem_of_live r s :
  r ∈ live s ↔ ∃ c, get r s = Some c ∧ c_err c = None.
Proof.
  unfold live. rewrite elem_of_dom. unfold is_Some.
  setoid_rewrite map_lookup_filter_Some. simpl. unfold is_live.
  setoid_rewrite get_Some. split.
  - intros (x & Hx & Hl). destruct (cancelCtx_of x) as [c|] eqn:E; [|done].
    exists c. split; [eauto|]. by apply bool_decide_eq_true in Hl.
  - intros (c & (x & Hx & Hc) & He). exists x. split; [done|].
    rewrite Hc. by apply bool_decide_eq_true.
Qed.

Lemma get_set_closed r X s : get r (set_closed X s) = get r s.
Proof. done. Qed.
Lemma get_set_next_chan r n s : get r (set_next_chan n s) = get r s.
Proof. done. Qed.
Lemma get_set_next_ref r n s : get r (set_next_ref n s) = get r s.
Proof. done. Qed.
Lemma get_set_now r t s : get r (set_now t s) = get r s.
Proof. done. Qed.
Lemma get_set_goroutines r g s : get r (set_goroutines g s) = get r s.
Proof. done. Qed.
Lemma get_set_tasks r l s : get r (set_tasks l s) = get r s.
Proof. done. Qed.

Lemma closed_update c f s : closed (update c f s) = closed s.
Proof. done. Qed.
Lemma next_ref_update c f s : next_ref (update c f s) = next_ref s.
Proof. done. Qed.
Lemma next_chan_update c f s : next_chan (update c f s) = next_chan s.
Proof. done. Qed.
Lemma now_update c f s : now (update c f s) = now s.
Proof. done. Qed.
Lemma goroutines_update c f s : goroutines (update c f s) = goroutines s.
Proof. done. Qed.
Lemma tasks_update c f s : tasks (update c f s) = tasks s.
Proof. done. Qed.
Lemma closed_update_timer c f s : closed (update_timer c f s) = closed s.
Proof. done. Qed.
Lemma next_ref_update_timer c f s : next_ref (update_timer c f s) = next_ref s.
Proof. done. Qed.
Lemma next_chan_update_timer c f s : next_chan (update_timer c f s) = next_chan s.
Proof. done. Qed.
Lemma now_update_timer c f s : now (update_timer c f s) = now s.
Proof. done. Qed.
Lemma goroutines_update_timer c f s : goroutines (update_timer c f s) = goroutines s.
Proof. done. Qed.
Lemma tasks_update_timer c f s : tasks (update_timer c f s) = tasks s.
Proof. done. Qed.

Lemma closed_alloc x s : closed (alloc x s).1 = closed s.
Proof. done. Qed.
Lemma next_chan_alloc x s : next_chan (alloc x s).1 = next_chan s.
Proof. done. Qed.
Lemma next_ref_alloc x s : next_ref (alloc x s).1 = S (next_ref s).
Proof. done. Qed.
Lemma now_alloc x s : now (alloc x s).1 = now s.
Proof. done. Qed.
Lemma goroutines_alloc x s : goroutines (alloc x s).1 = goroutines s.
Proof. done. Qed.
Lemma tasks_alloc x s : tasks (alloc x s).1 = tasks s.
Proof. done. Qed.

Arguments update : simpl never.
Arguments update_timer : simpl never.

Create Rewrite HintDb st.
#[local] Hint Rewrite closed_update next_ref_update next_chan_update now_update
  goroutines_update tasks_update closed_update_timer next_ref_update_timer
  next_chan_update_timer now_update_timer goroutines_update_timer
  tasks_update_timer closed_alloc next_chan_alloc next_ref_alloc now_alloc
  goroutines_alloc tasks_alloc : st.
#[local] Hint Rewrite get_set_closed get_set_next_chan get_set_next_ref
  get_set_now get_set_goroutines get_set_tasks get_update_timer : st.

(** Projections of a state built by the setters. *)
Ltac st :=
  cbn [heap closed next_ref next_chan now goroutines tasks set_next_chan
       set_closed set_next_ref set_now set_goroutines set_tasks] in *;
  autorewrite with st in *.

(** ** Well-formedness is kept by each mutation of the store *)


Lemma state_eq s1 s2 :
  heap s1 = heap s2 → closed s1 = closed s2 → next_ref s1 = next_ref s2 →
  next_chan s1 = next_chan s2 → now s1 = now s2 →
  goroutines s1 = goroutines s2 → tasks s1 = tasks s2 → s1 = s2.
Proof. destruct s1, s2; simpl; intros; by subst. Qed.

Lemma mark_Ok c cc e s :
  closedchan ∈ closed s →
  get c s = Some cc →
  (∀ d, c_done cc = Some d → d ∉ closed s) →
  match c_done cc with
  | None => Ok (update c (set_done (Some closedchan)) (update c (set_err (Some e)) s))
  | Some d => close d (update c (set_err (Some e)) s)
  end = Ok (marked c e (default closedchan (c_done cc)) s).
Proof.
  intros Hcc Hget Hd. apply get_Some in Hget as (x & Hx & Hc).
  destruct (c_done cc) as [d|] eqn:Ed; simpl.
  - unfold close. simpl. rewrite decide_False by eauto.
    f_equal. apply state_eq; simpl; try done.
    apply map_eq; intros r. rewrite !lookup_alter.
    case_decide; [|done]. subst. rewrite Hx. simpl. f_equal.
    destruct x; simplify_eq/=; unfold set_done, set_err; simpl; by rewrite ?Ed.
  - f_equal. apply state_eq; simpl; try done.
    + apply map_eq; intros r. rewrite !lookup_alter.
      case_decide; [|done]. subst. rewrite Hx. simpl.
      rewrite decide_True by done. simpl. f_equal. by destruct x.
    + set_solver.
Qed.

Lemma is_Some_heap_update c f s r :
  is_Some (heap (update c f s) !! r) ↔ is_Some (heap s !! r).
Proof.
  unfold update; simpl. rewrite lookup_alter. case_decide; [|done].
  subst. by rewrite fmap_is_Some.
Qed.

Lemma is_Some_get_update c f s r :
  is_Some (get r (update c f s)) ↔ is_Some (get r s).
Proof. rewrite get_update. case_decide; [|done]. by rewrite fmap_is_Some. Qed.

Lemma chan_of_map f x c :
  cancelCtx_of x = Some c → chan_of (map_cancelCtx f x) = c_done (f c).
Proof. destruct x; simpl; intros; by simplify_eq. Qed.

Lemma chan_of_cancelCtx x c : cancelCtx_of x = Some c → chan_of x = c_done c.
Proof. destruct x; simpl; intros; by simplify_eq. Qed.

(** One field update of the scope behind [c], possibly together with
    the closing or the allocation of channels. *)
Lemma wf_base_update c cc f s X n :
  wf_base s → get c s = Some cc →
  closed s ⊆ X → (next_chan s ≤ n)%nat →
  (∀ d, d ∈ X → d ∉ closed s →
     (d < n)%nat ∧ ∀ r x, r ≠ c → heap s !! r = Some x → chan_of x ≠ Some d) →
  c_Context (f cc) = c_Context cc →
  (∀ k, k ∈ children_of (f cc) → is_Some (get k s)) →
  (∀ d, c_done (f cc) = Some d →
     (d < n)%nat ∧
     (d ≠ closedchan → ∀ r x, r ≠ c → heap s !! r = Some x → chan_of x ≠ Some d)) →
  (is_Some (c_err (f cc)) ↔ ∃ d, c_done (f cc) = Some d ∧ d ∈ X) →
  wf_base (set_next_chan n (set_closed X (update c f s))).
Proof.
  intros Hwf Hget HX Hn Hnew Hctx Hkids Hdone Herr.
  pose proof Hget as (x0 & Hx0 & Hc0)%get_Some.
  assert (Hnewopen : ∀ r x d, heap s !! r = Some x → r ≠ c →
            chan_of x = Some d → d ∈ X → d ∈ closed s).
  { intros r x d Hx Hr Hd HdX. destruct (decide (d ∈ closed s)); [done|].
    destruct (Hnew d HdX) as [_ Hno]; [done|]. by destruct (Hno r x). }
  split; st.
  - apply HX, Hwf.
  - intros d Hd. destruct (decide (d ∈ closed s)) as [Hin|Hin].
    + pose proof (wb_closed_alloc _ Hwf d Hin). lia.
    + by apply Hnew.
  - intros r x [[-> (x' & Hx & ->)]|[? Hx]]%heap_update_Some;
      by eapply wb_dom.
  - intros r x p Hx Hp. rewrite is_Some_heap_update.
    apply heap_update_Some in Hx as [[-> (x' & Hx & ->)]|[? Hx]].
    + simplify_eq. eapply (wb_parent _ Hwf); [done|].
      destruct x0; simplify_eq/=; by rewrite <- Hctx.
    + by eapply wb_parent.
  - intros r p k v [[-> (x' & Hx & Heq)]|[? Hx]]%heap_update_Some.
    + destruct x'; simplify_eq/=; by eapply wb_key.
    + by eapply wb_key.
  - intros r c0 k. st. rewrite is_Some_get_update, get_update. case_decide.
    + subst. rewrite Hget. simpl. intros [= <-]. apply Hkids.
    + by apply wb_children.
  - intros r x d [[-> (x' & Hx & ->)]|[? Hx]]%heap_update_Some Hd.
    + simplify_eq. rewrite (chan_of_map _ _ cc) in Hd by done.
      by apply Hdone.
    + pose proof (wb_chan_alloc _ Hwf r x d Hx Hd). lia.
  - intros r r' x x' d Hx Hx' Hd Hd' Hne.
    apply heap_update_Some in Hx as [[-> (y & Hx & ->)]|[? Hx]];
    apply heap_update_Some in Hx' as [[-> (y' & Hx' & ->)]|[? Hx']];
      try done.
    + simplify_eq. rewrite (chan_of_map _ _ cc) in Hd by done.
      destruct (Hdone d Hd) as [_ Hno]. by destruct (Hno Hne r' x').
    + simplify_eq. rewrite (chan_of_map _ _ cc) in Hd' by done.
      destruct (Hdone d Hd') as [_ Hno]. by destruct (Hno Hne r x).
    + by eapply (wb_chan_owner _ Hwf).
  - intros r c0. st. rewrite get_update. case_decide.
    + subst. rewrite Hget. simpl. by intros [= <-].
    + intros Hr. rewrite (wb_err_done _ Hwf r c0 Hr).
      apply get_Some in Hr as (x & Hx & Hc).
      split; intros (d & Hd & Hin); exists d; split; try done.
      * by apply HX.
      * eapply Hnewopen; [done..| |done].
        by rewrite (chan_of_cancelCtx _ c0).
  - intros r f0 d [[-> (x' & Hx & Heq)]|[? Hx]]%heap_update_Some Hd.
    + destruct x'; simplify_eq/=.
    + destruct (wb_foreign _ Hwf r f0 d Hx Hd) as [? Hiff].
      split; [done|]. rewrite <- Hiff. split; [|apply HX].
      intros HdX. by eapply Hnewopen.
  - intros t Ht. st. rewrite is_Some_heap_update, is_Some_get_update.
    by apply wb_tasks.
Qed.

Lemma wf_strong_update (P P' : ref → Prop) c cc f s :
  wf_strong P s → get c s = Some cc →
  (∀ r, P r → P' r) →
  (¬ P' c → is_Some (c_err (f cc)) →
      c_children (f cc) = None ∧
      (is_Some (c_err cc) ∨ heap s !! c ≫= timer_of = None)) →
  wf_strong P' (update c f s).
Proof.
  intros Hwf Hget HP Hc. split.
  - intros r c0 Hr. rewrite get_update. case_decide.
    + subst. rewrite Hget. simpl. intros [= <-] He. by apply Hc.
    + intros. eapply (ws_children _ _ Hwf); eauto.
  - intros r t Hr [[-> (x & Hx & Heq)]|[? Hx]]%heap_update_Some Ht.
    + specialize (Hc Hr).
      destruct x as [| |t0| |]; simplify_eq/=.
      rewrite get_Some in Hget. destruct Hget as (x & Hx' & Hcc).
      simplify_eq/=.
      destruct (c_err (f (t_cancelCtx t0))) as [e|] eqn:He; [|done].
      destruct Hc as [_ [Hc|Hc]]; [done| |].
      * pose proof (ws_timer _ _ Hwf r t0) as Hw.
        rewrite Hw in Hc; eauto. by destruct Hc.
      * rewrite Hx' in Hc. simpl in Hc. rewrite Hc in Ht. by destruct Ht.
    + eapply (ws_timer _ _ Hwf); eauto.
Qed.

Lemma wf_base_update_timer c f s : wf_base s → wf_base (update_timer c f s).
Proof.
  intros Hwf.
  assert (Hinv : ∀ r x, heap (update_timer c f s) !! r = Some x →
            ∃ x0, heap s !! r = Some x0 ∧ parent_of x = parent_of x0 ∧
                  chan_of x = chan_of x0 ∧
                  (∀ p k v, x = ValueCtx p k v → x0 = x) ∧
                  (∀ f0, x = ForeignCtx f0 → x0 = x)).
  { intros r x [[-> (x0 & Hx & ->)]|[? Hx]]%heap_update_timer_Some.
    - exists x0. by destruct x0.
    - exists x. eauto. }
  assert (Hsome : ∀ r, is_Some (heap (update_timer c f s) !! r) ↔
                       is_Some (heap s !! r)).
  { intros r. unfold update_timer; simpl. rewrite lookup_alter.
    case_decide; [|done]. subst. by rewrite fmap_is_Some. }
  split.
  - st. apply Hwf.
  - intros d. st. apply Hwf.
  - intros r x (x0 & Hx & _)%Hinv. st. by eapply wb_dom.
  - intros r x p (x0 & Hx & Hp & _)%Hinv. rewrite Hp, Hsome.
    by eapply wb_parent.
  - intros r p k v Hx. destruct (Hinv _ _ Hx) as (x0 & Hx0 & _ & _ & Hv & _).
    erewrite Hv in Hx0 by done. by eapply wb_key.
  - intros r c0 k. st. apply Hwf.
  - intros r x d (x0 & Hx & _ & Hd & _)%Hinv. rewrite Hd. st.
    by eapply wb_chan_alloc.
  - intros r r' x x' d (x0 & Hx & _ & Hd & _)%Hinv (x0' & Hx' & _ & Hd' & _)%Hinv.
    rewrite Hd, Hd'. by eapply wb_chan_owner.
  - intros r c0. st. apply Hwf.
  - intros r f0 d Hx. destruct (Hinv _ _ Hx) as (x0 & Hx0 & _ & _ & _ & Hf).
    erewrite Hf in Hx0 by done. st. by eapply wb_foreign.
  - intros t. st. rewrite Hsome. by apply wb_tasks.
Qed.

Lemma wf_strong_update_timer (P : ref → Prop) c f s :
  wf_strong P s →
  (¬ P c → ∀ t, heap s !! c = Some (TimerCtx t) →
            is_Some (f (t_timer t)) → c_err (t_cancelCtx t) = None) →
  wf_strong P (update_timer c f s).
Proof.
  intros Hwf Hc. split.
  - intros r c0. st. apply Hwf.
  - intros r t Hr [[-> (x & Hx & Heq)]|[? Hx]]%heap_update_timer_Some Ht.
    + destruct x as [| |t0| |]; simplify_eq/=. by eapply Hc.
    + eapply (ws_timer _ _ Hwf); eauto.
Qed.

(** The cancellation of [c] is over: [c] is no longer exempt. *)
Lemma wf_strong_shrink (P : ref → Prop) c s :
  wf_strong (λ r, P r ∨ r = c) s →
  (∀ cc, get c s = Some cc → is_Some (c_err cc) → c_children cc = None) →
  heap s !! c ≫= timer_of = None →
  wf_strong P s.
Proof.
  intros Hwf Hkids Htimer. split.
  - intros r c0 Hr Hget He. destruct (decide (r = c)) as [->|Hne]; [eauto|].
    eapply (ws_children _ _ Hwf); eauto. naive_solver.
  - intros r t Hr Hx Ht. destruct (decide (r = c)) as [->|Hne].
    + rewrite Hx in Htimer. simpl in Htimer. rewrite Htimer in Ht.
      by destruct Ht.
    + eapply (ws_timer _ _ Hwf); eauto. naive_solver.
Qed.

Lemma wf_strong_weaken (P P' : ref → Prop) s :
  wf_strong P s → (∀ r, P r → P' r) → wf_strong P' s.
Proof.
  intros Hwf HP. split; intros r ? Hr.
  - eapply (ws_children _ _ Hwf); eauto.
  - eapply (ws_timer _ _ Hwf); eauto.
Qed.

(** Fields the invariants do not read. *)
Lemma wf_base_ext s s' :
  heap s' = heap s → closed s' = closed s → next_ref s' = next_ref s →
  next_chan s' = next_chan s → tasks s' = tasks s →
  wf_base s → wf_base s'.
Proof.
  intros Hh Hc Hr Hn Ht [].
  split; unfold get; rewrite ?Hh, ?Hc, ?Hr, ?Hn, ?Ht; done.
Qed.

Lemma wf_strong_ext (P : ref → Prop) s s' :
  heap s' = heap s → wf_strong P s → wf_strong P s'.
Proof. intros Hh []. split; unfold get; rewrite ?Hh; done. Qed.

Lemma heap_alloc_Some x s r y :
  heap (alloc x s).1 !! r = Some y ↔
  (r = next_ref s ∧ y = x) ∨ (r ≠ next_ref s ∧ heap s !! r = Some y).
Proof. simpl. rewrite lookup_insert_Some. naive_solver. Qed.

Lemma fresh_ref s : wf_base s → heap s !! next_ref s = None.
Proof.
  intros Hwf. destruct (heap s !! next_ref s) as [x|] eqn:E; [|done].
  apply (wb_dom _ Hwf) in E. lia.
Qed.

Lemma get_alloc x s r :
  wf_base s →
  get r (alloc x s).1 =
    if decide (r = next_ref s) then cancelCtx_of x else get r s.
Proof.
  intros Hwf. unfold get. simpl. rewrite lookup_insert.
  repeat case_decide; by subst.
Qed.

Lemma is_Some_heap_alloc x s r :
  is_Some (heap s !! r) → is_Some (heap (alloc x s).1 !! r).
Proof.
  simpl. rewrite lookup_insert. by case_decide.
Qed.

Lemma is_Some_get_alloc x s r :
  wf_base s → is_Some (get r s) → is_Some (get r (alloc x s).1).
Proof.
  intros Hwf Hr. rewrite get_alloc by done. case_decide; [|done].
  subst. destruct Hr as (c & (y & Hy & _)%get_Some).
  by rewrite fresh_ref in Hy.
Qed.

(** A new object, with a fresh channel or none, not cancelled and
    without children. *)
Lemma wf_base_alloc x s n :
  wf_base s → (next_chan s ≤ n)%nat →
  (∀ p, parent_of x = Some p → is_Some (heap s !! p)) →
  (∀ p k v, x = ValueCtx p k v → k ≠ cancelCtxKey) →
  (∀ c, cancelCtx_of x = Some c →
     c_children c = None ∧ c_err c = None ∧ c_done c = None) →
  (∀ f, x = ForeignCtx f → f_err f = None) →
  (∀ d, chan_of x = Some d → (next_chan s ≤ d < n)%nat) →
  wf_base (set_next_chan n (alloc x s).1).
Proof.
  intros Hwf Hn Hpar Hkey Hc Hf Hd.
  pose proof (fresh_ref _ Hwf) as Hfresh.
  assert (Hold : ∀ r y d, heap s !! r = Some y → chan_of y = Some d →
            (d < next_chan s)%nat) by apply Hwf.
  split.
  - apply Hwf.
  - intros d Hin. st. apply (wb_closed_alloc _ Hwf) in Hin. simpl. lia.
  - intros r y [[-> ->]|[? Hy]]%heap_alloc_Some; simpl; [lia|].
    apply (wb_dom _ Hwf) in Hy. lia.
  - intros r y p [[-> ->]|[? Hy]]%heap_alloc_Some Hp.
    + destruct (Hpar p Hp) as [z Hz]. split.
      * apply (wb_dom _ Hwf) in Hz. lia.
      * apply is_Some_heap_alloc. eauto.
    + destruct (wb_parent _ Hwf r y p Hy Hp). split; [done|].
      by apply is_Some_heap_alloc.
  - intros r p k v [[-> Heq]|[? Hy]]%heap_alloc_Some; [by eapply Hkey|].
    by eapply wb_key.
  - intros r c k. st. rewrite get_alloc by done. case_decide.
    + intros Hx Hk. destruct (Hc c Hx) as (Hkids & _).
      unfold children_of in Hk. rewrite Hkids in Hk. set_solver.
    + intros Hr Hk. apply is_Some_get_alloc; [done|].
      by eapply wb_children.
  - intros r y d [[-> ->]|[? Hy]]%heap_alloc_Some Hch; simpl.
    + apply Hd in Hch. lia.
    + apply (Hold _ _ _ Hy) in Hch. lia.
  - intros r r' y y' d [[-> ->]|[? Hy]]%heap_alloc_Some
      [[-> ->]|[? Hy']]%heap_alloc_Some Hch Hch' Hne; try done.
    + apply Hd in Hch. apply (Hold _ _ _ Hy') in Hch'. lia.
    + apply Hd in Hch'. apply (Hold _ _ _ Hy) in Hch. lia.
    + by eapply (wb_chan_owner _ Hwf).
  - intros r c. st. rewrite get_alloc by done. case_decide.
    + intros Hx. destruct (Hc c Hx) as (_ & -> & ->).
      split; [by intros []|]. by intros (d & ? & _).
    + apply Hwf.
  - intros r f d [[-> <-]|[? Hy]]%heap_alloc_Some Hfd; st.
    + assert (next_chan s ≤ d)%nat as Hle by (apply (Hd d) in Hfd; lia).
      rewrite (Hf f) by done. split; [|split].
      * intros ->. pose proof (wb_closed_alloc _ Hwf _ (wb_closedchan _ Hwf)).
        lia.
      * intros Hin%(wb_closed_alloc _ Hwf). lia.
      * by intros [].
    + by eapply wb_foreign.
  - intros t Ht. st. destruct (wb_tasks _ Hwf t Ht). split.
    + by apply is_Some_heap_alloc.
    + by apply is_Some_get_alloc.
Qed.

Lemma wf_strong_alloc (P : ref → Prop) x s :
  wf_base s → wf_strong P s →
  (∀ c, cancelCtx_of x = Some c → c_err c = None) →
  wf_strong P (alloc x s).1.
Proof.
  intros Hb Hwf Hc. split.
  - intros r c Hr. rewrite get_alloc by done. case_decide.
    + intros Hx%Hc He. rewrite Hx in He. by destruct He.
    + by apply Hwf.
  - intros r t Hr [[-> <-]|[? Hy]]%heap_alloc_Some Ht.
    + by apply Hc.
    + eapply (ws_timer _ _ Hwf); eauto.
Qed.

Lemma set_next_chan_id s : set_next_chan (next_chan s) s = s.
Proof. by destruct s. Qed.

Lemma wf_init t0 : wf (init t0).
Proof.
  split; split; simpl.
  - set_solver.
  - intros d ->%elem_of_singleton. unfold closedchan. lia.
  - intros r x. unfold Background, TODO.
    rewrite !lookup_insert_Some, lookup_empty. naive_solver lia.
  - intros r x p. unfold Background, TODO.
    rewrite !lookup_insert_Some, lookup_empty. naive_solver.
  - intros r p k v. unfold Background, TODO.
    rewrite !lookup_insert_Some, lookup_empty. naive_solver.
  - intros r c k (x & Hx & Hc)%get_Some. revert Hx. simpl. unfold Background, TODO.
    rewrite !lookup_insert_Some, lookup_empty. naive_solver.
  - intros r x d. unfold Background, TODO.
    rewrite !lookup_insert_Some, lookup_empty. naive_solver.
  - intros r r' x x' d. unfold Background, TODO.
    rewrite !lookup_insert_Some, lookup_empty. naive_solver.
  - intros r c (x & Hx & Hc)%get_Some. revert Hx. simpl. unfold Background, TODO.
    rewrite !lookup_insert_Some, lookup_empty. naive_solver.
  - intros r f d. unfold Background, TODO.
    rewrite !lookup_insert_Some, lookup_empty. naive_solver.
  - intros t Ht. by apply elem_of_nil in Ht.
  - intros r c _ (x & Hx & Hc)%get_Some. revert Hx. simpl. unfold Background, TODO.
    rewrite !lookup_insert_Some, lookup_empty. naive_solver.
  - intros r t _. unfold Background, TODO.
    rewrite !lookup_insert_Some, lookup_empty. naive_solver.
Qed.

(** ** [Done], [Err], [Value] and [Deadline] *)

Lemma cancelCtx_Done_inv c s s' d :
  cancelCtx_Done c s = Ok (s', d) →
  ∃ cc, get c s = Some cc ∧
    ((c_done cc = d ∧ is_Some d ∧ s' = s) ∨
     (c_done cc = None ∧ d = Some (next_chan s) ∧ s' = alloc_done c s)).
Proof.
  unfold cancelCtx_Done. destruct (get c s) as [cc|]; [|done].
  destruct (c_done cc) as [d0|] eqn:Hd; intros [= <- <-]; exists cc;
    naive_solver.
Qed.

Lemma is_canceler_get c s x :
  heap s !! c = Some x → (∃ cc, x = CancelCtx cc) ∨ (∃ t, x = TimerCtx t) →
  ∃ cc, get c s = Some cc.
Proof.
  intros Hx [[cc ->]|[t ->]]; unfold get; rewrite Hx; simpl; eauto.
Qed.

Lemma Done_fuel_at n c s s' d :
  Done_fuel n c s = Ok (s', d) → Done_at s c s' d.
Proof.
  revert c. induction n as [|n IH]; intros c; [done|]. simpl.
  destruct (heap s !! c) as [x|] eqn:Hx; [|done].
  destruct x as [|cc|t|p k v|f].
  - intros [= <- <-]. by constructor.
  - intros (cc' & Hget & [(<- & [d' Hd] & ->)|(Hd & -> & ->)])%cancelCtx_Done_inv.
    + rewrite Hd. by econstructor.
    + by econstructor.
  - intros (cc' & Hget & [(<- & [d' Hd] & ->)|(Hd & -> & ->)])%cancelCtx_Done_inv.
    + rewrite Hd. by econstructor.
    + by econstructor.
  - intros H. eapply Done_at_value; eauto.
  - intros [= <- <-]. by constructor.
Qed.

Lemma Done_fuel_total n c s :
  wf_base s → is_Some (heap s !! c) → (c < n)%nat →
  ∃ s' d, Done_fuel n c s = Ok (s', d).
Proof.
  intros Hwf. revert c. induction n as [|n IH]; intros c [x Hx] Hn; [lia|].
  simpl. rewrite Hx. destruct x as [|cc|t|p k v|f]; eauto.
  - unfold cancelCtx_Done, get. rewrite Hx. simpl. destruct (c_done cc); eauto.
  - unfold cancelCtx_Done, get. rewrite Hx. simpl.
    destruct (c_done (t_cancelCtx t)); eauto.
  - destruct (wb_parent _ Hwf c _ p Hx eq_refl) as [Hlt Hp].
    apply IH; [done|lia].
Qed.

Lemma Done_total c s :
  wf_base s → is_Some (heap s !! c) → ∃ s' d, Done c s = Ok (s', d).
Proof. intros. apply Done_fuel_total; [done..|lia]. Qed.

Lemma Done_at_ex c s s' d : Done c s = Ok (s', d) → Done_at s c s' d.
Proof. apply Done_fuel_at. Qed.

Lemma wf_base_alloc_done c cc s :
  wf_base s → get c s = Some cc → c_done cc = None →
  wf_base (alloc_done c s).
Proof.
  intros Hwf Hget Hd.
  assert (c_err cc = None) as He.
  { destruct (c_err cc) as [e|] eqn:He; [|done].
    apply mk_is_Some, (wb_err_done _ Hwf c cc Hget) in He as (d & Hd' & _).
    congruence. }
  eapply wf_base_ext; last first.
  - apply (wf_base_update c cc (set_done (Some (next_chan s))) s (closed s)
             (S (next_chan s))); try done.
    + lia.
    + intros k Hk. by eapply wb_children.
    + simpl. intros d [= <-]. split; [lia|]. intros _ r x _ Hx Hch.
      apply (wb_chan_alloc _ Hwf r x) in Hch; [lia|done].
    + simpl. rewrite He. split; [by intros []|].
      intros (d & [= <-] & Hin%(wb_closed_alloc _ Hwf)). lia.
  - done.
  - done.
  - done.
  - done.
  - done.
Qed.

Lemma wf_strong_alloc_done (P : ref → Prop) c cc s :
  wf_strong P s → get c s = Some cc →
  wf_strong P (alloc_done c s).
Proof.
  intros Hwf Hget. eapply wf_strong_ext; last first.
  - apply (wf_strong_update P P c cc (set_done (Some (next_chan s))) s);
      try done.
    simpl. intros HP He.
    split; [|by left]. by eapply (ws_children _ _ Hwf).
  - done.
Qed.

Lemma Done_at_wf (P : ref → Prop) c s s' d :
  Done_at s c s' d → wf_base s → wf_strong P s →
  wf_base s' ∧ wf_strong P s'.
Proof.
  induction 1; intros; try done; try by apply IHDone_at.
  split; [by eapply wf_base_alloc_done|by eapply wf_strong_alloc_done].
Qed.

Lemma Err_fuel_total n c s :
  wf_base s → is_Some (heap s !! c) → (c < n)%nat →
  ∃ e, Err_fuel n c s = Ok e.
Proof.
  intros Hwf. revert c. induction n as [|n IH]; intros c [x Hx] Hn; [lia|].
  simpl. rewrite Hx. destruct x as [|cc|t|p k v|f]; eauto.
  - unfold cancelCtx_Err, get. rewrite Hx. simpl. eauto.
  - unfold cancelCtx_Err, get. rewrite Hx. simpl. eauto.
  - destruct (wb_parent _ Hwf c _ p Hx eq_refl) as [Hlt Hp].
    apply IH; [done|lia].
Qed.

Lemma Err_total c s :
  wf_base s → is_Some (heap s !! c) → ∃ e, Err c s = Ok e.
Proof. intros. apply Err_fuel_total; [done..|lia]. Qed.

Lemma Value_fuel_total n c k s :
  wf_base s → is_Some (heap s !! c) → (c < n)%nat →
  ∃ v, Value_fuel n c k s = Ok v.
Proof.
  intros Hwf. revert c. induction n as [|n IH]; intros c [x Hx] Hn; [lia|].
  simpl. rewrite Hx. destruct x as [|cc|t|p k' v|f]; eauto.
  - case_decide; eauto.
    destruct (wb_parent _ Hwf c _ (c_Context cc) Hx eq_refl) as [Hlt Hp].
    apply IH; [done|lia].
  - case_decide; eauto.
    destruct (wb_parent _ Hwf c _ (c_Context (t_cancelCtx t)) Hx eq_refl)
      as [Hlt Hp].
    apply IH; [done|lia].
  - case_decide; eauto.
    destruct (wb_parent _ Hwf c _ p Hx eq_refl) as [Hlt Hp].
    apply IH; [done|lia].
  - destruct (f_inner f) as [i|] eqn:Hi; eauto.
    destruct (wb_parent _ Hwf c _ i Hx Hi) as [Hlt Hp].
    apply IH; [done|lia].
Qed.

Lemma Value_total c k s :
  wf_base s → is_Some (heap s !! c) → ∃ v, Value c k s = Ok v.
Proof. intros. apply Value_fuel_total; [done..|lia]. Qed.

Lemma Deadline_fuel_total n c s :
  wf_base s → is_Some (heap s !! c) → (c < n)%nat →
  ∃ d, Deadline_fuel n c s = Ok d.
Proof.
  intros Hwf. revert c. induction n as [|n IH]; intros c [x Hx] Hn; [lia|].
  simpl. rewrite Hx. destruct x as [|cc|t|p k' v|f]; eauto.
  - destruct (wb_parent _ Hwf c _ (c_Context cc) Hx eq_refl) as [Hlt Hp].
    apply IH; [done|lia].
  - destruct (wb_parent _ Hwf c _ p Hx eq_refl) as [Hlt Hp].
    apply IH; [done|lia].
Qed.

Lemma Deadline_total c s :
  wf_base s → is_Some (heap s !! c) → ∃ d, Deadline c s = Ok d.
Proof. intros. apply Deadline_fuel_total; [done..|lia]. Qed.

(** The answer to the sentinel key is a scope of the store. *)
Lemma Value_fuel_cancelCtx n c p s :
  wf_base s →
  Value_fuel n c cancelCtxKey s = Ok (Some (VCancelCtx p)) →
  is_Some (get p s).
Proof.
  intros Hwf. revert c. induction n as [|n IH]; intros c; [done|]. simpl.
  destruct (heap s !! c) as [x|] eqn:Hx; [|done].
  destruct x as [|cc|t|p' k' v|f]; try done.
  - intros [= <-]. unfold get. by rewrite Hx.
  - intros [= <-]. unfold get. by rewrite Hx.
  - case_decide as Hk; [|by apply IH].
    subst. by destruct (wb_key _ Hwf c p' cancelCtxKey v Hx).
  - destruct (f_inner f); [by apply IH|done].
Qed.

(** ** Monotonicity *)

Lemma evolve_c_refl c : evolve_c c c.
Proof. unfold evolve_c. naive_solver. Qed.

Lemma evolve_refl x : evolve x x.
Proof. destruct x; simpl; auto using evolve_c_refl. Qed.

Lemma evolve_c_trans c1 c2 c3 : evolve_c c1 c2 → evolve_c c2 c3 → evolve_c c1 c3.
Proof.
  intros (H1 & H2 & H3) (H1' & H2' & H3'). split; [congruence|].
  split; [naive_solver|]. intros e He. destruct (H3 e He) as [He2 Hk].
  destruct (H3' e He2) as [He3 Hk']. naive_solver.
Qed.

Lemma evolve_trans x1 x2 x3 : evolve x1 x2 → evolve x2 x3 → evolve x1 x3.
Proof.
  destruct x1, x2; simpl; try done; destruct x3; simpl; try done;
    try congruence.
  - apply evolve_c_trans.
  - intros [H1 H2] [H1' H2']. split; [by eapply evolve_c_trans|congruence].
  - intros (? & ? & ? & ?) (? & ? & ? & ?). repeat split; try congruence.
    naive_solver.
Qed.

Lemma mono_refl s : mono s s.
Proof. split; [done|]. intros r x Hx. exists x. auto using evolve_refl. Qed.

Lemma mono_trans s1 s2 s3 : mono s1 s2 → mono s2 s3 → mono s1 s3.
Proof.
  intros [Hc H] [Hc' H']. split; [set_solver|].
  intros r x Hx. destruct (H r x Hx) as (x2 & Hx2 & He).
  destruct (H' r x2 Hx2) as (x3 & Hx3 & He').
  exists x3. split; [done|]. by eapply evolve_trans.
Qed.

Lemma evolve_cancelCtx x x' c :
  evolve x x' → cancelCtx_of x = Some c →
  ∃ c', cancelCtx_of x' = Some c' ∧ evolve_c c c'.
Proof.
  destruct x, x'; simpl; try done; intros H [= <-]; naive_solver.
Qed.

Lemma mono_get s s' r c :
  mono s s' → get r s = Some c → ∃ c', get r s' = Some c' ∧ evolve_c c c'.
Proof.
  intros [_ H] (x & Hx & Hc)%get_Some. destruct (H r x Hx) as (x' & Hx' & He).
  destruct (evolve_cancelCtx _ _ _ He Hc) as (c' & Hc' & Hev).
  exists c'. split; [|done]. apply get_Some. eauto.
Qed.

Lemma mono_cancelled s s' r : mono s s' → cancelled r s → cancelled r s'.
Proof.
  intros Hm (c & Hc & [e He]). destruct (mono_get _ _ _ _ Hm Hc) as (c' & Hc' & Hev).
  exists c'. split; [done|]. destruct Hev as (_ & _ & H).
  destruct (H e He) as [-> _]. eauto.
Qed.

Lemma mono_cancelled_with s s' r e :
  mono s s' → cancelled_with e r s → cancelled_with e r s'.
Proof.
  intros Hm (c & Hc & He). destruct (mono_get _ _ _ _ Hm Hc) as (c' & Hc' & Hev).
  exists c'. split; [done|]. destruct Hev as (_ & _ & H).
  by destruct (H e He) as [-> _].
Qed.

(** A field update of one scope is monotone when the scope evolves. *)
Lemma mono_update c cc f s :
  get c s = Some cc → evolve_c cc (f cc) → mono s (update c f s).
Proof.
  intros (x0 & Hx0 & Hc0)%get_Some Hev. split; [done|].
  intros r x Hx. destruct (decide (c = r)) as [->|Hne].
  - exists (map_cancelCtx f x). split.
    + apply heap_update_Some. left. eauto.
    + simplify_eq. destruct x0; simplify_eq/=; auto.
  - exists x. split; [|apply evolve_refl].
    apply heap_update_Some. by right.
Qed.

Lemma mono_update_timer c f s : mono s (update_timer c f s).
Proof.
  split; [done|]. intros r x Hx. destruct (decide (c = r)) as [->|Hne].
  - exists (map_timer f x). split.
    + apply heap_update_timer_Some. left. eauto.
    + destruct x; simpl; auto using evolve_c_refl, evolve_refl.
  - exists x. split; [|apply evolve_refl].
    apply heap_update_timer_Some. by right.
Qed.

Lemma mono_ext s s1 s2 :
  heap s2 = heap s1 → closed s1 ⊆ closed s2 → mono s s1 → mono s s2.
Proof.
  intros Hh Hc [H1 H2]. split; [set_solver|]. by rewrite Hh.
Qed.

Lemma mono_alloc x s : wf_base s → mono s (alloc x s).1.
Proof.
  intros Hwf. split; [done|]. intros r y Hy. exists y.
  split; [|apply evolve_refl]. apply heap_alloc_Some. right. split; [|done].
  intros ->. by rewrite fresh_ref in Hy.
Qed.

Lemma mono_alloc_done c cc s :
  get c s = Some cc → c_done cc = None → mono s (alloc_done c s).
Proof.
  intros Hget Hd. eapply mono_ext; last first.
  - eapply (mono_update c cc (set_done _)); [done|].
    split; [done|]. split; [|done]. simpl. congruence.
  - done.
  - done.
Qed.

Lemma Done_at_mono c s s' d : Done_at s c s' d → mono s s'.
Proof.
  induction 1; auto using mono_refl. by eapply mono_alloc_done.
Qed.

(** ** [parentCancelCtx] and [removeChild] *)

Lemma wf_base_update_children c cc X s :
  wf_base s → get c s = Some cc →
  (∀ k, k ∈ default ∅ X → is_Some (get k s)) →
  wf_base (update c (set_children X) s).
Proof.
  intros Hwf Hget HX. eapply wf_base_ext; last first.
  - apply (wf_base_update c cc (set_children X) s (closed s) (next_chan s));
      try done.
    + simpl. intros d Hd. split.
      * apply get_Some in Hget as (x & Hx & Hc).
        eapply (wb_chan_alloc _ Hwf); [done|].
        by rewrite (chan_of_cancelCtx _ cc).
      * intros Hne r x Hr Hx Hch.
        apply get_Some in Hget as (x0 & Hx0 & Hc).
        destruct Hr. eapply (wb_chan_owner _ Hwf); eauto.
        by rewrite (chan_of_cancelCtx _ cc).
    + simpl. by apply (wb_err_done _ Hwf c).
  - done.
  - done.
  - done.
  - done.
  - done.
Qed.

Lemma parentCancelCtx_inv parent s s' po :
  parentCancelCtx parent s = Ok (s', po) →
  ∃ d, Done parent s = Ok (s', d) ∧
    match po with
    | Some p => ∃ ch pc, d = Some ch ∧ ch ≠ closedchan ∧
        Value parent cancelCtxKey s' = Ok (Some (VCancelCtx p)) ∧
        get p s' = Some pc ∧ c_done pc = Some ch
    | None =>
        d = None ∨ d = Some closedchan ∨
        (∃ v, Value parent cancelCtxKey s' = Ok v ∧ ∀ p, v ≠ Some (VCancelCtx p)) ∨
        (∃ p pc, Value parent cancelCtxKey s' = Ok (Some (VCancelCtx p)) ∧
           get p s' = Some pc ∧ c_done pc ≠ d)
    end.
Proof.
  unfold parentCancelCtx. intros ([s1 d] & HD & H)%bind_Ok. exists d.
  case_decide as Hd.
  { injection H as <- <-. split; [done|]. naive_solver. }
  apply bind_Ok in H as (v & HV & H).
  destruct v as [[p|u]|].
  - destruct (get p s1) as [pc|] eqn:Hp; [|done]. case_decide as Hpd.
    + injection H as <- <-. split; [done|].
      destruct d as [ch|]; [|naive_solver].
      exists ch, pc. repeat split; try done. naive_solver.
    + injection H as <- <-. split; [done|]. right; right; right. eauto.
  - injection H as <- <-. split; [done|]. right; right; left.
    eexists. split; [done|]. done.
  - injection H as <- <-. split; [done|]. right; right; left.
    eexists. split; [done|]. done.
Qed.

Lemma mono_is_Some_heap s s' r :
  mono s s' → is_Some (heap s !! r) → is_Some (heap s' !! r).
Proof. intros [_ H] [x Hx]. destruct (H r x Hx) as (x' & -> & _). eauto. Qed.

Lemma parentCancelCtx_total parent s :
  wf_base s → is_Some (heap s !! parent) →
  ∃ s' po, parentCancelCtx parent s = Ok (s', po).
Proof.
  intros Hwf Hp. unfold parentCancelCtx.
  destruct (Done_total parent s Hwf Hp) as (s1 & d & HD). rewrite HD. simpl.
  case_decide; eauto.
  pose proof (Done_at_ex _ _ _ _ HD) as Hat.
  destruct (Done_at_wf (λ _, True) _ _ _ _ Hat Hwf) as [Hwf1 _].
  { split; naive_solver. }
  assert (is_Some (heap s1 !! parent)) as Hp1.
  { eapply mono_is_Some_heap; [|done]. by eapply Done_at_mono. }
  destruct (Value_total parent cancelCtxKey s1 Hwf1 Hp1) as (v & HV).
  rewrite HV. simpl. destruct v as [[p|u]|]; eauto.
  destruct (Value_fuel_cancelCtx _ _ _ _ Hwf1 HV) as [pc Hpc].
  rewrite Hpc. case_decide; eauto.
Qed.

Lemma removeChild_inv parent child s s' :
  removeChild parent child s = Ok s' →
  ∃ s1 po, parentCancelCtx parent s = Ok (s1, po) ∧
    (s' = s1 ∨
     ∃ p pc X, po = Some p ∧ get p s1 = Some pc ∧ c_children pc = Some X ∧
       s' = update p (set_children (Some (X ∖ {[child]}))) s1).
Proof.
  unfold removeChild. intros ([s1 po] & HP & H)%bind_Ok.
  exists s1, po. split; [done|].
  destruct po as [p|]; [|naive_solver].
  destruct (get p s1) as [pc|] eqn:Hp; [|done].
  destruct (c_children pc) as [X|] eqn:HX; [|naive_solver].
  injection H as <-. right. by exists p, pc, X.
Qed.

Lemma removeChild_total parent child s :
  wf_base s → is_Some (heap s !! parent) →
  ∃ s', removeChild parent child s = Ok s'.
Proof.
  intros Hwf Hp. unfold removeChild.
  destruct (parentCancelCtx_total parent s Hwf Hp) as (s1 & po & HP).
  rewrite HP. simpl. destruct po as [p|]; eauto.
  apply parentCancelCtx_inv in HP as (d & _ & ch & pc & _ & _ & _ & -> & _).
  destruct (c_children pc); eauto.
Qed.

Lemma parentCancelCtx_wf (P : ref → Prop) parent s s' po :
  wf_base s → wf_strong P s → parentCancelCtx parent s = Ok (s', po) →
  wf_base s' ∧ wf_strong P s' ∧ mono s s'.
Proof.
  intros Hwf Hs (d & HD%Done_at_ex & _)%parentCancelCtx_inv.
  destruct (Done_at_wf P _ _ _ _ HD Hwf Hs). split; [done|]. split; [done|].
  by eapply Done_at_mono.
Qed.

Lemma removeChild_wf (P : ref → Prop) parent child s s' :
  wf_base s → wf_strong P s → removeChild parent child s = Ok s' →
  wf_base s' ∧ wf_strong P s' ∧ mono s s'.
Proof.
  intros Hwf Hs (s1 & po & HP & H)%removeChild_inv.
  destruct (parentCancelCtx_wf P _ _ _ _ Hwf Hs HP) as (Hwf1 & Hs1 & Hm).
  destruct H as [->|(p & pc & X & -> & Hp & HX & ->)]; [done|].
  split; [|split].
  - eapply wf_base_update_children; [done..|]. simpl. intros k Hk.
    eapply (wb_children _ Hwf1 p pc); [done|].
    unfold children_of. rewrite HX. simpl. set_solver.
  - eapply (wf_strong_update P P); [done..|]. simpl. intros HPp He.
    rewrite (ws_children _ _ Hs1 p pc) in HX; done.
  - eapply mono_trans; [done|]. eapply mono_update; [done|].
    split; [done|]. split; [done|]. simpl. intros e He. split; [done|].
    by rewrite HX.
Qed.

(** ** The frame of a cancellation *)

Lemma timerCtx_eta t : mkTimerCtx (t_cancelCtx t) (t_timer t) (t_deadline t) = t.
Proof. by destruct t. Qed.

Lemma cancels_refl e s : cancels e s s.
Proof.
  split; try done. intros r x c Hx Hc. exists x, c.
  split; [done|]. split; [done|]. split; [|split; [|split]].
  - intros cc ->. simpl in Hc. congruence.
  - intros t ->. exists (t_timer t). simpl in Hc. simplify_eq.
    rewrite timerCtx_eta. auto.
  - done.
  - auto.
Qed.

Lemma cancels_cancelled e s s' k :
  cancels e s s' → cancelled k s → cancelled k s'.
Proof.
  intros Hc (c & (x & Hx & Hcx)%get_Some & He).
  destruct (cn_scope _ _ _ Hc k x c Hx Hcx)
    as (x' & c' & Hx' & Hc' & _ & _ & Hsame & _).
  exists c'. split; [apply get_Some; eauto|]. by rewrite Hsame.
Qed.

Lemma cancels_trans e s1 s2 s3 :
  cancels e s1 s2 → cancels e s2 s3 → cancels e s1 s3.
Proof.
  intros H12 H23. split.
  - rewrite (cn_next_ref _ _ _ H23). apply H12.
  - rewrite (cn_next_chan _ _ _ H23). apply H12.
  - rewrite (cn_now _ _ _ H23). apply H12.
  - rewrite (cn_goroutines _ _ _ H23). apply H12.
  - rewrite (cn_tasks _ _ _ H23). apply H12.
  - pose proof (cn_closed _ _ _ H12). pose proof (cn_closed _ _ _ H23).
    set_solver.
  - intros r x Hx Hc. eapply (cn_other _ _ _ H23); [|done].
    by eapply (cn_other _ _ _ H12).
  - intros r Hr. by apply (cn_none _ _ _ H23), (cn_none _ _ _ H12).
  - intros r x c Hx Hc.
    destruct (cn_scope _ _ _ H12 r x c Hx Hc)
      as (x2 & c2 & Hx2 & Hc2 & Hk2 & Ht2 & Hs2 & Hn2).
    destruct (cn_scope _ _ _ H23 r x2 c2 Hx2 Hc2)
      as (x3 & c3 & Hx3 & Hc3 & Hk3 & Ht3 & Hs3 & Hn3).
    exists x3, c3. split; [done|]. split; [done|].
    split; [|split; [|split]].
    + intros cc Hcc. eapply Hk3. by eapply Hk2.
    + intros t Ht. destruct (Ht2 t Ht) as (tm & -> & Htm).
      destruct (Ht3 _ eq_refl) as (tm' & -> & Htm'). simpl in *.
      exists tm'. split; [done|]. naive_solver.
    + intros He. rewrite Hs3; rewrite (Hs2 He); done.
    + intros He. destruct (Hn2 He) as [->|(He2 & Hd2 & Hin2 & Hch2 & Hctx2 & Hkids2)].
      * destruct (Hn3 He) as [->|?]; auto.
      * right. rewrite Hs3 by (by rewrite He2).
        repeat split; try done.
        -- by apply (cn_closed _ _ _ H23).
        -- intros k Hk. eapply cancels_cancelled; eauto.
Qed.

Lemma cancels_mono e s s' : cancels e s s' → mono s s'.
Proof.
  intros H. split; [apply H|]. intros r x Hx.
  destruct (cancelCtx_of x) as [c|] eqn:Hc.
  - destruct (cn_scope _ _ _ H r x c Hx Hc)
      as (x' & c' & Hx' & Hc' & Hk & Ht & Hs & Hn).
    exists x'. split; [done|].
    assert (evolve_c c c') as Hev.
    { destruct (c_err c) as [e0|] eqn:He.
      - rewrite Hs by done. apply evolve_c_refl.
      - destruct (Hn eq_refl) as [->|(He' & Hd' & _ & _ & Hctx & _)];
          [apply evolve_c_refl|].
        split; [done|]. split; [|by rewrite He].
        intros d Hd. rewrite Hd', Hd. done. }
    destruct x; simplify_eq/=.
    + by rewrite (Hk _ eq_refl).
    + destruct (Ht _ eq_refl) as (tm & -> & _). done.
  - exists x. split; [|apply evolve_refl]. by apply (cn_other _ _ _ H).
Qed.

Lemma cancels_live e s s' : cancels e s s' → live s' ⊆ live s.
Proof.
  intros H r (c' & (x' & Hx' & Hc')%get_Some & He')%elem_of_live.
  apply elem_of_live.
  destruct (heap s !! r) as [x|] eqn:Hx.
  - destruct (cancelCtx_of x) as [c|] eqn:Hc.
    + destruct (cn_scope _ _ _ H r x c Hx Hc)
        as (x2 & c2 & Hx2 & Hc2 & _ & _ & Hs & _).
      simplify_eq. exists c. split; [apply get_Some; eauto|].
      destruct (c_err c) as [e0|] eqn:Hec; [|done].
      rewrite Hs in He' by done. congruence.
    + rewrite (cn_other _ _ _ H r x Hx Hc) in Hx'. congruence.
  - rewrite (cn_none _ _ _ H r Hx) in Hx'. done.
Qed.

Lemma cancels_is_Some_get e s s' r :
  cancels e s s' → is_Some (get r s) → is_Some (get r s').
Proof.
  intros H%cancels_mono [c Hc].
  destruct (mono_get _ _ _ _ H Hc) as (c' & -> & _). eauto.
Qed.

Lemma cancels_update_timer e c s :
  cancels e s (update_timer c (λ _, None) s).
Proof.
  split; try done.
  - intros r x Hx Hc. apply heap_update_timer_Some.
    destruct (decide (c = r)) as [->|]; [left|by right].
    split; [done|]. exists x. split; [done|]. by destruct x.
  - intros r Hr. unfold update_timer. simpl. by apply lookup_alter_None.
  - intros r x cc Hx Hc. destruct (decide (c = r)) as [->|Hne].
    + exists (map_timer (λ _, None) x), cc. split.
      { apply heap_update_timer_Some. left. eauto. }
      split; [by rewrite cancelCtx_of_map_timer|].
      split; [|split; [|split]]; try done; try auto.
      * intros c0 ->. simpl in *. congruence.
      * intros t ->. simpl in *. simplify_eq. eauto.
    + exists x, cc. split.
      { apply heap_update_timer_Some. by right. }
      split; [done|].
      split; [|split; [|split]]; try done; try auto.
      * intros c0 ->. simpl in *. congruence.
      * intros t ->. simpl in *. simplify_eq. exists (t_timer t).
        rewrite timerCtx_eta. auto.
Qed.

(** ** Recording the cause and closing the channel *)

Lemma get_marked c e d s r :
  get r (marked c e d s) =
    if decide (c = r)
    then (λ cc, set_done (Some d) (set_err (Some e) cc)) <$> get r s
    else get r s.
Proof. unfold marked. st. apply get_update. Qed.

Lemma closed_no_alias c cc d s :
  wf_base s → get c s = Some cc → c_done cc = Some d → d ≠ closedchan →
  ∀ r x, r ≠ c → heap s !! r = Some x → chan_of x ≠ Some d.
Proof.
  intros Hwf (x0 & Hx0 & Hc0)%get_Some Hd Hne r x Hr Hx Hch.
  destruct Hr. eapply (wb_chan_owner _ Hwf); eauto.
  by rewrite (chan_of_cancelCtx _ cc).
Qed.

Lemma live_open c cc s :
  wf_base s → get c s = Some cc → c_err cc = None →
  ∀ d, c_done cc = Some d → d ∉ closed s.
Proof.
  intros Hwf Hget He d Hd Hin.
  assert (is_Some (c_err cc)) as [e He'].
  { apply (wb_err_done _ Hwf c cc Hget). eauto. }
  congruence.
Qed.

Lemma wf_base_marked c cc e s :
  wf_base s → get c s = Some cc → c_err cc = None →
  wf_base (marked c e (default closedchan (c_done cc)) s).
Proof.
  intros Hwf Hget He.
  pose proof (live_open _ _ _ Hwf Hget He) as Hopen.
  pose proof (wb_closedchan _ Hwf) as Hcc.
  set (d := default closedchan (c_done cc)).
  assert (Hdlt : (d < next_chan s)%nat).
  { subst d. destruct (c_done cc) as [d|] eqn:Hd; simpl.
    - apply get_Some in Hget as (x & Hx & Hc).
      eapply (wb_chan_alloc _ Hwf); [done|].
      by rewrite (chan_of_cancelCtx _ cc).
    - by apply (wb_closed_alloc _ Hwf). }
  assert (Hdne : d ≠ closedchan → c_done cc = Some d).
  { subst d. by destruct (c_done cc). }
  eapply wf_base_ext; last first.
  - apply (wf_base_update c cc
             (λ cc, set_done (Some d) (set_err (Some e) cc)) s
             ({[d]} ∪ closed s) (next_chan s)); try done.
    + set_solver.
    + intros d' Hd' Hnin. assert (d' = d) as -> by set_solver.
      assert (d ≠ closedchan) as Hne by (intros Heq; by rewrite Heq in Hnin).
      split; [done|]. apply (closed_no_alias c cc d s); auto.
    + intros k Hk. by eapply wb_children.
    + simpl. intros d' [= <-]. split; [done|]. intros Hne.
      apply (closed_no_alias c cc d s); auto.
    + simpl. split; [|eauto]. intros _. exists d. split; [done|set_solver].
  - done.
  - done.
  - done.
  - done.
  - done.
Qed.

Lemma wf_strong_marked (P : ref → Prop) c cc e d s :
  wf_strong P s → get c s = Some cc →
  wf_strong (λ r, P r ∨ r = c) (marked c e d s).
Proof.
  intros Hs Hget. eapply wf_strong_ext; last first.
  - eapply (wf_strong_update P); [done..| |]; naive_solver.
  - done.
Qed.

Lemma live_marked c cc e d s :
  get c s = Some cc → c_err cc = None →
  live (marked c e d s) ⊂ live s.
Proof.
  intros Hget He. apply strict_spec_alt. split.
  - intros r (c' & Hc' & He')%elem_of_live. apply elem_of_live.
    rewrite get_marked in Hc'. case_decide; [|eauto].
    subst. rewrite Hget in Hc'. simpl in Hc'. by simplify_eq.
  - intros Heq. assert (c ∈ live s) as Hin by (apply elem_of_live; eauto).
    rewrite <- Heq in Hin. apply elem_of_live in Hin as (c' & Hc' & He').
    rewrite get_marked, decide_True, Hget in Hc' by done.
    simpl in Hc'. by simplify_eq.
Qed.

Lemma cancelled_update c f s k :
  (∀ cc, c_err (f cc) = c_err cc) → cancelled k s → cancelled k (update c f s).
Proof.
  intros Hf (cc & Hget & He). unfold cancelled. rewrite get_update.
  case_decide; [|eauto]. subst. rewrite Hget. simpl.
  exists (f cc). by rewrite Hf.
Qed.

(** The fan-out is over: the children are forgotten. *)
Lemma cancels_finish c cc e s s2 :
  get c s = Some cc → c_err cc = None →
  cancels e (marked c e (default closedchan (c_done cc)) s) s2 →
  (∀ k, k ∈ children_of cc → cancelled k s2) →
  cancels e s (update c (set_children None) s2).
Proof.
  intros Hget He H Hkids.
  set (d := default closedchan (c_done cc)) in *.
  set (fm := λ cc, set_done (Some d) (set_err (Some e) cc)).
  assert (Hm : ∀ r x, heap s !! r = Some x →
            heap (marked c e d s) !! r =
              Some (if decide (c = r) then map_cancelCtx fm x else x)).
  { intros r x Hx. unfold marked. st. unfold update. simpl.
    rewrite lookup_alter. case_decide; subst; by rewrite ?Hx. }
  pose proof Hget as (x0 & Hx0 & Hc0)%get_Some.
  split; st.
  - apply H.
  - apply H.
  - apply H.
  - apply H.
  - apply H.
  - etrans; [|apply (cn_closed _ _ _ H)]. unfold marked. st. set_solver.
  - intros r x Hx Hc. apply heap_update_Some.
    assert (c ≠ r) as Hne by (intros ->; simplify_eq).
    right. split; [done|]. eapply (cn_other _ _ _ H); [|done].
    rewrite (Hm r x Hx). by rewrite decide_False.
  - intros r Hr. apply heap_update_None. apply (cn_none _ _ _ H).
    unfold marked. st. by apply heap_update_None.
  - intros r x c0 Hx Hc. destruct (decide (c = r)) as [->|Hne].
    + simplify_eq.
      pose proof (Hm r x0 Hx0) as Hx1. rewrite decide_True in Hx1 by done.
      destruct (cn_scope _ _ _ H r _ (fm cc) Hx1)
        as (x2 & c2 & Hx2 & Hc2 & Hk2 & Ht2 & Hs2 & _).
      { by rewrite cancelCtx_of_map, Hc0. }
      rewrite Hs2 in * by (simpl; eauto).
      exists (map_cancelCtx (set_children None) x2), (set_children None (fm cc)).
      split. { apply heap_update_Some. left. eauto. }
      split. { by rewrite cancelCtx_of_map, Hc2. }
      split; [|split; [|split]].
      * intros c1 ->. simpl in *. by rewrite (Hk2 _ eq_refl).
      * intros t ->. simpl in *.
        destruct (Ht2 _ eq_refl) as (tm & -> & Htm). simpl in *. eauto.
      * intros [e0 He0]. congruence.
      * intros _. right. simpl. repeat split; try done.
        -- apply (cn_closed _ _ _ H). unfold marked. st. set_solver.
        -- intros k Hk. apply cancelled_update; auto.
    + pose proof (Hm r x Hx) as Hx1. rewrite decide_False in Hx1 by done.
      destruct (cn_scope _ _ _ H r x c0 Hx1 Hc)
        as (x2 & c2 & Hx2 & Hc2 & Hk2 & Ht2 & Hs2 & Hn2).
      exists x2, c2. split. { apply heap_update_Some. by right. }
      split; [done|]. split; [done|]. split; [done|]. split; [done|].
      intros He0. destruct (Hn2 He0) as [->|(? & ? & ? & ? & ? & Hk)]; [by left|].
      right. repeat split; try done.
      intros k Hin. apply cancelled_update; auto.
Qed.

(** ** [cancel] returns, keeps the store well formed, and cancels *)

Lemma cancel_fuel_S n c b err s :
  cancel_fuel (S n) c b err s =
    match heap s !! c with
    | Some (CancelCtx _) => cancelCtx_cancel_with (cancel_fuel n) c b err s
    | Some (TimerCtx _) => timerCtx_cancel_with (cancel_fuel n) c b err s
    | _ => Panic
    end.
Proof. done. Qed.

Lemma cancelCtx_cancel_with_live rec c cc b e s :
  wf_base s → get c s = Some cc → c_err cc = None →
  cancelCtx_cancel_with rec c b (Some e) s =
    s2 ← foldM (λ k, rec k false (Some e)) (order (children_of cc))
           (marked c e (default closedchan (c_done cc)) s);
    if b then removeChild (c_Context cc) c (update c (set_children None) s2)
    else Ok (update c (set_children None) s2).
Proof.
  intros Hwf Hget He. unfold cancelCtx_cancel_with. rewrite Hget, He.
  rewrite (mark_Ok c cc e s); [done|apply Hwf|done|].
  by eapply live_open.
Qed.

Lemma cancelCtx_cancel_with_dead rec c cc b e s :
  get c s = Some cc → is_Some (c_err cc) →
  cancelCtx_cancel_with rec c b (Some e) s = Ok s.
Proof.
  intros Hget [e0 He]. unfold cancelCtx_cancel_with. by rewrite Hget, He.
Qed.

Lemma foldM_cancel (P' : ref → Prop) (rec : ref → state → res state) e n l s :
  (∀ k s, wf_base s → wf_strong P' s → is_Some (get k s) →
     (size (live s) < n)%nat →
     ∃ s', rec k s = Ok s' ∧ wf_base s' ∧ wf_strong P' s' ∧
           cancels e s s' ∧ cancelled k s') →
  wf_base s → wf_strong P' s → (∀ k, k ∈ l → is_Some (get k s)) →
  (size (live s) < n)%nat →
  ∃ s', foldM rec l s = Ok s' ∧ wf_base s' ∧ wf_strong P' s' ∧
        cancels e s s' ∧ ∀ k, k ∈ l → cancelled k s'.
Proof.
  intros Hrec. revert s. induction l as [|k l IH]; intros s Hwf Hs Hl Hn.
  - exists s. simpl. split; [done|]. split; [done|]. split; [done|].
    split; [apply cancels_refl|]. intros k Hk. by apply elem_of_nil in Hk.
  - destruct (Hrec k s Hwf Hs) as (s1 & Hk & Hwf1 & Hs1 & Hc1 & Hd1); [|done|].
    { apply Hl. left. }
    destruct (IH s1 Hwf1 Hs1) as (s2 & Hl2 & Hwf2 & Hs2 & Hc2 & Hd2).
    { intros k' Hk'. eapply cancels_is_Some_get; [done|]. apply Hl. by right. }
    { pose proof (subseteq_size _ _ (cancels_live _ _ _ Hc1)). lia. }
    exists s2. simpl. rewrite Hk. simpl. split; [done|].
    split; [done|]. split; [done|]. split; [by eapply cancels_trans|].
    intros k' [->|Hk']%elem_of_cons; [|auto].
    by eapply cancels_cancelled.
Qed.

Lemma timer_of_update_timer_None c s :
  heap (update_timer c (λ _, None) s) !! c ≫= timer_of = None.
Proof.
  unfold update_timer. simpl. rewrite lookup_alter, decide_True by done.
  destruct (heap s !! c) as [x|]; [|done]. by destruct x.
Qed.

Lemma cancel_fuel_false n (P : ref → Prop) c e s :
  wf_base s → wf_strong P s → is_Some (get c s) → (size (live s) < n)%nat →
  ∃ s', cancel_fuel n c false (Some e) s = Ok s' ∧ wf_base s' ∧
        wf_strong P s' ∧ cancels e s s' ∧ cancelled c s'.
Proof.
  revert P c s. induction n as [|n IH]; intros P c s Hwf Hs [cc Hget] Hn; [lia|].
  pose proof Hget as (x & Hx & Hc)%get_Some.
  destruct (c_err cc) as [e0|] eqn:He.
  { (* already cancelled *)
    assert (cancelled c s) as Hcd by (exists cc; eauto).
    destruct x as [|c0|t| |]; try done; simpl in Hc; injection Hc as Hc;
      subst cc; rewrite cancel_fuel_S, Hx.
    - rewrite (cancelCtx_cancel_with_dead _ _ c0) by eauto.
      exists s. auto using cancels_refl.
    - unfold timerCtx_cancel_with.
      rewrite (cancelCtx_cancel_with_dead _ _ (t_cancelCtx t)) by eauto.
      simpl. eexists. split; [done|].
      split; [by apply wf_base_update_timer|].
      split; [apply wf_strong_update_timer; [done|by intros ? ? ? []]|].
      split; [apply cancels_update_timer|].
      eapply (cancels_cancelled e); [apply cancels_update_timer|done]. }
  set (P' := λ r, P r ∨ r = c).
  set (d := default closedchan (c_done cc)).
  destruct (foldM_cancel P' (λ k, cancel_fuel n k false (Some e)) e n
              (order (children_of cc)) (marked c e d s))
    as (s2 & Hfold & Hwf2 & Hs2 & Hc2 & Hkids).
  { intros k s0 ? ? ? ?. by apply IH. }
  { by apply wf_base_marked. }
  { by eapply wf_strong_marked. }
  { intros k Hk%elem_of_order. rewrite get_marked.
    pose proof (wb_children _ Hwf c cc k Hget Hk) as Hsome.
    case_decide; [|done]. by rewrite fmap_is_Some. }
  { pose proof (subset_size _ _ (live_marked c cc e d s Hget He)). lia. }
  assert (Hget2 : ∃ c2, get c s2 = Some c2).
  { eapply cancels_is_Some_get; [done|]. rewrite get_marked, decide_True, Hget by done.
    simpl. eauto. }
  destruct Hget2 as [c2 Hget2].
  set (s3 := update c (set_children None) s2).
  assert (Hwf3 : wf_base s3).
  { eapply wf_base_update_children; [done..|]. simpl. set_solver. }
  assert (Hs3 : wf_strong P' s3).
  { eapply (wf_strong_update P' P'); [done..|]. intros []. by right. }
  assert (Hc3 : cancels e s s3).
  { eapply cancels_finish; [done..|]. intros k Hk. apply Hkids.
    by apply elem_of_order. }
  assert (Hkids3 : ∀ c3, get c s3 = Some c3 → c_children c3 = None).
  { intros c3. unfold s3. rewrite get_update_eq, Hget2. simpl. by intros [= <-]. }
  assert (Hcd3 : cancelled c s3).
  { apply cancelled_update; [done|]. eapply cancels_cancelled; [done|].
    exists (set_done (Some d) (set_err (Some e) cc)).
    rewrite get_marked, decide_True, Hget by done. simpl. eauto. }
  destruct x as [|c0|t| |]; try done; simpl in Hc; injection Hc as Hc;
    subst cc; rewrite cancel_fuel_S, Hx.
  - rewrite (cancelCtx_cancel_with_live _ _ c0) by done.
    fold d. rewrite Hfold. simpl. exists s3. split; [done|].
    split; [done|]. split; [|done].
    apply (wf_strong_shrink P c); [done|auto|].
    destruct (cn_scope _ _ _ Hc3 c _ c0 Hx eq_refl)
      as (x3 & c3 & Hx3 & _ & Hk3 & _).
    rewrite Hx3. by rewrite (Hk3 _ eq_refl).
  - unfold timerCtx_cancel_with.
    rewrite (cancelCtx_cancel_with_live _ _ (t_cancelCtx t)) by done.
    fold d. rewrite Hfold. simpl. eexists. split; [done|].
    split; [by apply wf_base_update_timer|].
    split; [|split].
    + apply (wf_strong_shrink P c).
      * apply wf_strong_update_timer; [done|by intros ? ? ? []].
      * intros c4. st. auto.
      * apply timer_of_update_timer_None.
    + eapply cancels_trans; [done|apply cancels_update_timer].
    + eapply (cancels_cancelled e); [apply cancels_update_timer|done].
Qed.

Lemma quiet_refl s : quiet s s.
Proof. by split. Qed.

Lemma quiet_trans s1 s2 s3 : quiet s1 s2 → quiet s2 s3 → quiet s1 s3.
Proof. intros [] []. split; congruence. Qed.

Lemma cancels_quiet e s s' : cancels e s s' → quiet s s'.
Proof. intros []. by split. Qed.

Lemma Done_at_quiet c s s' d : Done_at s c s' d → quiet s s'.
Proof. induction 1; auto using quiet_refl. by split. Qed.

Lemma removeChild_quiet parent child s s' :
  removeChild parent child s = Ok s' → quiet s s'.
Proof.
  intros (s1 & po & (d & HD%Done_at_ex%Done_at_quiet & _)%parentCancelCtx_inv & H)%removeChild_inv.
  destruct H as [->|(p & pc & X & -> & Hp & HX & ->)]; [done|].
  eapply quiet_trans; [done|]. by split.
Qed.

Lemma mono_update_timer_both c f s s' :
  mono s s' → mono (update_timer c f s) (update_timer c f s').
Proof.
  intros [Hc H]. split; [done|]. intros r x.
  intros [[-> (x0 & Hx & ->)]|[? Hx]]%heap_update_timer_Some.
  - destruct (H r x0 Hx) as (x' & Hx' & He).
    exists (map_timer f x'). split.
    + apply heap_update_timer_Some. left. eauto.
    + destruct x0, x'; simpl in *; try done.
  - destruct (H r x Hx) as (x' & Hx' & He). exists x'. split; [|done].
    apply heap_update_timer_Some. by right.
Qed.

Lemma size_live s : (size (live s) ≤ size (heap s))%nat.
Proof. unfold live. rewrite size_dom. apply map_size_filter. Qed.

(** The scope behind [c] was live; [cancelCtx.cancel] with
    [removeFromParent = false] cancels it. *)
Lemma cancel_core n (P : ref → Prop) c cc e s :
  wf_base s → wf_strong P s → get c s = Some cc → c_err cc = None →
  (size (live s) ≤ n)%nat →
  ∃ s2, foldM (λ k, cancel_fuel n k false (Some e)) (order (children_of cc))
          (marked c e (default closedchan (c_done cc)) s) = Ok s2 ∧
    wf_base (update c (set_children None) s2) ∧
    wf_strong (λ r, P r ∨ r = c) (update c (set_children None) s2) ∧
    cancels e s (update c (set_children None) s2) ∧
    cancelled c (update c (set_children None) s2) ∧
    (∀ c3, get c (update c (set_children None) s2) = Some c3 →
       c_children c3 = None).
Proof.
  intros Hwf Hs Hget He Hn.
  set (P' := λ r, P r ∨ r = c).
  set (d := default closedchan (c_done cc)).
  destruct (foldM_cancel P' (λ k, cancel_fuel n k false (Some e)) e n
              (order (children_of cc)) (marked c e d s))
    as (s2 & Hfold & Hwf2 & Hs2 & Hc2 & Hkids).
  { intros k s0 ? ? ? ?. by apply cancel_fuel_false. }
  { by apply wf_base_marked. }
  { by eapply wf_strong_marked. }
  { intros k Hk%elem_of_order. rewrite get_marked.
    pose proof (wb_children _ Hwf c cc k Hget Hk) as Hsome.
    case_decide; [|done]. by rewrite fmap_is_Some. }
  { pose proof (subset_size _ _ (live_marked c cc e d s Hget He)). lia. }
  assert (Hget2 : ∃ c2, get c s2 = Some c2).
  { eapply cancels_is_Some_get; [done|].
    rewrite get_marked, decide_True, Hget by done. simpl. eauto. }
  destruct Hget2 as [c2 Hget2].
  exists s2. split; [done|]. split; [|split; [|split; [|split]]].
  - eapply wf_base_update_children; [done..|]. simpl. set_solver.
  - eapply (wf_strong_update P' P'); [done..|]. intros []. by right.
  - eapply cancels_finish; [done..|]. intros k Hk. apply Hkids.
    by apply elem_of_order.
  - apply cancelled_update; [done|]. eapply cancels_cancelled; [done|].
    exists (set_done (Some d) (set_err (Some e) cc)).
    rewrite get_marked, decide_True, Hget by done. simpl. eauto.
  - intros c3. rewrite get_update_eq, Hget2. simpl. by intros [= <-].
Qed.

Lemma mono_kind_CancelCtx s s' c cc :
  mono s s' → heap s !! c = Some (CancelCtx cc) →
  heap s' !! c ≫= timer_of = None.
Proof.
  intros [_ H] Hx. destruct (H c _ Hx) as (x' & -> & He).
  by destruct x'.
Qed.

Lemma cancel_fuel_any n (P : ref → Prop) c b e s :
  wf_base s → wf_strong P s → is_Some (get c s) → (size (live s) < n)%nat →
  ∃ s1 s', cancel_fuel n c false (Some e) s = Ok s1 ∧
           cancel_fuel n c b (Some e) s = Ok s' ∧
           wf_base s' ∧ wf_strong P s' ∧
           cancels e s s1 ∧ cancelled c s1 ∧ mono s1 s' ∧ quiet s1 s'.
Proof.
  intros Hwf Hs Hsome Hn.
  destruct (cancel_fuel_false n P c e s Hwf Hs Hsome Hn)
    as (s1 & H1 & Hwf1 & Hs1 & Hc1 & Hd1).
  destruct b.
  2:{ exists s1, s1. do 7 (split; [by auto using mono_refl, quiet_refl|]). apply quiet_refl. }
  exists s1. destruct n as [|n]; [lia|]. destruct Hsome as [cc Hget].
  pose proof Hget as (x & Hx & Hc)%get_Some.
  pose proof H1 as H1'. rewrite cancel_fuel_S, Hx in H1.
  destruct (c_err cc) as [e0|] eqn:He.
  { destruct x as [|c0|t| |]; try done; simpl in Hc; injection Hc as Hc;
      subst cc.
    - rewrite (cancelCtx_cancel_with_dead _ _ c0) in H1 by eauto.
      injection H1 as <-. exists s. split; [done|].
      rewrite cancel_fuel_S, Hx, (cancelCtx_cancel_with_dead _ _ c0) by eauto.
      do 6 (split; [by auto using mono_refl, quiet_refl|]). apply quiet_refl.
    - unfold timerCtx_cancel_with in H1.
      rewrite (cancelCtx_cancel_with_dead _ _ (t_cancelCtx t)) in H1 by eauto.
      simpl in H1. injection H1 as <-. eexists. split; [done|].
      rewrite cancel_fuel_S, Hx. unfold timerCtx_cancel_with.
      rewrite (cancelCtx_cancel_with_dead _ _ (t_cancelCtx t)) by eauto.
      simpl. do 6 (split; [by auto using mono_refl, quiet_refl|]). apply quiet_refl. }
  destruct (cancel_core n P c cc e s) as (s2 & Hfold & Hwf3 & Hs3 & Hc3 & Hd3 & Hk3);
    [done..|lia|].
  set (s3 := update c (set_children None) s2) in *.
  assert (is_Some (heap s3 !! c_Context cc)) as Hpar.
  { eapply mono_is_Some_heap; [by eapply cancels_mono|].
    eapply (wb_parent _ Hwf c x); [done|]. by destruct x; simplify_eq/=. }
  destruct (removeChild_total (c_Context cc) c s3 Hwf3 Hpar) as [s4 Hrm].
  destruct (removeChild_wf _ _ _ _ _ Hwf3 Hs3 Hrm) as (Hwf4 & Hs4 & Hm4).
  pose proof (removeChild_quiet _ _ _ _ Hrm) as Hq4.
  assert (Hk4 : ∀ c4, get c s4 = Some c4 → is_Some (c_err c4) →
            c_children c4 = None).
  { intros c4 Hc4 _. destruct Hd3 as (c3 & Hg3 & [e3 He3]).
    destruct (mono_get _ _ _ _ Hm4 Hg3) as (c4' & Hg4 & _ & _ & Hev).
    simplify_eq. destruct (Hev e3 He3) as [_ Hnone]. apply Hnone. auto. }
  destruct x as [|c0|t| |]; try done; simpl in Hc; injection Hc as Hc;
    subst cc.
  - rewrite (cancelCtx_cancel_with_live _ _ c0) in H1 by done.
    rewrite Hfold in H1. simpl in H1. injection H1 as <-.
    exists s4. split; [done|].
    rewrite cancel_fuel_S, Hx, (cancelCtx_cancel_with_live _ _ c0), Hfold by done.
    simpl. fold s3. split; [done|]. split; [done|].
    split; [|auto].
    apply (wf_strong_shrink P c); [done..|].
    destruct (cn_scope _ _ _ Hc3 c _ c0 Hx eq_refl)
      as (x3 & c3 & Hx3 & _ & Hkind & _).
    rewrite (Hkind _ eq_refl) in Hx3.
    by eapply mono_kind_CancelCtx.
  - unfold timerCtx_cancel_with in H1.
    rewrite (cancelCtx_cancel_with_live _ _ (t_cancelCtx t)) in H1 by done.
    rewrite Hfold in H1. simpl in H1. injection H1 as <-.
    eexists. split; [done|]. rewrite cancel_fuel_S, Hx.
    unfold timerCtx_cancel_with.
    rewrite (cancelCtx_cancel_with_live _ _ (t_cancelCtx t)), Hfold by done.
    simpl. fold s3. rewrite Hrm. simpl.
    split; [done|]. split; [by apply wf_base_update_timer|].
    split; [|split; [|split; [|split]]].
    + apply (wf_strong_shrink P c).
      * apply wf_strong_update_timer; [done|by intros ? ? ? []].
      * intros c4. st. auto.
      * apply timer_of_update_timer_None.
    + eapply cancels_trans; [done|apply cancels_update_timer].
    + eapply (cancels_cancelled e); [apply cancels_update_timer|done].
    + by apply mono_update_timer_both.
    + destruct Hq4. by split.
Qed.

Lemma cancel_spec (P : ref → Prop) c b e s :
  wf_base s → wf_strong P s → is_Some (get c s) →
  ∃ s1 s', cancel c false (Some e) s = Ok s1 ∧
           cancel c b (Some e) s = Ok s' ∧
           wf_base s' ∧ wf_strong P s' ∧
           cancels e s s1 ∧ cancelled c s1 ∧ mono s1 s' ∧ quiet s1 s'.
Proof.
  intros Hwf Hs Hc. apply cancel_fuel_any; [done..|].
  pose proof (size_live s). lia.
Qed.

Lemma cancel_Ok_inv c b err s s' :
  cancel c b err s = Ok s' → is_Some (get c s) ∧ is_Some err.
Proof.
  unfold cancel. rewrite cancel_fuel_S. unfold get.
  destruct (heap s !! c) as [[| | | |]|] eqn:Hx; try done; simpl.
  - unfold cancelCtx_cancel_with. destruct err; [eauto|done].
  - unfold timerCtx_cancel_with, cancelCtx_cancel_with.
    destruct err; [eauto|done].
Qed.

(** Whatever the flag, a returning [cancel] keeps the store well formed
    and undoes nothing. *)
Lemma cancel_wf (P : ref → Prop) c b err s s' :
  wf_base s → wf_strong P s → cancel c b err s = Ok s' →
  wf_base s' ∧ wf_strong P s' ∧ mono s s' ∧ quiet s s' ∧ cancelled c s'.
Proof.
  intros Hwf Hs H. destruct (cancel_Ok_inv _ _ _ _ _ H) as [Hc [e ->]].
  destruct (cancel_spec P c b e s Hwf Hs Hc)
    as (s1 & s2 & _ & H2 & Hwf2 & Hs2 & Hc1 & Hd1 & Hm & Hq).
  rewrite H in H2. injection H2 as <-.
  split; [done|]. split; [done|].
  split; [eapply mono_trans; [by eapply cancels_mono|done]|].
  split; [eapply quiet_trans; [by eapply cancels_quiet|done]|].
  by eapply mono_cancelled.
Qed.

(** ** More fuel changes nothing *)

Lemma Done_fuel_mono n m c s r :
  Done_fuel n c s = Ok r → (n ≤ m)%nat → Done_fuel m c s = Ok r.
Proof.
  revert m c. induction n as [|n IH]; intros m c; [done|].
  destruct m as [|m]; [lia|]. simpl.
  destruct (heap s !! c) as [[| | |p k v|]|]; try done.
  intros. apply IH; [done|lia].
Qed.

Lemma Err_fuel_mono n m c s r :
  Err_fuel n c s = Ok r → (n ≤ m)%nat → Err_fuel m c s = Ok r.
Proof.
  revert m c. induction n as [|n IH]; intros m c; [done|].
  destruct m as [|m]; [lia|]. simpl.
  destruct (heap s !! c) as [[| | |p k v|]|]; try done.
  intros. apply IH; [done|lia].
Qed.

Lemma Value_fuel_mono n m c k s r :
  Value_fuel n c k s = Ok r → (n ≤ m)%nat → Value_fuel m c k s = Ok r.
Proof.
  revert m c. induction n as [|n IH]; intros m c; [done|].
  destruct m as [|m]; [lia|]. simpl.
  destruct (heap s !! c) as [[|cc|t|p k' v|f]|]; try done.
  - case_decide; [done|]. intros. apply IH; [done|lia].
  - case_decide; [done|]. intros. apply IH; [done|lia].
  - case_decide; [done|]. intros. apply IH; [done|lia].
  - destruct (f_inner f); [|done]. intros. apply IH; [done|lia].
Qed.

Lemma Deadline_fuel_mono n m c s r :
  Deadline_fuel n c s = Ok r → (n ≤ m)%nat → Deadline_fuel m c s = Ok r.
Proof.
  revert m c. induction n as [|n IH]; intros m c; [done|].
  destruct m as [|m]; [lia|]. simpl.
  destruct (heap s !! c) as [[|cc|t|p k' v|f]|]; try done.
  - intros. apply IH; [done|lia].
  - intros. apply IH; [done|lia].
Qed.

(** One step along the parent chain. *)
Lemma Err_ValueCtx c p k v s :
  wf_base s → heap s !! c = Some (ValueCtx p k v) → Err c s = Err p s.
Proof.
  intros Hwf Hx. destruct (wb_parent _ Hwf c _ p Hx eq_refl) as [Hlt Hp].
  destruct (Err_total p s Hwf Hp) as [e He]. rewrite He.
  unfold Err. simpl. rewrite Hx.
  eapply Err_fuel_mono; [done|lia].
Qed.

Lemma Err_get c cc s : get c s = Some cc → Err c s = Ok (c_err cc).
Proof.
  intros Hget. pose proof Hget as (x & Hx & Hc)%get_Some.
  unfold Err. simpl. rewrite Hx.
  destruct x; try done; unfold cancelCtx_Err; by rewrite Hget.
Qed.

(** The contract of [Context]: once [Done] is closed, [Err] is not nil. *)
Lemma Done_at_Err c s s' d :
  Done_at s c s' (Some d) → wf_base s → d ∈ closed s' →
  s' = s ∧ ∃ e, Err c s = Ok (Some e).
Proof.
  intros H. remember (Some d) as od eqn:Hod. revert d Hod.
  induction H as [c Hx|c f Hx|c cc d' Hget Hd|c cc Hget Hd|c p k v s' od Hx H IH];
    intros d Hod Hwf Hin; simplify_eq.
  - split; [done|].
    destruct (wb_foreign _ Hwf c f d Hx Hod) as [_ Hiff].
    apply Hiff in Hin as [e He]. exists e. unfold Err. simpl.
    rewrite Hx. by rewrite He.
  - split; [done|].
    assert (is_Some (c_err cc)) as [e He].
    { apply (wb_err_done _ Hwf c cc Hget). eauto. }
    exists e. by rewrite (Err_get c cc), He.
  - unfold alloc_done in Hin. st.
    apply (wb_closed_alloc _ Hwf) in Hin. lia.
  - destruct (IH d eq_refl Hwf Hin) as [-> [e He]]. split; [done|].
    exists e. by rewrite (Err_ValueCtx c p k v).
Qed.

(** ** [propagateCancel] *)

Lemma wf_base_set_tasks l s :
  wf_base s →
  (∀ t, t ∈ l → is_Some (heap s !! task_parent t) ∧ is_Some (get (task_child t) s)) →
  wf_base (set_tasks l s).
Proof. intros [] Hl. by split. Qed.

Lemma propagateCancel_inv parent child s s' :
  propagateCancel parent child s = Ok s' →
  ∃ s1 d, Done parent s = Ok (s1, d) ∧
    ((d = None ∧ s' = s1) ∨
     (∃ ch e, d = Some ch ∧ ch ∈ closed s1 ∧ Err parent s1 = Ok e ∧
        cancel child false e s1 = Ok s') ∨
     (∃ ch s2 po, d = Some ch ∧ (ch ∉ closed s1) ∧
        parentCancelCtx parent s1 = Ok (s2, po) ∧
        match po with
        | Some p => ∃ pc, get p s2 = Some pc ∧
            match c_err pc with
            | Some e => cancel child false (Some e) s2 = Ok s'
            | None =>
              s' = update p (set_children (Some ({[child]} ∪ children_of pc))) s2
            end
        | None =>
          s' = spawn (WatchStart parent child)
                 (set_goroutines (wrap32 (goroutines s2 + 1)) s2)
        end)).
Proof.
  unfold propagateCancel. intros ([s1 d] & HD & H)%bind_Ok.
  exists s1, d. split; [done|].
  destruct d as [ch|]; [|left; by injection H as <-].
  right. case_decide as Hch.
  - left. apply bind_Ok in H as (e & He & H). by exists ch, e.
  - right. apply bind_Ok in H as ([s2 po] & HP & H).
    exists ch, s2, po. split; [done|]. split; [done|]. split; [done|].
    destruct po as [p|]; [|by injection H as <-].
    destruct (get p s2) as [pc|]; [|done]. exists pc. split; [done|].
    destruct (c_err pc); [done|]. by injection H as <-.
Qed.

Lemma mono_is_Some_get s s' r :
  mono s s' → is_Some (get r s) → is_Some (get r s').
Proof. intros H [c Hc]. destruct (mono_get _ _ _ _ H Hc) as (c' & -> & _). eauto. Qed.

Lemma get_is_Some_heap r s : is_Some (get r s) → is_Some (heap s !! r).
Proof. intros [c (x & -> & _)%get_Some]. eauto. Qed.

Lemma Done_at_is_Some c s s' d : Done_at s c s' d → is_Some (heap s !! c).
Proof. destruct 1; eauto using get_is_Some_heap. Qed.

Lemma propagateCancel_wf (P : ref → Prop) parent child s s' :
  wf_base s → wf_strong P s → is_Some (get child s) →
  propagateCancel parent child s = Ok s' →
  wf_base s' ∧ wf_strong P s' ∧ mono s s' ∧
  next_ref s' = next_ref s ∧ now s' = now s.
Proof.
  intros Hwf Hs Hchild (s1 & d & HD & H)%propagateCancel_inv.
  pose proof (Done_at_ex _ _ _ _ HD) as Hat.
  destruct (Done_at_wf P _ _ _ _ Hat Hwf Hs) as [Hwf1 Hs1].
  pose proof (Done_at_mono _ _ _ _ Hat) as Hm1.
  pose proof (Done_at_quiet _ _ _ _ Hat) as Hq1.
  destruct H as [[-> ->]|[(ch & e & -> & Hch & He & Hc)|
                          (ch & s2 & po & -> & Hch & HP & H)]].
  - split; [done|]. split; [done|]. split; [done|]. by destruct Hq1.
  - destruct (cancel_wf P _ _ _ _ _ Hwf1 Hs1 Hc) as (? & ? & Hm & Hq & _).
    split; [done|]. split; [done|]. split; [by eapply mono_trans|].
    destruct Hq1, Hq. split; congruence.
  - destruct (parentCancelCtx_wf P _ _ _ _ Hwf1 Hs1 HP) as (Hwf2 & Hs2 & Hm2).
    pose proof HP as (d2 & HD2%Done_at_ex%Done_at_quiet & _)%parentCancelCtx_inv.
    assert (mono s s2) as Hm by (by eapply mono_trans).
    destruct po as [p|].
    + destruct H as (pc & Hp & H). destruct (c_err pc) as [e|] eqn:He.
      * destruct (cancel_wf P _ _ _ _ _ Hwf2 Hs2 H) as (? & ? & Hm' & Hq & _).
        split; [done|]. split; [done|]. split; [by eapply mono_trans|].
        destruct Hq1, HD2, Hq. split; congruence.
      * subst s'. split; [|split; [|split]].
        -- eapply wf_base_update_children; [done..|]. simpl.
           intros k [->%elem_of_singleton|Hk]%elem_of_union.
           ++ by eapply mono_is_Some_get.
           ++ by eapply wb_children.
        -- eapply (wf_strong_update P P); [done..|]. simpl. rewrite He.
           by intros _ [].
        -- eapply mono_trans; [done|]. eapply mono_update; [done|].
           split; [done|]. split; [done|]. simpl. rewrite He. done.
        -- st. destruct Hq1, HD2. split; congruence.
    + subst s'. split; [|split; [|split]].
      * apply wf_base_set_tasks.
        { eapply wf_base_ext; [..|exact Hwf2]; done. }
        intros t [Ht| ->%list_elem_of_singleton]%elem_of_app; st.
        -- by apply (wb_tasks _ Hwf2).
        -- simpl. split.
           ++ eapply mono_is_Some_heap; [done|]. by eapply Done_at_is_Some.
           ++ by eapply mono_is_Some_get.
      * eapply wf_strong_ext; [|done]. done.
      * eapply mono_ext; [| |exact Hm]; done.
      * unfold spawn. st. destruct Hq1, HD2. split; congruence.
Qed.

(** ** Derivation *)

Lemma WithCancel_inv parent s s' c f :
  WithCancel (Some parent) s = Ok (s', c, f) →
  c = next_ref s ∧ f = mkCancelFunc c true ∧
  propagateCancel parent c (alloc (CancelCtx (newCancelCtx parent)) s).1 = Ok s'.
Proof.
  unfold WithCancel. simpl. intros (s1 & H & [= <- <- <-])%bind_Ok. done.
Qed.

Lemma wf_alloc_scope (P : ref → Prop) x parent s :
  wf_base s → wf_strong P s → is_Some (heap s !! parent) →
  x = CancelCtx (newCancelCtx parent) ∨
  (∃ d, x = TimerCtx (mkTimerCtx (newCancelCtx parent) None d)) →
  wf_base (alloc x s).1 ∧ wf_strong P (alloc x s).1 ∧
  get (next_ref s) (alloc x s).1 = Some (newCancelCtx parent).
Proof.
  intros Hwf Hs Hp Hx. split; [|split].
  - rewrite <- (set_next_chan_id (alloc x s).1). st.
    apply wf_base_alloc; try done.
    + intros p. destruct Hx as [->|[d ->]]; simpl; by intros [= <-].
    + intros p k v. by destruct Hx as [->|[d ->]].
    + intros c. destruct Hx as [->|[d ->]]; simpl; by intros [= <-].
    + intros f. by destruct Hx as [->|[d ->]].
    + intros d. by destruct Hx as [->|[d' ->]].
  - apply wf_strong_alloc; [done..|].
    intros c. destruct Hx as [->|[d ->]]; simpl; by intros [= <-].
  - rewrite get_alloc, decide_True by done.
    by destruct Hx as [->|[d ->]].
Qed.

Lemma WithCancel_wf (P : ref → Prop) parent s s' c f :
  wf_base s → wf_strong P s → is_Some (heap s !! parent) →
  WithCancel (Some parent) s = Ok (s', c, f) →
  wf_base s' ∧ wf_strong P s' ∧ mono s s'.
Proof.
  intros Hwf Hs Hp (-> & -> & H)%WithCancel_inv.
  destruct (wf_alloc_scope P (CancelCtx (newCancelCtx parent)) parent s)
    as (Hwf0 & Hs0 & Hget); auto.
  destruct (propagateCancel_wf P _ _ _ _ Hwf0 Hs0 (mk_is_Some _ _ Hget) H)
    as (? & ? & Hm & _).
  split; [done|]. split; [done|].
  eapply mono_trans; [by apply mono_alloc|done].
Qed.

Lemma WithDeadline_wf (P : ref → Prop) parent d s s' c f :
  wf_base s → wf_strong P s → is_Some (heap s !! parent) →
  WithDeadline (Some parent) d s = Ok (s', c, f) →
  wf_base s' ∧ wf_strong P s' ∧ mono s s'.
Proof.
  intros Hwf Hs Hp. unfold WithDeadline.
  intros (cur & Hcur & H)%bind_Ok.
  destruct (from_option _ _ cur); [by eapply WithCancel_wf|].
  destruct (wf_alloc_scope P (TimerCtx (mkTimerCtx (newCancelCtx parent) None d)) parent s)
    as (Hwf0 & Hs0 & Hget); eauto.
  destruct (alloc _ s) as [s0 c0] eqn:Ha. simpl in *.
  assert (c0 = next_ref s) as -> by (by injection Ha).
  assert (mono s s0) as Hm0.
  { replace s0 with (alloc (TimerCtx (mkTimerCtx (newCancelCtx parent) None d)) s).1
      by (by rewrite Ha). by apply mono_alloc. }
  apply bind_Ok in H as (s1 & Hprop & H).
  destruct (propagateCancel_wf P _ _ _ _ Hwf0 Hs0 (mk_is_Some _ _ Hget) Hprop)
    as (Hwf1 & Hs1 & Hm1 & _).
  case_decide.
  - apply bind_Ok in H as (s2 & Hc & [= <- <- <-]).
    destruct (cancel_wf P _ _ _ _ _ Hwf1 Hs1 Hc) as (? & ? & Hm2 & _).
    split; [done|]. split; [done|]. eauto using mono_trans.
  - destruct (get (next_ref s) s1) as [cc|] eqn:Hcc; [|done].
    destruct (c_err cc) as [e|] eqn:He; injection H as <- <- <-.
    + split; [done|]. split; [done|]. eauto using mono_trans.
    + split; [by apply wf_base_update_timer|]. split.
      * apply wf_strong_update_timer; [done|]. intros _ t Ht _.
        apply get_Some in Hcc as (x & Hx & Hcx). simplify_eq/=. done.
      * eapply mono_trans; [|apply mono_update_timer].
        eauto using mono_trans.
Qed.

Lemma WithValue_wf (P : ref → Prop) parent k v s s' c :
  wf_base s → wf_strong P s → is_Some (heap s !! parent) →
  WithValue (Some parent) (Some (UserKey k)) v s = Ok (s', c) →
  wf_base s' ∧ wf_strong P s' ∧ mono s s'.
Proof.
  intros Hwf Hs Hp. unfold WithValue. intros [= <- <-].
  change (set_next_ref _ _) with (alloc (ValueCtx parent (UserKey k) v) s).1.
  split; [|split].
  - rewrite <- (set_next_chan_id (alloc _ s).1). st.
    apply wf_base_alloc; try done.
    + simpl. by intros p [= <-].
    + by intros p k' v' [= <- <- <-].
  - by apply wf_strong_alloc.
  - by apply mono_alloc.
Qed.

(** ** Goroutines and environment *)

Lemma elem_of_list_insert_inv {A} (l : list A) i x y :
  y ∈ <[i:=x]> l → y = x ∨ y ∈ l.
Proof.
  intros (j & Hj)%list_elem_of_lookup.
  apply list_lookup_insert_Some in Hj as [(_ & -> & _)|[_ Hj]]; [by left|].
  right. apply list_elem_of_lookup. eauto.
Qed.

Lemma watch_start_wf (P : ref → Prop) parent child s s' t :
  wf_base s → wf_strong P s →
  watch_start parent child s = Ok (s', t) →
  wf_base s' ∧ wf_strong P s' ∧ mono s s' ∧ quiet s s' ∧
  task_parent t = parent ∧ task_child t = child ∧
  is_Some (heap s' !! parent) ∧ is_Some (get child s').
Proof.
  intros Hwf Hs. unfold watch_start.
  intros ([s1 pd] & HD & ([s2 cd] & HC & [= <- <-])%bind_Ok)%bind_Ok.
  pose proof (Done_at_ex _ _ _ _ HD) as Hat.
  destruct (Done_at_wf P _ _ _ _ Hat Hwf Hs) as [Hwf1 Hs1].
  pose proof (Done_at_mono _ _ _ _ Hat) as Hm1.
  pose proof (Done_at_quiet _ _ _ _ Hat) as Hq1.
  pose proof (Done_at_is_Some _ _ _ _ Hat) as Hp.
  apply cancelCtx_Done_inv in HC as (cc & Hcc & [(_ & _ & ->)|(Hd & _ & ->)]).
  - do 6 (split; [by eauto using mono_is_Some_heap|]).
    split; [by eapply mono_is_Some_heap|eauto].
  - assert (mono s1 (alloc_done child s1)) as Hm2 by (by eapply mono_alloc_done).
    split; [by eapply wf_base_alloc_done|].
    split; [by eapply wf_strong_alloc_done|].
    split; [by eapply mono_trans|].
    split; [destruct Hq1; by split|].
    split; [done|]. split; [done|]. split.
    + eapply mono_is_Some_heap; [|done]. by eapply mono_trans.
    + eapply mono_is_Some_get; [done|]. eauto.
Qed.

Lemma wf_foreign_new (P : ref → Prop) has_done deadline inner s :
  wf_base s → wf_strong P s →
  (∀ i, inner = Some i → is_Some (heap s !! i)) →
  wf_base (foreign_new has_done deadline inner s).1 ∧
  wf_strong P (foreign_new has_done deadline inner s).1 ∧
  mono s (foreign_new has_done deadline inner s).1.
Proof.
  intros Hwf Hs Hi. unfold foreign_new. destruct has_done.
  - set (x := ForeignCtx _).
    change (alloc x (set_next_chan (S (next_chan s)) s)).1
      with (set_next_chan (S (next_chan s)) (alloc x s).1).
    split; [|split].
    + apply wf_base_alloc; subst x; simpl; try done; try lia.
      * by intros f [= <-].
      * intros d [= <-]. lia.
    + eapply wf_strong_ext; [|by apply (wf_strong_alloc P x s)]. done.
    + eapply mono_ext; [| |by apply (mono_alloc x s)]; done.
  - set (x := ForeignCtx _). split; [|split].
    + rewrite <- (set_next_chan_id (alloc x s).1). st.
      apply wf_base_alloc; subst x; simpl; try done.
      by intros f [= <-].
    + by apply wf_strong_alloc.
    + by apply mono_alloc.
Qed.

Lemma foreign_cancel_wf (P : ref → Prop) c e s s' :
  wf_base s → wf_strong P s → foreign_cancel c e s = Ok s' →
  wf_base s' ∧ wf_strong P s' ∧ mono s s' ∧ quiet s s'.
Proof.
  intros Hwf Hs. unfold foreign_cancel.
  destruct (heap s !! c) as [[| | | |f]|] eqn:Hx; try done.
  destruct (f_done f) as [d|] eqn:Hd;
    [|intros [= <-]; auto using mono_refl, quiet_refl].
  destruct (f_err f) as [e0|] eqn:He;
    [intros [= <-]; auto using mono_refl, quiet_refl|].
  unfold close. case_decide as Hin; [done|]. simpl. intros [= <-].
  destruct (wb_foreign _ Hwf c f d Hx Hd) as [Hne Hiff].
  set (f' := mkForeignCtx (Some d) (Some e) (f_deadline f) (f_inner f)).
  assert (Hl : ∀ r y, <[c:=ForeignCtx f']> (heap s) !! r = Some y ↔
            (r = c ∧ y = ForeignCtx f') ∨ (r ≠ c ∧ heap s !! r = Some y)).
  { intros r y. rewrite lookup_insert_Some. naive_solver. }
  assert (Hg : ∀ r s0, heap s0 = <[c:=ForeignCtx f']> (heap s) → get r s0 = get r s).
  { intros r s0 Hs0. unfold get. rewrite Hs0, lookup_insert.
    case_decide; [|done]. subst. by rewrite Hx. }
  assert (Hother : ∀ r y, r ≠ c → heap s !! r = Some y → chan_of y ≠ Some d).
  { intros r y Hr Hy Hch. destruct Hr.
    eapply (wb_chan_owner _ Hwf r c y (ForeignCtx f)); eauto. }
  split; [|split; [|split]].
  - split; simpl.
    + pose proof (wb_closedchan _ Hwf). set_solver.
    + intros d' [->%elem_of_singleton|Hd']%elem_of_union.
      * by eapply (wb_chan_alloc _ Hwf c (ForeignCtx f)).
      * by apply (wb_closed_alloc _ Hwf).
    + intros r y [[-> ->]|[? Hy]]%Hl; by eapply wb_dom.
    + intros r y p [[-> ->]|[? Hy]]%Hl Hp.
      * destruct (wb_parent _ Hwf c _ p Hx Hp) as [? [z Hz]].
        split; [done|]. rewrite lookup_insert. case_decide; eauto.
      * destruct (wb_parent _ Hwf r _ p Hy Hp) as [? [z Hz]].
        split; [done|]. rewrite lookup_insert. case_decide; eauto.
    + intros r p k v [[-> ?]|[? Hy]]%Hl; [done|]. by eapply wb_key.
    + intros r c0 k.
      rewrite (Hg r (set_heap _ _)), (Hg k (set_heap _ _)) by done.
      apply (wb_children _ Hwf).
    + intros r y d' [[-> ->]|[? Hy]]%Hl Hch.
      * simpl in Hch. simplify_eq.
        by eapply (wb_chan_alloc _ Hwf c (ForeignCtx f)).
      * by eapply wb_chan_alloc.
    + intros r r' y y' d' [[-> ->]|[? Hy]]%Hl [[-> ->]|[? Hy']]%Hl Hch Hch' Hne';
        try done.
      * simpl in Hch. simplify_eq. by destruct (Hother r' y').
      * simpl in Hch'. simplify_eq. by destruct (Hother r y).
      * by eapply (wb_chan_owner _ Hwf).
    + intros r c0. rewrite (Hg r (set_heap _ _)) by done. intros Hr.
      rewrite (wb_err_done _ Hwf r c0 Hr).
      apply get_Some in Hr as (y & Hy & Hc).
      split; intros (d' & Hd' & Hin'); exists d'; split; try done.
      * set_solver.
      * apply elem_of_union in Hin' as [->%elem_of_singleton|]; [|done].
        destruct (decide (r = c)) as [->|Hr]; [by simplify_eq|].
        destruct (Hother r y Hr Hy). by rewrite (chan_of_cancelCtx _ c0).
    + intros r f0 d' [[-> Heq]|[? Hy]]%Hl Hfd.
      * injection Heq as ->. simpl in *. simplify_eq. split; [done|].
        split; [eauto|]. set_solver.
      * destruct (wb_foreign _ Hwf r f0 d' Hy Hfd) as [? Hiff'].
        split; [done|]. rewrite <- Hiff'. split; [|set_solver].
        intros [->%elem_of_singleton|]%elem_of_union; [|done].
        by destruct (Hother r (ForeignCtx f0)).
    + intros t Ht. rewrite (Hg _ (set_heap _ _)) by done.
      destruct (wb_tasks _ Hwf t Ht) as [[z Hz] ?].
      split; [|done]. rewrite lookup_insert. case_decide; eauto.
  - split.
    + intros r c0 Hr. rewrite (Hg r (set_heap _ _)) by done.
      by apply (ws_children _ _ Hs).
    + intros r t Hr [[-> ?]|[? Hy]]%Hl; [done|]. by eapply (ws_timer _ _ Hs).
  - split; simpl; [set_solver|]. intros r y Hy.
    destruct (decide (r = c)) as [->|Hr].
    + exists (ForeignCtx f'). rewrite lookup_insert_eq. split; [done|].
      simplify_eq. simpl. rewrite Hd, He. done.
    + exists y. rewrite lookup_insert_ne by done. auto using evolve_refl.
  - by split.
Qed.

(** ** Every step keeps the store well formed and undoes nothing *)

Lemma wf_set_tasks l s :
  wf s →
  (∀ t, t ∈ l → is_Some (heap s !! task_parent t) ∧ is_Some (get (task_child t) s)) →
  wf (set_tasks l s) ∧ mono s (set_tasks l s).
Proof.
  intros [Hwf Hs] Hl. split; [split|].
  - by apply wf_base_set_tasks.
  - eapply wf_strong_ext; [|exact Hs]; done.
  - eapply mono_ext; [| |apply mono_refl]; done.
Qed.

Lemma step_wf_mono s s' : wf s → step s s' → wf s' ∧ mono s s'.
Proof.
  intros [Hwf Hs] Hstep. destruct Hstep.
  - pose proof (Done_at_ex _ _ _ _ H) as Hat.
    destruct (Done_at_wf _ _ _ _ _ Hat Hwf Hs).
    split; [done|]. by eapply Done_at_mono.
  - destruct (WithCancel_wf _ _ _ _ _ _ Hwf Hs H H0) as (? & ? & ?). split; [by split|done].
  - destruct (WithDeadline_wf _ _ _ _ _ _ _ Hwf Hs H H0) as (? & ? & ?). split; [by split|done].
  - destruct (WithDeadline_wf _ _ _ _ _ _ _ Hwf Hs H H0) as (? & ? & ?). split; [by split|done].
  - destruct (WithValue_wf _ _ _ _ _ _ _ Hwf Hs H H0) as (? & ? & ?). split; [by split|done].
  - destruct (cancel_wf _ _ _ _ _ _ Hwf Hs H) as (? & ? & ? & _). split; [by split|done].
  - destruct (removeChild_wf _ _ _ _ _ Hwf Hs H) as (? & ? & ?). split; [by split|done].
  - destruct (propagateCancel_wf _ _ _ _ _ Hwf Hs H H0) as (? & ? & ? & _).
    split; [by split|done].
  - destruct (watch_start_wf _ _ _ _ _ _ Hwf Hs H0)
      as (Hwf' & Hs' & Hm & Hq & Htp & Htc & Hp & Hc).
    destruct (wf_set_tasks (<[i:=t]> (tasks s')) s') as [? ?]; [done| |].
    + intros t' [->|Ht']%elem_of_list_insert_inv.
      * by rewrite Htp, Htc.
      * by apply (wb_tasks _ Hwf').
    + split; [done|]. by eapply mono_trans.
  - unfold watch_fire in H1. apply bind_Ok in H1 as (e & He & Hc).
    destruct (cancel_wf _ _ _ _ _ _ Hwf Hs Hc) as (Hwf' & Hs' & Hm & _).
    destruct (wf_set_tasks (delete i (tasks s')) s') as [? ?]; [done| |].
    + intros t' Ht'%list_elem_of_delete_inv. by apply (wb_tasks _ Hwf').
    + split; [done|]. by eapply mono_trans.
  - apply wf_set_tasks; [done|].
    intros t' Ht'%list_elem_of_delete_inv. by apply (wb_tasks _ Hwf).
  - destruct (cancel_wf _ _ _ _ _ _ Hwf Hs H2) as (? & ? & ? & _). split; [by split|done].
  - split; [split|].
    + eapply wf_base_ext; [..|exact Hwf]; done.
    + eapply wf_strong_ext; [|exact Hs]; done.
    + eapply mono_ext; [| |apply mono_refl]; done.
  - destruct (wf_foreign_new (λ _, False) has_done deadline inner s Hwf Hs H)
      as (? & ? & ?).
    split; [by split|done].
  - destruct (foreign_cancel_wf _ _ _ _ _ Hwf Hs H) as (? & ? & ? & _).
    split; [by split|done].
Qed.

Lemma reachable_wf s : reachable s → wf s.
Proof.
  induction 1 as [t0|s s' _ IH Hstep]; [apply wf_init|].
  by apply (step_wf_mono s s').
Qed.

Lemma steps_wf_mono s s' : wf s → steps s s' → wf s' ∧ mono s s'.
Proof.
  intros Hwf. induction 1 as [|s s' s'' _ IH Hstep]; [auto using mono_refl|].
  destruct (IH Hwf) as [Hwf' Hm].
  destruct (step_wf_mono _ _ Hwf' Hstep) as [? ?].
  split; [done|]. by eapply mono_trans.
Qed.

(** ** [Done] computes what [Done_at] describes *)

Lemma Done_at_fuel c s s' d :
  Done_at s c s' d → wf_base s → ∀ n, (c < n)%nat → Done_fuel n c s = Ok (s', d).
Proof.
  induction 1 as [c Hx|c f Hx|c cc d Hget Hd|c cc Hget Hd|c p k v s' d Hx H IH];
    intros Hwf [|n] Hn; try lia; simpl.
  - by rewrite Hx.
  - by rewrite Hx.
  - pose proof Hget as (x & Hx & Hc)%get_Some. rewrite Hx.
    destruct x; try done; unfold cancelCtx_Done; by rewrite Hget, Hd.
  - pose proof Hget as (x & Hx & Hc)%get_Some. rewrite Hx.
    destruct x; try done; unfold cancelCtx_Done; by rewrite Hget, Hd.
  - rewrite Hx. apply IH; [done|].
    destruct (wb_parent _ Hwf c _ p Hx eq_refl). lia.
Qed.

Lemma Done_at_Done c s s' d :
  Done_at s c s' d → wf_base s → Done c s = Ok (s', d).
Proof. intros H Hwf. apply Done_at_fuel; [done..|lia]. Qed.

(** A second call creates nothing. *)
Lemma Done_at_again c s s' d :
  Done_at s c s' d → wf_base s → Done_at s' c s' d.
Proof.
  induction 1 as [c Hx|c f Hx|c cc d Hget Hd|c cc Hget Hd|c p k v s' d Hx H IH];
    intros Hwf.
  - by constructor.
  - by constructor.
  - by econstructor.
  - eapply (Done_at_old _ c (set_done (Some (next_chan s)) cc)); [|done].
    unfold alloc_done. st. by rewrite get_update_eq, Hget.
  - destruct (mn_heap _ _ (Done_at_mono _ _ _ _ H) c _ Hx) as (x' & Hx' & He).
    simpl in He. subst x'. eapply Done_at_value; [exact Hx'|by apply IH].
Qed.

(** Objects allocated meanwhile do not matter. *)
Lemma Done_at_alloc c s d x :
  Done_at s c s d → wf_base s → Done_at (alloc x s).1 c (alloc x s).1 d.
Proof.
  intros H. remember s as s' eqn:Hs in H at 2. revert Hs.
  assert (Hl : ∀ r y, heap s !! r = Some y → wf_base s →
            heap (alloc x s).1 !! r = Some y).
  { intros r y Hy Hwf. apply heap_alloc_Some. right. split; [|done].
    intros ->. by rewrite fresh_ref in Hy. }
  induction H as [c Hx|c f Hx|c cc d Hget Hd|c cc Hget Hd|c p k v s' d Hx H IH];
    intros Hs Hwf.
  - constructor. auto.
  - constructor. auto.
  - econstructor; [|done]. apply get_Some in Hget as (y & Hy & Hc).
    apply get_Some. eauto.
  - exfalso. assert (next_chan (alloc_done c s) = next_chan s) as Hn
      by (by rewrite Hs).
    unfold alloc_done in Hn. st. lia.
  - subst s'. eapply Done_at_value; [by apply Hl|]. by apply IH.
Qed.

Lemma heap_alloc_ne x s r :
  r ≠ next_ref s → heap (alloc x s).1 !! r = heap s !! r.
Proof. intros. simpl. by rewrite lookup_insert_ne. Qed.

Lemma Err_fuel_alloc n c x s :
  wf_base s → is_Some (heap s !! c) →
  Err_fuel n c (alloc x s).1 = Err_fuel n c s.
Proof.
  intros Hwf. revert c. induction n as [|n IH]; intros c [y Hy]; [done|].
  assert (c ≠ next_ref s) as Hne by (intros ->; by rewrite fresh_ref in Hy).
  cbn [Err_fuel]. rewrite heap_alloc_ne by done. rewrite Hy.
  destruct y as [|cc|t|p k v|f]; try done.
  - unfold cancelCtx_Err. rewrite get_alloc by done.
    by rewrite decide_False.
  - unfold cancelCtx_Err. rewrite get_alloc by done.
    by rewrite decide_False.
  - apply IH. by eapply wb_parent.
Qed.

Lemma Err_alloc c x s :
  wf_base s → is_Some (heap s !! c) → Err c (alloc x s).1 = Err c s.
Proof. apply Err_fuel_alloc. Qed.

(** ** The map of children of a new scope is empty *)

Lemma order_empty : order ∅ = [].
Proof.
  destruct (order ∅) as [|k l] eqn:E; [done|].
  assert (k ∈ order ∅) as Hk by (rewrite E; left).
  apply elem_of_order in Hk. set_solver.
Qed.

Lemma update_timer_id c s :
  heap s !! c ≫= timer_of = None → update_timer c (λ _, None) s = s.
Proof.
  intros Ht. apply state_eq; try done. unfold update_timer. simpl.
  apply map_eq. intros r. rewrite lookup_alter. case_decide; [|done].
  subst. destruct (heap s !! r) as [y|]; [|done]. simpl in *.
  f_equal. destruct y as [| |t| |]; try done. simpl in *.
  destruct t. simpl in *. by subst.
Qed.

(** A live scope without children is cancelled on the spot. *)
Lemma cancel_childless c cc e s :
  wf_base s → get c s = Some cc → c_err cc = None → c_children cc = None →
  cancel c false (Some e) s =
    Ok (update_timer c (λ _, None)
          (update c (set_children None)
             (marked c e (default closedchan (c_done cc)) s))).
Proof.
  intros Hwf Hget He Hk. unfold cancel. rewrite cancel_fuel_S.
  pose proof Hget as (y & Hy & Hc)%get_Some. rewrite Hy.
  assert (order (children_of cc) = []) as Ho.
  { unfold children_of. rewrite Hk. apply order_empty. }
  destruct y as [|c0|t| |]; try done; simpl in Hc; injection Hc as Hc; subst cc.
  - rewrite (cancelCtx_cancel_with_live _ _ c0) by done. rewrite Ho. simpl.
    f_equal. symmetry. apply update_timer_id.
    unfold marked, update. simpl. rewrite !lookup_alter, !decide_True by done.
    by rewrite Hy.
  - unfold timerCtx_cancel_with.
    rewrite (cancelCtx_cancel_with_live _ _ (t_cancelCtx t)) by done.
    rewrite Ho. done.
Qed.

(** A cancelled scope in a well-formed store: [cancel] changes nothing. *)
Lemma cancel_dead c cc b e s :
  wf s → get c s = Some cc → is_Some (c_err cc) →
  cancel c b (Some e) s = Ok s.
Proof.
  intros [Hwf Hs] Hget He. unfold cancel. rewrite cancel_fuel_S.
  pose proof Hget as (y & Hy & Hc)%get_Some. rewrite Hy.
  destruct y as [|c0|t| |]; try done; simpl in Hc; injection Hc as Hc; subst cc.
  - by rewrite (cancelCtx_cancel_with_dead _ _ c0).
  - unfold timerCtx_cancel_with.
    rewrite (cancelCtx_cancel_with_dead _ _ (t_cancelCtx t)) by done.
    simpl. f_equal. apply update_timer_id. rewrite Hy. simpl.
    destruct (t_timer t) as [tm|] eqn:Ht; [|done].
    rewrite (ws_timer _ _ Hs c t) in He; [by destruct He|tauto|done|eauto].
Qed.

(** ** [propagateCancel] returns *)

Lemma propagateCancel_total (P : ref → Prop) parent child s :
  wf_base s → wf_strong P s → is_Some (heap s !! parent) →
  is_Some (get child s) →
  ∃ s', propagateCancel parent child s = Ok s'.
Proof.
  intros Hwf Hs Hp Hc. unfold propagateCancel.
  destruct (Done_total parent s Hwf Hp) as (s1 & d & HD). rewrite HD. simpl.
  pose proof (Done_at_ex _ _ _ _ HD) as Hat.
  destruct (Done_at_wf P _ _ _ _ Hat Hwf Hs) as [Hwf1 Hs1].
  pose proof (Done_at_mono _ _ _ _ Hat) as Hm1.
  destruct d as [ch|]; [|eauto]. case_decide as Hch.
  - destruct (Done_at_Err _ _ _ _ Hat Hwf Hch) as [-> [e He]].
    rewrite He. simpl.
    destruct (cancel_spec P child false e s Hwf Hs Hc) as (_ & s' & _ & -> & _).
    eauto.
  - destruct (parentCancelCtx_total parent s1 Hwf1) as (s2 & po & HP).
    { by eapply mono_is_Some_heap. }
    rewrite HP. simpl.
    destruct (parentCancelCtx_wf P _ _ _ _ Hwf1 Hs1 HP) as (Hwf2 & Hs2 & Hm2).
    destruct po as [p|]; [|eauto].
    apply parentCancelCtx_inv in HP as (d2 & _ & ch2 & pc & _ & _ & _ & -> & _).
    destruct (c_err pc) as [e|]; [|eauto].
    destruct (cancel_spec P child false e s2 Hwf2 Hs2) as (_ & s' & _ & -> & _);
      [|eauto].
    eapply mono_is_Some_get; [|done]. by eapply mono_trans.
Qed.

(** [Done] touches no field but [done]. *)
Lemma Done_at_get c s s' d r cc :
  Done_at s c s' d → get r s = Some cc →
  ∃ cc', get r s' = Some cc' ∧ c_err cc' = c_err cc ∧
         c_children cc' = c_children cc ∧ c_Context cc' = c_Context cc.
Proof.
  induction 1; eauto.
  intros Hr. unfold alloc_done. st. rewrite get_update. case_decide; [|eauto].
  subst. rewrite Hr. simpl. eauto.
Qed.

Lemma Done_at_closed c s s' d : Done_at s c s' d → closed s' = closed s.
Proof. induction 1; done. Qed.

Lemma Done_twice c s s1 d s2 d2 :
  wf_base s → Done c s = Ok (s1, d) → Done c s1 = Ok (s2, d2) →
  s2 = s1 ∧ d2 = d.
Proof.
  intros Hwf H1%Done_at_ex H2.
  destruct (Done_at_wf (λ _, True) _ _ _ _ H1 Hwf) as [Hwf1 _].
  { split; naive_solver. }
  rewrite (Done_at_Done c s1 s1 d) in H2; [by injection H2 as <- <-| |done].
  by eapply Done_at_again.
Qed.

(** While the parent is not cancelled, registration leaves the child
    alive. *)
Lemma propagateCancel_live parent child cc s s' :
  wf_base s → get child s = Some cc → c_err cc = None →
  Err parent s = Ok None →
  propagateCancel parent child s = Ok s' →
  ∃ cc', get child s' = Some cc' ∧ c_err cc' = None.
Proof.
  intros Hwf Hget He Herr (s1 & d & HD & H)%propagateCancel_inv.
  pose proof (Done_at_ex _ _ _ _ HD) as Hat.
  destruct (Done_at_get _ _ _ _ _ _ Hat Hget) as (cc1 & Hget1 & He1 & _).
  destruct (Done_at_wf (λ _, True) _ _ _ _ Hat Hwf) as [Hwf1 _].
  { split; naive_solver. }
  destruct H as [[-> ->]|[(ch & e & -> & Hch & He' & Hc)|
                          (ch & s2 & po & -> & Hch & HP & H)]].
  - exists cc1. split; [done|congruence].
  - destruct (Done_at_Err _ _ _ _ Hat Hwf Hch) as [-> [e' He'']]. congruence.
  - pose proof HP as (d2 & HD2 & Hpo)%parentCancelCtx_inv.
    destruct (Done_twice _ _ _ _ _ _ Hwf HD HD2) as [-> ->].
    destruct po as [p|].
    + destruct H as (pc & Hp & H).
      destruct Hpo as (ch' & pc' & [= <-] & _ & _ & Hp' & Hpd).
      rewrite Hp in Hp'. injection Hp' as <-.
      destruct (c_err pc) as [e|] eqn:Hpe.
      * exfalso. apply Hch.
        assert (is_Some (c_err pc)) as Hsome by eauto.
        apply (wb_err_done _ Hwf1 p pc Hp) in Hsome as (d' & Hd' & Hin).
        congruence.
      * subst s'. rewrite get_update. case_decide.
        -- subst. rewrite Hget1. simpl. eexists. split; [done|]. simpl.
           congruence.
        -- exists cc1. split; [done|congruence].
    + subst s'. unfold spawn. st. exists cc1. split; [done|congruence].
Qed.

(** ** Discovery finds the scope whose channel [Done] has just created *)

Lemma Value_ValueCtx c p k v s :
  wf_base s → heap s !! c = Some (ValueCtx p k v) →
  Value c cancelCtxKey s = Value p cancelCtxKey s.
Proof.
  intros Hwf Hx. destruct (wb_parent _ Hwf c _ p Hx eq_refl) as [Hlt Hp].
  destruct (Value_total p cancelCtxKey s Hwf Hp) as [r Hr]. rewrite Hr.
  unfold Value. simpl. rewrite Hx.
  rewrite decide_False by (by eapply wb_key).
  eapply Value_fuel_mono; [done|lia].
Qed.

Lemma Value_self c cc s :
  get c s = Some cc → Value c cancelCtxKey s = Ok (Some (VCancelCtx c)).
Proof.
  intros (x & Hx & Hc)%get_Some. unfold Value. simpl. rewrite Hx.
  by destruct x.
Qed.

Lemma Done_at_new_Value c s s' d :
  Done_at s c s' d → wf_base s →
  s' = s ∨
  ∃ r cc, get r s' = Some cc ∧ c_done cc = d ∧
          d = Some (next_chan s) ∧
          Value c cancelCtxKey s' = Ok (Some (VCancelCtx r)).
Proof.
  induction 1 as [c Hx|c f Hx|c cc d Hget Hd|c cc Hget Hd|c p k v s' d Hx H IH];
    intros Hwf; auto.
  - right. exists c, (set_done (Some (next_chan s)) cc).
    assert (get c (alloc_done c s) = Some (set_done (Some (next_chan s)) cc))
      as Hg by (unfold alloc_done; st; by rewrite get_update_eq, Hget).
    split; [done|]. split; [done|]. split; [done|]. by eapply Value_self.
  - destruct (IH Hwf) as [->|(r & cc & Hr & Hd & -> & HV)]; [by left|].
    right. exists r, cc. split; [done|]. split; [done|]. split; [done|].
    destruct (mn_heap _ _ (Done_at_mono _ _ _ _ H) c _ Hx) as (x' & Hx' & He).
    simpl in He. subst x'.
    rewrite (Value_ValueCtx c p k v); [done| |done].
    by destruct (Done_at_wf (λ _, True) _ _ _ _ H Hwf); [split; naive_solver|].
Qed.

(** Nothing found means nothing was created. *)
Lemma parentCancelCtx_None parent s s' :
  wf_base s → parentCancelCtx parent s = Ok (s', None) → s' = s.
Proof.
  intros Hwf (d & HD%Done_at_ex & Hpo)%parentCancelCtx_inv.
  destruct (Done_at_new_Value _ _ _ _ HD Hwf)
    as [->|(r & cc & Hr & Hd & -> & HV)]; [done|].
  exfalso. destruct Hpo as [?|[[= Heq]|[(v & HV' & Hv)|(p & pc & HV' & Hp & Hpd)]]];
    try done.
  - pose proof (wb_closed_alloc _ Hwf _ (wb_closedchan _ Hwf)). lia.
  - rewrite HV in HV'. injection HV' as <-. by destruct (Hv r).
  - rewrite HV in HV'. injection HV' as <-. congruence.
Qed.

(** ** What later steps keep *)

(** A channel that [Done] has handed out is handed out again. *)
Lemma Done_at_stable c s d s' :
  Done_at s c s d → mono s s' → Done_at s' c s' d.
Proof.
  intros H Hm. remember s as s0 eqn:Hs in H at 2. revert Hs.
  induction H as [c Hx|c f Hx|c cc d Hget Hd|c cc Hget Hd|c p k v s1 d Hx H IH];
    intros Hs.
  - destruct (mn_heap _ _ Hm c _ Hx) as (x' & Hx' & He).
    destruct x'; try done. by constructor.
  - destruct (mn_heap _ _ Hm c _ Hx) as (x' & Hx' & He).
    destruct x' as [| | | |f']; try done. destruct He as (<- & _).
    by constructor.
  - destruct (mono_get _ _ _ _ Hm Hget) as (cc' & Hget' & _ & Hd' & _).
    eapply Done_at_old; [done|]. by apply Hd'.
  - exfalso. assert (next_chan (alloc_done c s) = next_chan s) as Hn
      by (by rewrite Hs).
    unfold alloc_done in Hn. st. lia.
  - subst s1. destruct (mn_heap _ _ Hm c _ Hx) as (x' & Hx' & He).
    simpl in He. subst x'. eapply Done_at_value; [done|]. by apply IH.
Qed.




(** * The claims *)

Lemma cancels_newly e s s' k ck :
  cancels e s s' → get k s = Some ck → c_err ck = None →
  cancelled k s' → cancelled_with e k s'.
Proof.
  intros H (x & Hx & Hc)%get_Some He (c' & (x' & Hx' & Hc')%get_Some & He').
  destruct (cn_scope _ _ _ H k x ck Hx Hc)
    as (x2 & c2 & Hx2 & Hc2 & _ & _ & _ & Hn).
  simplify_eq. exists c'. split; [apply get_Some; eauto|].
  destruct (Hn He) as [->|[? _]]; [|done].
  rewrite He in He'. by destruct He'.
Qed.

Lemma cancels_children e s s' c cc :
  wf s → cancels e s s' → get c s = Some cc → cancelled c s' →
  ∀ k, k ∈ children_of cc → cancelled k s'.
Proof.
  intros [Hwf Hs] H Hget (c' & Hget' & He') k Hk.
  pose proof Hget as (x & Hx & Hc)%get_Some.
  destruct (cn_scope _ _ _ H c x cc Hx Hc)
    as (x2 & c2 & Hx2 & Hc2 & _ & _ & Hsame & Hn).
  destruct (c_err cc) as [e0|] eqn:He.
  - unfold children_of in Hk. rewrite (ws_children _ _ Hs c cc) in Hk;
      [set_solver|tauto|done|eauto].
  - destruct (Hn eq_refl) as [->|(_ & _ & _ & _ & _ & Hkids)]; [|auto].
    apply get_Some in Hget' as (x' & Hx' & Hc'). simplify_eq.
    rewrite He in He'. by destruct He'.
Qed.

Lemma cancels_descendants e s s' c k :
  wf s → cancels e s s' → descendant s c k → cancelled c s' → cancelled k s'.
Proof.
  intros Hwf H Hd. induction Hd as [c cc k Hget Hk|c cc k k' Hget Hk _ IH];
    intros Hc.
  - by eapply cancels_children.
  - apply IH. by eapply cancels_children.
Qed.

Lemma not_cancelled_live k s :
  is_Some (get k s) → ¬ cancelled k s → ∃ ck, get k s = Some ck ∧ c_err ck = None.
Proof.
  intros [ck Hk] Hn. exists ck. split; [done|].
  destruct (c_err ck) as [e|] eqn:He; [|done].
  destruct Hn. exists ck. eauto.
Qed.

Lemma descendant_scope s c k : wf s → descendant s c k → is_Some (get k s).
Proof.
  intros [Hwf _]. induction 1; [|done]. by eapply (wb_children _ Hwf).
Qed.

Lemma cancel_live s c cc b e :
  wf s → get c s = Some cc → c_err cc = None →
  ∃ s' cc', cancel c b (Some e) s = Ok s' ∧
    get c s' = Some cc' ∧
    c_err cc' = Some e ∧
    c_done cc' = Some (default closedchan (c_done cc)) ∧
    default closedchan (c_done cc) ∈ closed s' ∧
    c_children cc' = None ∧
    (∀ k, k ∈ children_of cc →
       cancelled k s' ∧ (¬ cancelled k s → cancelled_with e k s')) ∧
    (∀ k, descendant s c k →
       cancelled k s' ∧ (¬ cancelled k s → cancelled_with e k s')).
Proof.
  intros Hwf Hget He.
  destruct (cancel_spec (λ _, False) c b e s) as
    (s1 & s' & _ & Hc & Hwf' & Hs' & Hcn & Hcd & Hm & _); [apply Hwf..|eauto|].
  pose proof Hget as (x & Hx & Hcx)%get_Some.
  destruct (cn_scope _ _ _ Hcn c x cc Hx Hcx)
    as (x1 & c1 & Hx1 & Hc1 & _ & _ & _ & Hn).
  assert (get c s1 = Some c1) as Hget1 by (apply get_Some; eauto).
  destruct (Hn He) as [->|(He1 & Hd1 & Hin1 & Hk1 & _ & Hkids)].
  { destruct Hcd as (c1 & Hg & He1). rewrite Hget1 in Hg.
    injection Hg as <-. rewrite He in He1. by destruct He1. }
  destruct (mono_get _ _ _ _ Hm Hget1) as (cc' & Hget' & _ & Hdone & Herr).
  destruct (Herr e He1) as [He' Hk'].
  assert (Hall : ∀ k, is_Some (get k s) → cancelled k s1 →
            cancelled k s' ∧ (¬ cancelled k s → cancelled_with e k s')).
  { intros k Hk Hkc. split; [by eapply mono_cancelled|].
    intros (ck & Hgk & Hek)%not_cancelled_live; [|done].
    eapply mono_cancelled_with; [done|]. by eapply cancels_newly. }
  exists s', cc'. split; [done|]. split; [done|]. split; [done|].
  split; [auto|]. split; [by apply (mn_closed _ _ Hm)|]. split; [auto|].
  split.
  - intros k Hk. apply Hall; [|auto].
    by eapply (wb_children _ (proj1 Hwf)).
  - intros k Hk. apply Hall; [by eapply descendant_scope|].
    by eapply cancels_descendants.
Qed.

(** C1.  A live scope [c] is cancelled with cause [e]: the call returns;
    on return the cause of [c] is [e], its [done] channel (the shared
    closed channel if none had been created) is closed, its children map
    is nil, and every scope that was in its children map, and every
    descendant registered below it, is cancelled, with cause [e] unless
    it had been cancelled before. *)
Theorem C1_cancel_fans_out s c cc b e :
  reachable s → get c s = Some cc → c_err cc = None →
  ∃ s' cc', cancel c b (Some e) s = Ok s' ∧
    get c s' = Some cc' ∧
    c_err cc' = Some e ∧
    c_done cc' = Some (default closedchan (c_done cc)) ∧
    default closedchan (c_done cc) ∈ closed s' ∧
    c_children cc' = None ∧
    (∀ k, k ∈ children_of cc →
       cancelled k s' ∧ (¬ cancelled k s → cancelled_with e k s')) ∧
    (∀ k, descendant s c k →
       cancelled k s' ∧ (¬ cancelled k s → cancelled_with e k s')).
Proof. intros Hwf%reachable_wf. by apply cancel_live. Qed.

Lemma steps_cancelled_with s s' c e :
  wf s → steps s s' → cancelled_with e c s → cancelled_with e c s'.
Proof.
  intros Hwf Hst. destruct (steps_wf_mono _ _ Hwf Hst) as [_ Hm].
  by apply mono_cancelled_with.
Qed.

(** C2.  Once a scope has a cause, any further [cancel], with any cause
    and either flag, returns and leaves the whole store as it is, so the
    cause, the channel and the children map of the scope are unchanged;
    no later step changes the cause; and a trigger invoked a second time
    changes nothing. *)
Theorem C2_cancel_idempotent s c :
  reachable s →
  (∀ cc e0, get c s = Some cc → c_err cc = Some e0 →
     (∀ b e, cancel c b (Some e) s = Ok s) ∧
     (∀ s', steps s s' → cancelled_with e0 c s')) ∧
  (∀ f s1, cf_target f = c → call f s = Ok s1 → call f s1 = Ok s1).
Proof.
  intros Hwf%reachable_wf. split.
  - intros cc e0 Hget He. split.
    + intros b e. by eapply cancel_dead.
    + intros s' Hst. eapply steps_cancelled_with; [done..|]. by exists cc.
  - intros f s1 <- Hc. unfold call in *.
    destruct (cancel_wf _ _ _ _ _ _ (proj1 Hwf) (proj2 Hwf) Hc)
      as (Hwf1 & Hs1 & _ & _ & (c1 & Hg1 & He1)).
    by eapply (cancel_dead _ c1).
Qed.

Lemma cancel_reaches s s' p b e k :
  wf s → cancel p b (Some e) s = Ok s' → k = p ∨ descendant s p k →
  wf s' ∧ mono s s' ∧ cancelled k s'.
Proof.
  intros Hwf Hc Hk.
  destruct (cancel_Ok_inv _ _ _ _ _ Hc) as [Hp _].
  destruct (cancel_spec (λ _, False) p b e s) as
    (s1 & s2 & _ & Hc' & Hwf' & Hs' & Hcn & Hcd & Hm & _); [apply Hwf..|done|].
  rewrite Hc in Hc'. injection Hc' as <-.
  split; [done|]. split; [eapply mono_trans; [by eapply cancels_mono|done]|].
  eapply mono_cancelled; [done|]. destruct Hk as [->|Hk]; [done|].
  by eapply cancels_descendants.
Qed.

Lemma mono_TimerCtx s s' c t :
  mono s s' → heap s !! c = Some (TimerCtx t) →
  ∃ t', heap s' !! c = Some (TimerCtx t').
Proof.
  intros [_ H] Hx. destruct (H c _ Hx) as (x' & Hx' & He).
  destruct x'; try done. eauto.
Qed.

Lemma cancelled_timer_stopped s c t :
  wf s → heap s !! c = Some (TimerCtx t) → cancelled c s → t_timer t = None.
Proof.
  intros [_ Hs] Hx (cc & (x & Hx' & Hc)%get_Some & He). simplify_eq/=.
  destruct (t_timer t) as [tm|] eqn:Ht; [|done].
  rewrite (ws_timer _ _ Hs c t) in He; [by destruct He|tauto|done|eauto].
Qed.

(** C6.  A cancelled timer scope has no pending timer, in every
    reachable state; so the timer callback, which needs a pending timer,
    cannot run on it.  In particular the timer is stopped when the scope
    is cancelled through its trigger or through the fan-out of an
    ancestor, and it is never armed again. *)
Theorem C6_timer_stopped s c t :
  reachable s → heap s !! c = Some (TimerCtx t) →
  (is_Some (c_err (t_cancelCtx t)) → t_timer t = None) ∧
  (∀ p b e s', p = c ∨ descendant s p c → cancel p b (Some e) s = Ok s' →
     ∃ t', heap s' !! c = Some (TimerCtx t') ∧
           is_Some (c_err (t_cancelCtx t')) ∧ t_timer t' = None) ∧
  (∀ s' t', is_Some (c_err (t_cancelCtx t)) → steps s s' →
     heap s' !! c = Some (TimerCtx t') →
     t_timer t' = None ∧
     ∀ at_ s'', ¬ (t_timer t' = Some at_ ∧ timer_fire c s' = Ok s'')).
Proof.
  intros Hwf%reachable_wf Hx.
  assert (Hcd : ∀ s0 t0, heap s0 !! c = Some (TimerCtx t0) →
            cancelled c s0 → is_Some (c_err (t_cancelCtx t0))).
  { intros s0 t0 Hx0 (cc & (x & Hx' & Hc)%get_Some & He). by simplify_eq/=. }
  split; [|split].
  - intros He. eapply cancelled_timer_stopped; [done..|].
    exists (t_cancelCtx t). split; [|done]. apply get_Some. eauto.
  - intros p b e s' Hp Hc.
    destruct (cancel_reaches _ _ _ _ _ c Hwf Hc) as (Hwf' & Hm & Hcanc).
    { destruct Hp as [->|]; auto. }
    destruct (mono_TimerCtx _ _ _ _ Hm Hx) as [t' Hx'].
    exists t'. split; [done|]. split; [by eapply Hcd|].
    by eapply cancelled_timer_stopped.
  - intros s' t' He Hst Hx'.
    destruct (steps_wf_mono _ _ Hwf Hst) as [Hwf' Hm].
    assert (t_timer t' = None) as Ht.
    { eapply cancelled_timer_stopped; [done..|].
      eapply mono_cancelled; [done|].
      exists (t_cancelCtx t). split; [|done]. apply get_Some. eauto. }
    split; [done|]. intros at_ s'' [Hat _]. congruence.
Qed.

(** C7.  In every reachable state, for every cancellable scope, [err] is
    not nil exactly when the [done] channel is a closed channel; when no
    channel had been created, cancellation installs [closedchan]; and
    every step ([Done], [cancel], registration and removal of children,
    derivation, goroutines) leads to a state where this holds again. *)
Theorem C7_err_iff_done_closed s :
  reachable s →
  (∀ c cc, get c s = Some cc →
     (is_Some (c_err cc) ↔ ∃ d, c_done cc = Some d ∧ d ∈ closed s)) ∧
  (∀ c cc b e s', get c s = Some cc → c_done cc = None →
     cancel c b (Some e) s = Ok s' →
     ∃ cc', get c s' = Some cc' ∧ c_err cc' = Some e ∧
            c_done cc' = Some closedchan ∧ closedchan ∈ closed s') ∧
  (∀ s', step s s' → ∀ c cc, get c s' = Some cc →
     (is_Some (c_err cc) ↔ ∃ d, c_done cc = Some d ∧ d ∈ closed s')).
Proof.
  intros Hr. pose proof (reachable_wf _ Hr) as Hwf. split; [|split].
  - intros c cc. apply (wb_err_done _ (proj1 Hwf)).
  - intros c cc b e s' Hget Hd Hc.
    assert (c_err cc = None) as He.
    { destruct (c_err cc) as [e0|] eqn:He; [|done].
      apply mk_is_Some, (wb_err_done _ (proj1 Hwf) c cc Hget) in He
        as (d & Hd' & _). congruence. }
    destruct (cancel_live s c cc b e Hwf Hget He)
      as (s2 & cc' & Hc' & Hg & He' & Hd' & Hin & _).
    rewrite Hc in Hc'. injection Hc' as <-. rewrite Hd in *. eauto.
  - intros s' Hst c cc. destruct (step_wf_mono _ _ Hwf Hst) as [[Hwf' _] _].
    apply (wb_err_done _ Hwf').
Qed.

Lemma cancelCtx_Done_old c cc d s :
  get c s = Some cc → c_done cc = Some d → cancelCtx_Done c s = Ok (s, Some d).
Proof. intros Hget Hd. unfold cancelCtx_Done. by rewrite Hget, Hd. Qed.

Lemma Done_cancelCtx_Done c cc s :
  get c s = Some cc → Done c s = cancelCtx_Done c s.
Proof.
  intros (x & Hx & Hc)%get_Some. unfold Done. simpl. rewrite Hx.
  by destruct x.
Qed.

Lemma steps_done_stable s s' c cc d :
  wf s → steps s s' → get c s = Some cc → c_done cc = Some d →
  cancelCtx_Done c s' = Ok (s', Some d).
Proof.
  intros Hwf Hst Hget Hd. destruct (steps_wf_mono _ _ Hwf Hst) as [_ Hm].
  destruct (mono_get _ _ _ _ Hm Hget) as (cc' & Hget' & _ & Hdone & _).
  eapply cancelCtx_Done_old; eauto.
Qed.

(** C10.  [Done] on a cancellable scope returns a channel, never nil.
    If the scope had none, exactly one fresh channel is created; if it
    had one, nothing is created.  Every later call, after any steps,
    returns that same channel and creates nothing.  A scope cancelled
    before its first [Done] answers [closedchan] ever after. *)
Theorem C10_Done_stable s c cc :
  reachable s → get c s = Some cc →
  ∃ s1 d, cancelCtx_Done c s = Ok (s1, Some d) ∧ Done c s = Ok (s1, Some d) ∧
    (∀ d0, c_done cc = Some d0 → d = d0 ∧ s1 = s) ∧
    (c_done cc = None →
       s1 = alloc_done c s ∧ d = next_chan s ∧ (d ∉ closed s1) ∧
       ∀ r x, heap s !! r = Some x → chan_of x ≠ Some d) ∧
    (∀ s2, steps s1 s2 → cancelCtx_Done c s2 = Ok (s2, Some d)) ∧
    (c_done cc = None → ∀ b e s' s2, cancel c b (Some e) s = Ok s' →
       steps s' s2 → cancelCtx_Done c s2 = Ok (s2, Some closedchan)).
Proof.
  intros Hr Hget. pose proof (reachable_wf _ Hr) as Hwf.
  rewrite (Done_cancelCtx_Done c cc) by done.
  destruct (c_done cc) as [d0|] eqn:Hd.
  - exists s, d0. rewrite (cancelCtx_Done_old c cc d0) by done.
    split; [done|]. split; [done|]. split; [by intros ? [= <-]|].
    split; [done|]. split; [|done].
    intros s2 Hst. by eapply steps_done_stable.
  - exists (alloc_done c s), (next_chan s).
    assert (cancelCtx_Done c s = Ok (alloc_done c s, Some (next_chan s))) as HD.
    { unfold cancelCtx_Done. by rewrite Hget, Hd. }
    assert (wf (alloc_done c s)) as Hwf1.
    { apply (step_wf_mono s); [done|]. eapply (step_Done c).
      by rewrite (Done_cancelCtx_Done c cc). }
    split; [done|]. split; [done|]. split; [done|]. split; [|split].
    + intros _. split; [done|]. split; [done|]. split.
      * unfold alloc_done. st. intros Hin%(wb_closed_alloc _ (proj1 Hwf)). lia.
      * intros r x Hx Hch.
        apply (wb_chan_alloc _ (proj1 Hwf) r x) in Hch; [lia|done].
    + intros s2 Hst.
      eapply (steps_done_stable _ _ _ (set_done (Some (next_chan s)) cc));
        [done..| |done].
      unfold alloc_done. st. by rewrite get_update_eq, Hget.
    + intros _ b e s' s2 Hc Hst.
      assert (c_err cc = None) as He.
      { destruct (c_err cc) as [e0|] eqn:He; [|done].
        apply mk_is_Some, (wb_err_done _ (proj1 Hwf) c cc Hget) in He
          as (d & Hd' & _). congruence. }
      destruct (cancel_live s c cc b e Hwf Hget He)
        as (s3 & cc' & Hc' & Hg & He' & Hd' & Hin & _).
      rewrite Hc in Hc'. injection Hc' as <-. rewrite Hd in Hd'.
      eapply steps_done_stable; [|done..].
      apply (step_wf_mono s); [done|]. by eapply step_cancel.
Qed.

Lemma derive_cancelled x parent d e s :
  wf s → Done_at s parent s (Some d) → d ∈ closed s →
  Err parent s = Ok (Some e) →
  x = CancelCtx (newCancelCtx parent) ∨
  (∃ dl, x = TimerCtx (mkTimerCtx (newCancelCtx parent) None dl)) →
  ∃ s', propagateCancel parent (next_ref s) (alloc x s).1 = Ok s' ∧
        wf s' ∧ now s' = now s ∧ born_cancelled e s s' (next_ref s).
Proof.
  intros [Hwf Hs] Hat Hd Herr Hx.
  set (c := next_ref s). set (s0 := (alloc x s).1).
  pose proof (Done_at_is_Some _ _ _ _ Hat) as Hp.
  destruct (wf_alloc_scope (λ _, False) x parent s Hwf Hs Hp Hx)
    as (Hwf0 & Hs0 & Hget0).
  fold s0 c in Hwf0, Hs0, Hget0.
  assert (Done parent s0 = Ok (s0, Some d)) as HD0.
  { apply Done_at_Done; [|done]. by apply Done_at_alloc. }
  assert (Err parent s0 = Ok (Some e)) as He0.
  { unfold s0. by rewrite Err_alloc. }
  set (s' := update_timer c (λ _, None)
               (update c (set_children None) (marked c e closedchan s0))).
  assert (cancel c false (Some e) s0 = Ok s') as Hc0.
  { by rewrite (cancel_childless c (newCancelCtx parent)). }
  assert (propagateCancel parent c s0 = Ok s') as Hprop.
  { unfold propagateCancel. rewrite HD0. simpl.
    rewrite decide_True by done. rewrite He0. done. }
  exists s'. split; [done|].
  destruct (propagateCancel_wf (λ _, False) _ _ _ _ Hwf0 Hs0 (mk_is_Some _ _ Hget0) Hprop)
    as (Hwf' & Hs' & _ & _ & Hnow).
  split; [by split|]. split; [by rewrite Hnow|].
  assert (Hfresh : heap s !! c = None) by (by apply fresh_ref).
  assert (Hgetc : get c s' =
            Some (set_children None
                    (set_done (Some closedchan) (set_err (Some e) (newCancelCtx parent))))).
  { unfold s'. st. rewrite get_update_eq, get_marked, decide_True, Hget0 by done.
    done. }
  assert (Hother : ∀ r, r ≠ c → heap s' !! r = heap s !! r).
  { intros r Hr. unfold s', marked, update_timer, update. simpl.
    rewrite !lookup_alter_ne by done. by rewrite lookup_insert_ne. }
  split; [done|]. split; [done|]. split; [|split; [|split; [|split]]].
  - eexists. split; [exact Hgetc|done].
  - eexists _, closedchan. split; [exact Hgetc|]. split; [done|].
    unfold s', marked. st. set_solver.
  - intros r y Hy. rewrite Hother; [done|]. intros ->. congruence.
  - intros r cr Hr Hin. destruct (decide (r = c)) as [->|Hne].
    + rewrite Hgetc in Hr. injection Hr as <-. set_solver.
    + assert (get r s = Some cr) as Hr'.
      { unfold get in *. by rewrite <- Hother. }
      destruct (wb_children _ Hwf r cr c Hr' Hin) as [cc (y & Hy & _)%get_Some].
      congruence.
  - done.
Qed.

(** C3.  The parent's [done] channel is closed when a scope is derived
    from it: each of the three derivations returns, and the new scope is
    already cancelled with the parent's cause, its own channel closed;
    nothing that existed has changed, so no children map has a new
    entry, and no watcher was started. *)
Theorem C3_derived_from_cancelled s parent s1 d :
  reachable s → Done parent s = Ok (s1, Some d) → d ∈ closed s1 →
  ∃ e, Err parent s = Ok (Some e) ∧
    (∃ s' c f, WithCancel (Some parent) s = Ok (s', c, f) ∧
               born_cancelled e s s' c) ∧
    (∀ dl, ∃ s' c f, WithDeadline (Some parent) dl s = Ok (s', c, f) ∧
                     born_cancelled e s s' c) ∧
    (∀ t, ∃ s' c f, WithTimeout (Some parent) t s = Ok (s', c, f) ∧
                    born_cancelled e s s' c).
Proof.
  intros Hwf%reachable_wf HD%Done_at_ex Hd.
  destruct (Done_at_Err _ _ _ _ HD (proj1 Hwf) Hd) as [-> [e He]].
  exists e. split; [done|].
  assert (HC : ∃ s' c f, WithCancel (Some parent) s = Ok (s', c, f) ∧
                         born_cancelled e s s' c).
  { destruct (derive_cancelled (CancelCtx (newCancelCtx parent)) parent d e s)
      as (s' & Hprop & _ & _ & Hb); auto.
    exists s', (next_ref s), (mkCancelFunc (next_ref s) true).
    split; [|done]. unfold WithCancel. simpl in *. by rewrite Hprop. }
  assert (HDl : ∀ dl, ∃ s' c f, WithDeadline (Some parent) dl s = Ok (s', c, f) ∧
                                born_cancelled e s s' c).
  { intros dl. unfold WithDeadline.
    destruct (Deadline_total parent s (proj1 Hwf)) as [cur Hcur].
    { by eapply Done_at_is_Some. }
    rewrite Hcur. simpl. destruct (from_option _ _ cur); [done|].
    destruct (derive_cancelled (TimerCtx (mkTimerCtx (newCancelCtx parent) None dl))
                parent d e s) as (s' & Hprop & Hwf' & Hnow & Hb); eauto.
    simpl in *. rewrite Hprop. simpl.
    pose proof Hb as (_ & _ & (cc' & Hg & He') & _).
    case_decide.
    - rewrite (cancel_dead _ cc') by eauto. simpl. eauto.
    - rewrite Hg, He'. eauto. }
  split; [done|]. split; [done|]. intros t. apply HDl.
Qed.

(** ** Timers are armed by [WithDeadline] only *)

Lemma timer_update c f s r :
  heap (update c f s) !! r ≫= timer_of = heap s !! r ≫= timer_of.
Proof.
  unfold update. simpl. rewrite lookup_alter. case_decide; [|done].
  subst. destruct (heap s !! r) as [x|]; [|done]. by destruct x.
Qed.

Lemma timer_Done_at c s s' d r :
  Done_at s c s' d → heap s' !! r ≫= timer_of = heap s !! r ≫= timer_of.
Proof.
  induction 1; try done. unfold alloc_done. st. apply timer_update.
Qed.

Lemma timer_marked c e d s r :
  heap (marked c e d s) !! r ≫= timer_of = heap s !! r ≫= timer_of.
Proof. unfold marked. st. apply timer_update. Qed.

Lemma timer_cancel_childless c cc e s s' r :
  wf_base s → heap s !! c = Some (CancelCtx cc) → c_err cc = None →
  c_children cc = None → cancel c false (Some e) s = Ok s' →
  heap s' !! r ≫= timer_of = heap s !! r ≫= timer_of.
Proof.
  intros Hwf Hx He Hk.
  rewrite (cancel_childless c cc) by (try done; unfold get; by rewrite Hx).
  intros [= <-]. rewrite update_timer_id.
  - by rewrite timer_update, timer_marked.
  - by rewrite timer_update, timer_marked, Hx.
Qed.

Lemma Done_at_kind c s s' d r cc :
  Done_at s c s' d → heap s !! r = Some (CancelCtx cc) →
  ∃ cc', heap s' !! r = Some (CancelCtx cc') ∧ c_err cc' = c_err cc ∧
         c_children cc' = c_children cc.
Proof.
  induction 1; eauto. intros Hr. unfold alloc_done. st.
  destruct (decide (c = r)) as [->|Hne].
  - exists (set_done (Some (next_chan s)) cc). split; [|done].
    apply heap_update_Some. left. split; [done|]. eauto.
  - exists cc. split; [|done]. apply heap_update_Some. by right.
Qed.

Lemma timer_propagateCancel parent child cc s s' r :
  wf_base s → heap s !! child = Some (CancelCtx cc) → c_err cc = None →
  c_children cc = None → propagateCancel parent child s = Ok s' →
  heap s' !! r ≫= timer_of = heap s !! r ≫= timer_of.
Proof.
  intros Hwf Hx He Hk (s1 & d & HD & H)%propagateCancel_inv.
  pose proof (Done_at_ex _ _ _ _ HD) as Hat.
  destruct (Done_at_wf (λ _, True) _ _ _ _ Hat Hwf) as [Hwf1 _].
  { split; naive_solver. }
  destruct (Done_at_kind _ _ _ _ _ _ Hat Hx) as (cc1 & Hx1 & He1 & Hk1).
  rewrite <- (timer_Done_at _ _ _ _ r Hat).
  destruct H as [[-> ->]|[(ch & e & -> & Hch & Herr & Hc)|
                          (ch & s2 & po & -> & Hch & HP & H)]]; [done| |].
  - destruct (cancel_Ok_inv _ _ _ _ _ Hc) as [_ [e' ->]].
    eapply timer_cancel_childless; [done..| | |done]; congruence.
  - pose proof HP as (d2 & HD2 & _)%parentCancelCtx_inv.
    destruct (Done_twice _ _ _ _ _ _ Hwf HD HD2) as [-> ->].
    destruct po as [p|].
    + destruct H as (pc & Hp & H). destruct (c_err pc) as [e|].
      * eapply timer_cancel_childless; [done..| | |done]; congruence.
      * subst s'. apply timer_update.
    + by subst s'.
Qed.

Lemma Deadline_Ok_is_Some c s d : Deadline c s = Ok d → is_Some (heap s !! c).
Proof. unfold Deadline. simpl. destruct (heap s !! c); [eauto|done]. Qed.

Lemma Err_Ok_is_Some c s e : Err c s = Ok e → is_Some (heap s !! c).
Proof. unfold Err. simpl. destruct (heap s !! c); [eauto|done]. Qed.

Lemma WithCancel_total parent s :
  wf s → is_Some (heap s !! parent) →
  ∃ s' f, WithCancel (Some parent) s = Ok (s', next_ref s, f).
Proof.
  intros [Hwf Hs] Hp. unfold WithCancel.
  destruct (wf_alloc_scope (λ _, False) (CancelCtx (newCancelCtx parent)) parent s)
    as (Hwf0 & Hs0 & Hget0); auto.
  simpl in *.
  destruct (propagateCancel_total (λ _, False) parent (next_ref s) _ Hwf0 Hs0)
    as [s' Hprop]; [by apply is_Some_heap_alloc|eauto|].
  simpl in Hprop. rewrite Hprop. simpl. eauto.
Qed.

(** C4, as amended.  The parent carries a deadline strictly earlier than
    the requested one: [WithDeadline] is [WithCancel]; it returns, the
    new scope is a plain [cancelCtx], and the timer of every object is
    what it was, so none was scheduled. *)
Theorem C4_earlier_deadline_degenerates s parent cur d :
  reachable s → Deadline parent s = Ok (Some cur) → cur < d →
  WithDeadline (Some parent) d s = WithCancel (Some parent) s ∧
  ∃ s' c f cc, WithDeadline (Some parent) d s = Ok (s', c, f) ∧
    heap s' !! c = Some (CancelCtx cc) ∧
    ∀ r, heap s' !! r ≫= timer_of = heap s !! r ≫= timer_of.
Proof.
  intros Hwf%reachable_wf Hcur Hlt.
  assert (WithDeadline (Some parent) d s = WithCancel (Some parent) s) as Heq.
  { unfold WithDeadline. rewrite Hcur. simpl. unfold Before.
    by rewrite bool_decide_eq_true_2. }
  split; [done|]. rewrite Heq.
  pose proof (Deadline_Ok_is_Some _ _ _ Hcur) as Hp.
  destruct (WithCancel_total parent s Hwf Hp) as (s' & f & HW).
  pose proof HW as (_ & _ & Hprop)%WithCancel_inv.
  set (x := CancelCtx (newCancelCtx parent)) in *.
  destruct (wf_alloc_scope (λ _, False) x parent s) as (Hwf0 & Hs0 & Hget0);
    [apply Hwf..|done|by left|].
  assert (heap (alloc x s).1 !! next_ref s = Some x) as Hx0.
  { apply heap_alloc_Some. by left. }
  assert (Htm : ∀ r, heap s' !! r ≫= timer_of = heap s !! r ≫= timer_of).
  { intros r.
    rewrite (timer_propagateCancel parent (next_ref s) (newCancelCtx parent)
               (alloc x s).1 s' r); try done.
    simpl. rewrite lookup_insert. case_decide; [|done].
    subst. by rewrite fresh_ref by apply Hwf. }
  destruct (propagateCancel_wf (λ _, False) _ _ _ _ Hwf0 Hs0 (mk_is_Some _ _ Hget0) Hprop)
    as (_ & _ & Hm & _).
  destruct (mn_heap _ _ Hm _ _ Hx0) as (x' & Hx' & He).
  destruct x' as [|cc'| | |]; try done.
  exists s', (next_ref s), f, cc'. auto.
Qed.

Lemma WithDeadline_timer parent d s cur :
  Deadline parent s = Ok cur →
  from_option (λ cur, Before cur d) false cur = false →
  WithDeadline (Some parent) d s =
    s1 ← propagateCancel parent (next_ref s)
           (alloc (TimerCtx (mkTimerCtx (newCancelCtx parent) None d)) s).1;
    if decide (d - now s1 ≤ 0) then
      s2 ← cancel (next_ref s) true (Some DeadlineExceeded) s1;
      Ok (s2, next_ref s, mkCancelFunc (next_ref s) false)
    else
      match get (next_ref s) s1 with
      | None => Panic
      | Some cc =>
        match c_err cc with
        | None =>
          Ok (update_timer (next_ref s) (λ _, Some (now s1 + (d - now s1))) s1,
              next_ref s, mkCancelFunc (next_ref s) true)
        | Some _ => Ok (s1, next_ref s, mkCancelFunc (next_ref s) true)
        end
      end.
Proof. intros Hcur Hfrom. unfold WithDeadline. by rewrite Hcur; simpl; rewrite Hfrom. Qed.

(** C5, as amended.  The requested deadline is not in the future, the
    parent's deadline does not pre-empt it, and the parent is not
    cancelled yet ([Err] is nil): [WithDeadline] returns a scope that is
    already cancelled with cause [DeadlineExceeded], not [Canceled], its
    channel closed; invoking the returned trigger changes nothing. *)
Theorem C5_past_deadline s parent cur d :
  reachable s → Deadline parent s = Ok cur → (∀ t, cur = Some t → ¬ t < d) →
  d - now s ≤ 0 → Err parent s = Ok None →
  ∃ s' c f, WithDeadline (Some parent) d s = Ok (s', c, f) ∧
    cancelled_with DeadlineExceeded c s' ∧ ¬ cancelled_with Canceled c s' ∧
    done_closed c s' ∧ call f s' = Ok s'.
Proof.
  intros Hwf%reachable_wf Hcur Hpre Hdur Herr.
  pose proof (Deadline_Ok_is_Some _ _ _ Hcur) as Hp.
  assert (from_option (λ cur, Before cur d) false cur = false) as Hfrom.
  { destruct cur as [t|]; [|done]. simpl. unfold Before.
    apply bool_decide_eq_false_2. by apply Hpre. }
  set (x := TimerCtx (mkTimerCtx (newCancelCtx parent) None d)).
  set (c := next_ref s).
  destruct (wf_alloc_scope (λ _, False) x parent s) as (Hwf0 & Hs0 & Hget0);
    [apply Hwf..|done|right; by eexists|].
  destruct (propagateCancel_total (λ _, False) parent c _ Hwf0 Hs0)
    as [s1 Hprop]; [by apply is_Some_heap_alloc|eauto|].
  destruct (propagateCancel_wf (λ _, False) _ _ _ _ Hwf0 Hs0 (mk_is_Some _ _ Hget0) Hprop)
    as (Hwf1 & Hs1 & _ & _ & Hnow).
  destruct (propagateCancel_live parent c (newCancelCtx parent) _ s1 Hwf0 Hget0)
    as (cc1 & Hget1 & He1); [done| |done|].
  { rewrite Err_alloc; [done|apply Hwf|done]. }
  destruct (cancel_live s1 c cc1 true DeadlineExceeded)
    as (s2 & cc2 & Hc & Hget2 & He2 & Hd2 & Hin2 & _); [by split|done..|].
  assert (WithDeadline (Some parent) d s = Ok (s2, c, mkCancelFunc c false)) as HW.
  { rewrite (WithDeadline_timer parent d s cur) by done.
    fold x c. rewrite Hprop. simpl.
    rewrite decide_True by (rewrite Hnow; done). by rewrite Hc. }
  exists s2, c, (mkCancelFunc c false). split; [done|].
  split; [by exists cc2|]. split.
  { intros (cc' & Hg & He'). congruence. }
  split; [by exists cc2, (default closedchan (c_done cc1))|].
  unfold call. simpl. eapply (cancel_dead c cc2); [|done|by rewrite He2].
  destruct (cancel_wf (λ _, False) _ _ _ _ _ Hwf1 Hs1 Hc) as (? & ? & _).
  by split.
Qed.


(** ** The watcher goroutine and its counter *)






Lemma watch_start_total parent child s :
  wf s → is_Some (heap s !! parent) → is_Some (get child s) →
  ∃ s' pd cd, watch_start parent child s =
                Ok (s', WatchBlocked parent child pd (Some cd)).
Proof.
  intros [Hwf Hs] Hp Hc. unfold watch_start.
  destruct (Done_total parent s Hwf Hp) as (s1 & pd & HD). rewrite HD. simpl.
  pose proof (Done_at_ex _ _ _ _ HD) as Hat.
  destruct (mono_is_Some_get _ _ child (Done_at_mono _ _ _ _ Hat) Hc) as [cc Hcc].
  unfold cancelCtx_Done. rewrite Hcc.
  destruct (c_done cc) as [cd|] eqn:Hcd; simpl; eauto.
Qed.













(** * Further properties of the package

    What the functions do on the paths the statements above do not
    follow: registration under a live ancestor, detachment, the timer
    that is armed, the panics, and what cancellation leaves alone. *)

(** ** Objects allocated meanwhile do not matter *)

Lemma alloc_done_alloc c x s :
  c ≠ next_ref s → alloc_done c (alloc x s).1 = (alloc x (alloc_done c s)).1.
Proof.
  intros Hne. apply state_eq; try done.
  unfold alloc_done, alloc, update. simpl. by rewrite alter_insert_ne.
Qed.

Lemma Done_at_alloc_any c s s' d x :
  Done_at s c s' d → wf_base s → Done_at (alloc x s).1 c (alloc x s').1 d.
Proof.
  assert (Hl : ∀ r y, heap s !! r = Some y → wf_base s →
            heap (alloc x s).1 !! r = Some y).
  { intros r y Hy Hwf. apply heap_alloc_Some. right. split; [|done].
    intros ->. by rewrite fresh_ref in Hy. }
  induction 1 as [c Hx|c f Hx|c cc d Hget Hd|c cc Hget Hd|c p k v s' d Hx H IH];
    intros Hwf.
  - constructor. auto.
  - constructor. auto.
  - econstructor; [|done]. apply get_Some in Hget as (y & Hy & Hc).
    apply get_Some. eauto.
  - assert (c ≠ next_ref s) as Hne.
    { intros ->. apply get_Some in Hget as (y & Hy & _).
      by rewrite fresh_ref in Hy. }
    rewrite <- alloc_done_alloc by done.
    apply (Done_at_new (alloc x s).1 c cc); [|done].
    rewrite get_alloc by done. by rewrite decide_False.
  - eapply Done_at_value; [by apply Hl|]. by apply IH.
Qed.

(** ** What no step changes: the answers of [Value] and [Deadline], and
    a channel that [Done] has handed out *)

Lemma Value_fuel_stable n c k s s' v :
  mono s s' → Value_fuel n c k s = Ok v → Value_fuel n c k s' = Ok v.
Proof.
  intros Hm. revert c. induction n as [|n IH]; intros c; [done|].
  cbn [Value_fuel]. destruct (heap s !! c) as [x|] eqn:Hx; [|done].
  destruct (mn_heap _ _ Hm c x Hx) as (x' & -> & He).
  destruct x as [|cc|t|p k' v'|f], x' as [|cc'|t'|p' k'' v''|f']; try done;
    simpl in He.
  - destruct He as (-> & _). case_decide; [done|]. apply IH.
  - destruct He as ((-> & _) & _). case_decide; [done|]. apply IH.
  - injection He as -> -> ->. case_decide; [done|]. apply IH.
  - destruct He as (_ & _ & -> & _). destruct (f_inner f); [apply IH|done].
Qed.

Lemma Value_stable c k s s' v :
  mono s s' → Value c k s = Ok v → Value c k s' = Ok v.
Proof. apply Value_fuel_stable. Qed.

Lemma Deadline_fuel_stable n c s s' d :
  mono s s' → Deadline_fuel n c s = Ok d → Deadline_fuel n c s' = Ok d.
Proof.
  intros Hm. revert c. induction n as [|n IH]; intros c; [done|].
  cbn [Deadline_fuel]. destruct (heap s !! c) as [x|] eqn:Hx; [|done].
  destruct (mn_heap _ _ Hm c x Hx) as (x' & -> & He).
  destruct x as [|cc|t|p k' v'|f], x' as [|cc'|t'|p' k'' v''|f']; try done;
    simpl in He.
  - destruct He as (-> & _). apply IH.
  - destruct He as (_ & ->). done.
  - injection He as -> -> ->. apply IH.
  - destruct He as (_ & -> & _). done.
Qed.

Lemma Deadline_stable c s s' d :
  mono s s' → Deadline c s = Ok d → Deadline c s' = Ok d.
Proof. apply Deadline_fuel_stable. Qed.


(** ** Discovery, once more *)

Lemma res_bind_Ok {A B} (a : A) (f : A → res B) : Ok a ≫= f = f a.
Proof. done. Qed.

Lemma wf_base_True_strong s : wf_strong (λ _, True) s.
Proof. split; naive_solver. Qed.

Lemma Done_wf_base c s s' d : wf_base s → Done c s = Ok (s', d) → wf_base s'.
Proof.
  intros Hwf HD%Done_at_ex.
  by destruct (Done_at_wf (λ _, True) _ _ _ _ HD Hwf (wf_base_True_strong s)).
Qed.

(** What [parentCancelCtx] does once [parent.Done()] has returned. *)
Lemma parentCancelCtx_Done parent s s1 d :
  Done parent s = Ok (s1, d) →
  parentCancelCtx parent s =
    if decide (d = Some closedchan ∨ d = None) then Ok (s1, None)
    else
      v ← Value parent cancelCtxKey s1;
      match v with
      | Some (VCancelCtx p) =>
        match get p s1 with
        | None => Panic
        | Some pc =>
          if decide (c_done pc = d) then Ok (s1, Some p) else Ok (s1, None)
        end
      | _ => Ok (s1, None)
      end.
Proof. intros HD. unfold parentCancelCtx. by rewrite HD. Qed.

Lemma parentCancelCtx_state parent s s1 po :
  parentCancelCtx parent s = Ok (s1, po) → ∃ d, Done parent s = Ok (s1, d).
Proof. intros (d & HD & _)%parentCancelCtx_inv. eauto. Qed.

(** A second search finds the same and creates nothing. *)
Lemma parentCancelCtx_again parent s s1 po :
  wf_base s → parentCancelCtx parent s = Ok (s1, po) →
  parentCancelCtx parent s1 = Ok (s1, po).
Proof.
  intros Hwf HP. pose proof HP as [d HD]%parentCancelCtx_state.
  rewrite (parentCancelCtx_Done _ _ _ _ HD) in HP.
  rewrite (parentCancelCtx_Done parent s1 s1 d); [done|].
  apply Done_at_Done; [|by eapply Done_wf_base].
  eapply Done_at_again; [by apply Done_at_ex|done].
Qed.

Lemma parentCancelCtx_alloc parent x s s1 po :
  wf_base s → wf_base (alloc x s).1 →
  parentCancelCtx parent s = Ok (s1, po) →
  parentCancelCtx parent (alloc x s).1 = Ok ((alloc x s1).1, po).
Proof.
  intros Hwf Hwf0 HP. pose proof HP as [d HD]%parentCancelCtx_state.
  pose proof (Done_wf_base _ _ _ _ Hwf HD) as Hwf1.
  rewrite (parentCancelCtx_Done _ _ _ _ HD) in HP.
  rewrite (parentCancelCtx_Done parent (alloc x s).1 (alloc x s1).1 d); last first.
  { apply Done_at_Done; [|done].
    apply Done_at_alloc_any; [by apply Done_at_ex|done]. }
  case_decide; [by injection HP as <-|].
  apply bind_Ok in HP as (v & HV & HP).
  rewrite (Value_stable _ _ s1 _ v) by (by apply mono_alloc || done).
  rewrite res_bind_Ok. destruct v as [[p|]|]; try by injection HP as <-.
  destruct (get p s1) as [pc|] eqn:Hp; [|done].
  rewrite get_alloc by done. rewrite decide_False; last first.
  { intros ->. apply get_Some in Hp as (y & Hy & _). by rewrite fresh_ref in Hy. }
  rewrite Hp. by case_decide; injection HP as <-.
Qed.

(** Once found, always found. *)
Lemma parentCancelCtx_stable parent s p s' :
  wf_base s → wf_base s' → mono s s' →
  parentCancelCtx parent s = Ok (s, Some p) →
  parentCancelCtx parent s' = Ok (s', Some p).
Proof.
  intros Hwf Hwf' Hm (d & HD & ch & pc & -> & Hne & HV & Hp & Hd)%parentCancelCtx_inv.
  destruct (mono_get _ _ _ _ Hm Hp) as (pc' & Hp' & _ & Hd' & _).
  rewrite (parentCancelCtx_Done parent s' s' (Some ch)).
  - rewrite decide_False by (intros [[= ?]|?]; done).
    rewrite (Value_stable _ _ s s' _ Hm HV), res_bind_Ok, Hp'.
    by rewrite decide_True by auto.
  - apply Done_at_Done; [|done]. eapply Done_at_stable; [|done].
    by apply Done_at_ex.
Qed.

(** ** Registration under a live ancestor *)

Lemma propagateCancel_register parent child s s1 p pc :
  wf_base s → parentCancelCtx parent s = Ok (s1, Some p) →
  get p s1 = Some pc → c_err pc = None →
  propagateCancel parent child s =
    Ok (update p (set_children (Some ({[child]} ∪ children_of pc))) s1).
Proof.
  intros Hwf HP Hp He.
  pose proof HP as (d & HD & ch & pc' & -> & Hne & HV & Hp' & Hd)%parentCancelCtx_inv.
  rewrite Hp in Hp'. injection Hp' as <-.
  pose proof (Done_wf_base _ _ _ _ Hwf HD) as Hwf1.
  pose proof (live_open p pc s1 Hwf1 Hp He ch Hd) as Hch.
  unfold propagateCancel. rewrite HD. simpl.
  rewrite decide_False by done.
  rewrite (parentCancelCtx_again _ _ _ _ Hwf HP). simpl.
  by rewrite Hp, He.
Qed.

Lemma parentCancelCtx_is_Some parent s s1 po :
  parentCancelCtx parent s = Ok (s1, po) → is_Some (heap s !! parent).
Proof.
  intros [d HD%Done_at_ex]%parentCancelCtx_state. by eapply Done_at_is_Some.
Qed.

Lemma WithCancel_unfold parent s :
  WithCancel (Some parent) s =
    s' ← propagateCancel parent (next_ref s)
           (alloc (CancelCtx (newCancelCtx parent)) s).1;
    Ok (s', next_ref s, mkCancelFunc (next_ref s) true).
Proof. done. Qed.

Lemma WithCancel_register s parent s1 p pc :
  wf s → parentCancelCtx parent s = Ok (s1, Some p) →
  get p s1 = Some pc → c_err pc = None →
  p ≠ next_ref s ∧
  WithCancel (Some parent) s =
    Ok (update p (set_children (Some ({[next_ref s]} ∪ children_of pc)))
          (alloc (CancelCtx (newCancelCtx parent)) s1).1,
        next_ref s, mkCancelFunc (next_ref s) true) ∧
  next_ref s1 = next_ref s ∧ wf_base s1.
Proof.
  intros [Hwf Hs] HP Hp He.
  pose proof (parentCancelCtx_is_Some _ _ _ _ HP) as Hpar.
  pose proof HP as [d HD]%parentCancelCtx_state.
  pose proof (Done_wf_base _ _ _ _ Hwf HD) as Hwf1.
  pose proof (Done_at_quiet _ _ _ _ (Done_at_ex _ _ _ _ HD)) as [Hn _ _ _].
  set (x := CancelCtx (newCancelCtx parent)).
  destruct (wf_alloc_scope (λ _, False) x parent s) as (Hwf0 & Hs0 & Hget0);
    [done..|by left|].
  assert (p ≠ next_ref s) as Hne.
  { intros ->. apply get_Some in Hp as (y & Hy & _).
    rewrite <- Hn in Hy. by rewrite fresh_ref in Hy. }
  split; [done|]. split; [|done].
  rewrite WithCancel_unfold. fold x.
  rewrite (propagateCancel_register parent (next_ref s) (alloc x s).1
             (alloc x s1).1 p pc); [done|done| | |done].
  - by apply parentCancelCtx_alloc.
  - rewrite get_alloc by done. rewrite decide_False by congruence. done.
Qed.

(** [WithCancel] under a live cancellable ancestor.  Discovery from
    [parent] finds the scope [p], which is not cancelled: the new scope
    is alive and has no channel yet, it is entered in the children map
    of [p] and in no other, no goroutine is started and the counter
    stays; and a later cancellation of [p], with any cause, reaches it
    with that cause. *)
Theorem WithCancel_registers_child s parent s1 p pc :
  reachable s →
  parentCancelCtx parent s = Ok (s1, Some p) →
  get p s1 = Some pc → c_err pc = None →
  ∃ s' c f, WithCancel (Some parent) s = Ok (s', c, f) ∧
    c = next_ref s ∧ heap s !! c = None ∧
    get c s' = Some (newCancelCtx parent) ∧
    get p s' = Some (set_children (Some ({[c]} ∪ children_of pc)) pc) ∧
    (∀ r, r ≠ p → r ≠ c → heap s' !! r = heap s1 !! r) ∧
    tasks s' = tasks s ∧ goroutines s' = goroutines s ∧
    (∀ b e, ∃ s'', cancel p b (Some e) s' = Ok s'' ∧ cancelled_with e c s'').
Proof.
  intros Hwf%reachable_wf HP Hp He.
  destruct (WithCancel_register s parent s1 p pc Hwf HP Hp He)
    as (Hne & HW & Hn & Hwf1).
  pose proof (parentCancelCtx_is_Some _ _ _ _ HP) as Hpar.
  pose proof HP as [d HD%Done_at_ex]%parentCancelCtx_state.
  pose proof (Done_at_quiet _ _ _ _ HD) as [_ _ Hg Ht].
  set (c := next_ref s) in *.
  set (x := CancelCtx (newCancelCtx parent)) in *.
  set (s' := update p _ _) in HW.
  destruct (WithCancel_wf (λ _, False) parent s s' c _ (proj1 Hwf) (proj2 Hwf) Hpar HW)
    as (Hwf' & Hs' & _).
  assert (get c s' = Some (newCancelCtx parent)) as Hc.
  { unfold s'. rewrite get_update_ne by done. rewrite get_alloc by done.
    by rewrite decide_True by done. }
  assert (get p s' =
            Some (set_children (Some ({[c]} ∪ children_of pc)) pc)) as Hp'.
  { unfold s'. rewrite get_update_eq, get_alloc by done.
    rewrite decide_False by congruence. by rewrite Hp. }
  exists s', c, (mkCancelFunc c true). split; [done|]. split; [done|].
  split; [by apply fresh_ref, Hwf|]. split; [done|]. split; [done|].
  split; [|split; [|split]].
  - intros r Hrp Hrc. unfold s', update. simpl.
    rewrite lookup_alter_ne by done. rewrite lookup_insert_ne; [done|].
    fold c in Hn. congruence.
  - unfold s'. st. done.
  - unfold s'. st. done.
  - intros b e.
    destruct (cancel_live s' p _ b e (conj Hwf' Hs') Hp' He)
      as (s'' & _ & Hcancel & _ & _ & _ & _ & _ & Hk & _).
    exists s''. split; [done|].
    apply (Hk c); [unfold children_of; simpl; set_solver|].
    intros (cc & Hcc & Hecc). rewrite Hc in Hcc. injection Hcc as <-.
    by destruct Hecc.
Qed.

(** ** Detachment *)

Lemma removeChild_kind parent child s s' c cc :
  wf_base s → removeChild parent child s = Ok s' →
  heap s !! c = Some (CancelCtx cc) → update_timer c (λ _, None) s' = s'.
Proof.
  intros Hwf Hrm Hx. apply update_timer_id.
  destruct (removeChild_wf (λ _, True) _ _ _ _ Hwf (wf_base_True_strong s) Hrm)
    as (_ & _ & Hm).
  by eapply mono_kind_CancelCtx.
Qed.

(** A live scope without children, cancelled by its trigger. *)
Lemma cancel_true_childless c cc e s :
  wf_base s → get c s = Some cc → c_err cc = None → c_children cc = None →
  cancel c true (Some e) s =
    s4 ← removeChild (c_Context cc) c
           (update c (set_children None)
              (marked c e (default closedchan (c_done cc)) s));
    Ok (update_timer c (λ _, None) s4).
Proof.
  intros Hwf Hget He Hk. unfold cancel. rewrite cancel_fuel_S.
  pose proof Hget as (y & Hy & Hc)%get_Some. rewrite Hy.
  assert (order (children_of cc) = []) as Ho.
  { unfold children_of. rewrite Hk. apply order_empty. }
  destruct y as [|c0|t| |]; try done; simpl in Hc; injection Hc as Hc; subst cc.
  - rewrite (cancelCtx_cancel_with_live _ _ c0) by done. rewrite Ho.
    cbn [foldM]. rewrite res_bind_Ok.
    set (sM := update c _ _).
    destruct (removeChild (c_Context c0) c sM) as [s4| |] eqn:Hrm; [|done..].
    rewrite res_bind_Ok. f_equal. symmetry.
    eapply (removeChild_kind _ _ sM s4 c (set_children None _)); [|done|].
    + unfold sM. eapply wf_base_update_children.
      * by eapply (wf_base_marked c c0).
      * rewrite get_marked, decide_True, Hget by done. done.
      * simpl. set_solver.
    + unfold sM, marked, update. simpl.
      rewrite !lookup_alter, !decide_True by done. by rewrite Hy.
  - unfold timerCtx_cancel_with.
    rewrite (cancelCtx_cancel_with_live _ _ (t_cancelCtx t)) by done.
    rewrite Ho. done.
Qed.

Lemma removeChild_found parent child s p pc :
  parentCancelCtx parent s = Ok (s, Some p) → get p s = Some pc →
  removeChild parent child s =
    Ok (match c_children pc with
        | None => s
        | Some X => update p (set_children (Some (X ∖ {[child]}))) s
        end).
Proof.
  intros HP Hp. unfold removeChild. rewrite HP, res_bind_Ok, Hp.
  by destruct (c_children pc).
Qed.

(** [WithCancel] under a live ancestor [p], then the trigger it
    returned: the new scope is cancelled with [Canceled], its channel is
    the closed one, and it has left the children map of [p], which holds
    what it held before the derivation; [p] is still alive, and no other
    object, no goroutine and no counter has changed. *)
Theorem WithCancel_then_trigger s parent s1 p pc :
  reachable s →
  parentCancelCtx parent s = Ok (s1, Some p) →
  get p s1 = Some pc → c_err pc = None →
  ∃ s' c f s'' pc'', WithCancel (Some parent) s = Ok (s', c, f) ∧
    call f s' = Ok s'' ∧
    cancelled_with Canceled c s'' ∧ done_closed c s'' ∧
    get p s'' = Some pc'' ∧ children_of pc'' = children_of pc ∧
    c_err pc'' = None ∧ c_done pc'' = c_done pc ∧
    (∀ r, r ≠ p → r ≠ c → heap s'' !! r = heap s1 !! r) ∧
    tasks s'' = tasks s ∧ goroutines s'' = goroutines s.
Proof.
  intros Hwf%reachable_wf HP Hp He.
  destruct (WithCancel_register s parent s1 p pc Hwf HP Hp He)
    as (Hne & HW & Hn & Hwf1).
  pose proof (parentCancelCtx_is_Some _ _ _ _ HP) as Hpar.
  pose proof HP as [d HD%Done_at_ex]%parentCancelCtx_state.
  pose proof (Done_at_quiet _ _ _ _ HD) as [_ _ Hg Ht].
  set (c := next_ref s) in *.
  set (x := CancelCtx (newCancelCtx parent)) in *.
  set (pc' := set_children (Some ({[c]} ∪ children_of pc)) pc).
  set (s' := update p _ _) in HW.
  destruct (WithCancel_wf (λ _, False) parent s s' c _ (proj1 Hwf) (proj2 Hwf) Hpar HW)
    as (Hwf' & Hs' & _).
  assert (get c s' = Some (newCancelCtx parent)) as Hc.
  { unfold s'. rewrite get_update_ne by done. rewrite get_alloc by done.
    by rewrite decide_True by done. }
  assert (heap s' !! c = Some x) as Hxc.
  { unfold s', update. simpl. rewrite lookup_alter_ne by done.
    fold c in Hn. rewrite Hn. by rewrite lookup_insert_eq. }
  assert (get p s' = Some pc') as Hp'.
  { unfold s'. rewrite get_update_eq, get_alloc by done.
    rewrite decide_False by congruence. by rewrite Hp. }
  assert (mono s1 s') as Hm1.
  { eapply mono_trans; [by apply (mono_alloc x)|].
    apply (mono_update p pc).
    - rewrite get_alloc by done. rewrite decide_False by congruence. done.
    - split; [done|]. split; [done|]. intros e. by rewrite He. }
  assert (Hother : ∀ r, r ≠ p → r ≠ c → heap s' !! r = heap s1 !! r).
  { intros r Hrp Hrc. unfold s', update. simpl.
    rewrite lookup_alter_ne by done. rewrite lookup_insert_ne; [done|].
    fold c in Hn. congruence. }
  assert (tasks s' = tasks s1 ∧ goroutines s' = goroutines s1) as [Ht' Hg'].
  { unfold s'. st. done. }
  clearbody s'.
  set (sM := update c (set_children None) (marked c Canceled closedchan s')).
  assert (cancel c false (Some Canceled) s' = Ok sM) as Hcf.
  { rewrite (cancel_childless c (newCancelCtx parent)) by done.
    f_equal. apply update_timer_id. unfold marked, update. simpl.
    rewrite !lookup_alter, !decide_True by done. by rewrite Hxc. }
  destruct (cancel_wf (λ _, False) _ _ _ _ _ Hwf' Hs' Hcf)
    as (HwfM & _ & HmM & _ & _).
  assert (parentCancelCtx parent sM = Ok (sM, Some p)) as HPM.
  { apply (parentCancelCtx_stable parent s1); [done..| |].
    - by eapply mono_trans.
    - apply (parentCancelCtx_again parent s); [apply Hwf|done]. }
  assert (get p sM = Some pc') as HpM.
  { unfold sM. rewrite get_update_ne by done.
    rewrite get_marked, decide_False by done. done. }
  assert (get c sM =
            Some (set_children None
                    (set_done (Some closedchan)
                       (set_err (Some Canceled) (newCancelCtx parent))))) as HcM.
  { unfold sM. rewrite get_update_eq, get_marked, decide_True, Hc by done. done. }
  set (s4 := update p (set_children (Some (({[c]} ∪ children_of pc) ∖ {[c]}))) sM).
  assert (call (mkCancelFunc c true) s' = Ok (update_timer c (λ _, None) s4)) as Hcall.
  { unfold call. simpl.
    rewrite (cancel_true_childless c (newCancelCtx parent)) by done.
    simpl. fold sM. by rewrite (removeChild_found parent c sM p pc'). }
  assert (c ∉ children_of pc) as Hfresh.
  { intros Hin. destruct (wb_children _ Hwf1 p pc c Hp Hin) as [y Hy].
    apply get_Some in Hy as (z & Hz & _). rewrite <- Hn in Hz.
    by rewrite fresh_ref in Hz. }
  exists s', c, (mkCancelFunc c true), (update_timer c (λ _, None) s4),
    (set_children (Some (({[c]} ∪ children_of pc) ∖ {[c]})) pc').
  split; [done|]. split; [done|].
  split; [|split; [|split; [|split; [|split; [|split; [|split; [|split]]]]]]].
  - eexists. rewrite get_update_timer. unfold s4. rewrite get_update_ne by done.
    split; [exact HcM|done].
  - eexists _, closedchan. rewrite get_update_timer. unfold s4.
    rewrite get_update_ne by done. split; [exact HcM|]. split; [done|].
    st. unfold sM, marked. st. set_solver.
  - rewrite get_update_timer. unfold s4. by rewrite get_update_eq, HpM.
  - unfold children_of. simpl. fold (children_of pc). set_solver.
  - done.
  - done.
  - intros r Hrp Hrc. rewrite <- Hother by done.
    unfold s4, sM, marked, update_timer, update. simpl.
    by rewrite !lookup_alter_ne by done.
  - unfold s4, sM, marked. st. st. congruence.
  - unfold s4, sM, marked. st. st. congruence.
Qed.

(** ** A scope from its derivation to its cancellation *)

(** [Done] on a live scope: the channel it answers is open. *)
Lemma Done_live c cc s :
  wf s → get c s = Some cc → c_err cc = None →
  ∃ s2 d cc2, Done c s = Ok (s2, Some d) ∧ wf s2 ∧ mono s s2 ∧
    get c s2 = Some cc2 ∧ c_done cc2 = Some d ∧ c_err cc2 = None ∧
    c_children cc2 = c_children cc ∧ c_Context cc2 = c_Context cc ∧
    (d ∉ closed s2).
Proof.
  intros Hwf Hget He.
  assert (∃ s2 d, Done_at s c s2 (Some d) ∧ ∃ cc2, get c s2 = Some cc2 ∧
            c_done cc2 = Some d ∧ c_err cc2 = None ∧
            c_children cc2 = c_children cc ∧ c_Context cc2 = c_Context cc)
    as (s2 & d & Hat & cc2 & Hget2 & Hd2 & He2 & Hk2 & Hp2).
  { destruct (c_done cc) as [d|] eqn:Hd.
    - exists s, d. split; [by eapply Done_at_old|]. by exists cc.
    - exists (alloc_done c s), (next_chan s). split; [by eapply Done_at_new|].
      exists (set_done (Some (next_chan s)) cc).
      unfold alloc_done. st. by rewrite get_update_eq, Hget. }
  pose proof (Done_at_Done _ _ _ _ Hat (proj1 Hwf)) as HD.
  assert (wf s2) as Hwf2.
  { apply (step_wf_mono s); [done|]. by eapply step_Done. }
  exists s2, d, cc2. split; [done|]. split; [done|].
  split; [by eapply Done_at_mono|].
  do 5 (split; [done|]). by apply (live_open c cc2 s2 (proj1 Hwf2)).
Qed.

(** [WithCancel] on a parent that is not cancelled, [Done] on the new
    scope, then the trigger.  The scope comes out alive; [Done] hands
    out an open channel; the trigger closes this very channel and
    records [Canceled]; [Done] still answers the same channel. *)
Theorem WithCancel_Done_trigger s parent :
  reachable s → Err parent s = Ok None →
  ∃ s1 c f s2 d s3, WithCancel (Some parent) s = Ok (s1, c, f) ∧
    Err c s1 = Ok None ∧
    Done c s1 = Ok (s2, Some d) ∧ (d ∉ closed s2) ∧ Err c s2 = Ok None ∧
    call f s2 = Ok s3 ∧ d ∈ closed s3 ∧
    Done c s3 = Ok (s3, Some d) ∧ Err c s3 = Ok (Some Canceled).
Proof.
  intros Hwf%reachable_wf Herr. pose proof Hwf as [Hb Hs].
  pose proof (Err_Ok_is_Some _ _ _ Herr) as Hpar.
  destruct (WithCancel_total parent s Hwf Hpar) as (s1 & f & HW).
  pose proof HW as (_ & -> & Hprop)%WithCancel_inv.
  set (c := next_ref s) in *.
  set (x := CancelCtx (newCancelCtx parent)) in *.
  destruct (wf_alloc_scope (λ _, False) x parent s Hb Hs Hpar) as (Hwf0 & Hs0 & Hget0);
    [by left|].
  destruct (WithCancel_wf (λ _, False) parent s s1 c _ Hb Hs Hpar HW)
    as (Hb1 & Hs1 & _).
  destruct (propagateCancel_live parent c (newCancelCtx parent) _ s1 Hwf0 Hget0)
    as (cc1 & Hget1 & He1); [done| |done|].
  { by rewrite Err_alloc. }
  destruct (Done_live c cc1 s1) as
    (s2 & d & cc2 & HD & Hwf2 & _ & Hget2 & Hd2 & He2 & _ & _ & Hopen);
    [by split|done..|].
  destruct (cancel_live s2 c cc2 true Canceled Hwf2 Hget2 He2)
    as (s3 & cc3 & Hc & Hget3 & He3 & Hd3 & Hin3 & _).
  rewrite Hd2 in Hd3, Hin3. simpl in Hd3, Hin3.
  exists s1, c, (mkCancelFunc c true), s2, d, s3.
  split; [done|]. split; [by rewrite (Err_get c cc1), He1|].
  split; [done|]. split; [done|].
  split; [by rewrite (Err_get c cc2), He2|]. split; [done|]. split; [done|].
  split.
  - rewrite (Done_cancelCtx_Done c cc3) by done. by apply (cancelCtx_Done_old c cc3).
  - by rewrite (Err_get c cc3), He3.
Qed.

(** ** A parent that is never cancelled *)

Lemma Done_at_None c s s' : Done_at s c s' None → s' = s.
Proof.
  intros H. remember None as d eqn:Hd. induction H; auto; done.
Qed.

Lemma removeChild_not_found parent child s :
  parentCancelCtx parent s = Ok (s, None) → removeChild parent child s = Ok s.
Proof. intros HP. unfold removeChild. by rewrite HP. Qed.

(** [WithCancel] on a parent whose [Done] is nil, such as [Background]:
    the store gains the new scope and nothing else, so nothing is
    registered and no goroutine is started; the trigger then cancels the
    new scope with [Canceled] and leaves every other object, the pool of
    goroutines and the counter as they were. *)
Theorem WithCancel_nil_Done_parent s parent s0 :
  reachable s → Done parent s = Ok (s0, None) →
  ∃ s' c f s'', WithCancel (Some parent) s = Ok (s', c, f) ∧
    s' = (alloc (CancelCtx (newCancelCtx parent)) s).1 ∧ c = next_ref s ∧
    call f s' = Ok s'' ∧ cancelled_with Canceled c s'' ∧
    (∀ r, r ≠ c → heap s'' !! r = heap s !! r) ∧
    tasks s'' = tasks s ∧ goroutines s'' = goroutines s.
Proof.
  intros Hwf%reachable_wf HD%Done_at_ex. pose proof Hwf as [Hb Hs].
  pose proof (Done_at_None _ _ _ HD) as ->.
  pose proof (Done_at_is_Some _ _ _ _ HD) as Hpar.
  set (c := next_ref s).
  set (x := CancelCtx (newCancelCtx parent)).
  destruct (wf_alloc_scope (λ _, False) x parent s Hb Hs Hpar) as (Hwf0 & Hs0 & Hget0);
    [by left|].
  fold c in Hget0.
  assert (Done_at (alloc x s).1 parent (alloc x s).1 None) as HD0
    by (by apply Done_at_alloc_any).
  assert (WithCancel (Some parent) s = Ok ((alloc x s).1, c, mkCancelFunc c true))
    as HW.
  { rewrite WithCancel_unfold. fold x c. unfold propagateCancel.
    by rewrite (Done_at_Done _ _ _ _ HD0 Hwf0). }
  assert (heap (alloc x s).1 !! c = Some x) as Hxc.
  { apply heap_alloc_Some. by left. }
  assert (Hother : ∀ r, r ≠ c → heap (alloc x s).1 !! r = heap s !! r).
  { intros r Hr. by apply heap_alloc_ne. }
  assert (tasks (alloc x s).1 = tasks s ∧ goroutines (alloc x s).1 = goroutines s)
    as [Ht Hg] by done.
  set (s' := (alloc x s).1) in *. clearbody s'.
  set (sM := update c (set_children None) (marked c Canceled closedchan s')).
  assert (cancel c false (Some Canceled) s' = Ok sM) as Hcf.
  { rewrite (cancel_childless c (newCancelCtx parent)) by done.
    f_equal. apply update_timer_id. unfold marked, update. simpl.
    rewrite !lookup_alter, !decide_True by done. by rewrite Hxc. }
  destruct (cancel_wf (λ _, False) _ _ _ _ _ Hwf0 Hs0 Hcf)
    as (HwfM & _ & HmM & _ & HcM).
  assert (parentCancelCtx parent sM = Ok (sM, None)) as HPM.
  { rewrite (parentCancelCtx_Done parent sM sM None).
    - by rewrite decide_True by auto.
    - apply Done_at_Done; [|done]. by eapply Done_at_stable. }
  assert (call (mkCancelFunc c true) s' = Ok (update_timer c (λ _, None) sM)) as Hcall.
  { unfold call. simpl.
    rewrite (cancel_true_childless c (newCancelCtx parent)) by done.
    simpl. fold sM. by rewrite (removeChild_not_found parent c sM). }
  exists s', c, (mkCancelFunc c true), (update_timer c (λ _, None) sM).
  split; [done|]. split; [done|]. split; [done|]. split; [done|].
  split; [|split; [|split]].
  - eexists. rewrite get_update_timer. unfold sM.
    rewrite get_update_eq, get_marked, decide_True, Hget0 by done.
    split; [done|]. done.
  - intros r Hr. rewrite <- Hother by done.
    unfold sM, marked, update_timer, update. simpl.
    by rewrite !lookup_alter_ne by done.
  - unfold sM, marked. st. st. done.
  - unfold sM, marked. st. st. done.
Qed.

(** ** Panics *)

Lemma cancel_nil c b s : is_Some (get c s) → cancel c b None s = Panic.
Proof.
  intros [cc (x & Hx & Hc)%get_Some]. unfold cancel. rewrite cancel_fuel_S, Hx.
  by destruct x.
Qed.

(** [cancel] on a scope of a reachable store panics exactly when the
    cause is nil, be the scope cancelled already or not; with any other
    cause it returns: [close] is never applied to a closed channel. *)
Theorem cancel_panics_iff_nil_cause s c b err :
  reachable s → is_Some (get c s) →
  (cancel c b err s = Panic ↔ err = None) ∧
  (∀ e, err = Some e → ∃ s', cancel c b err s = Ok s').
Proof.
  intros Hwf%reachable_wf Hc.
  assert (∀ e, err = Some e → ∃ s', cancel c b err s = Ok s') as Hok.
  { intros e ->.
    destruct (cancel_spec (λ _, False) c b e s (proj1 Hwf) (proj2 Hwf) Hc)
      as (_ & s' & _ & H & _). eauto. }
  split; [|done]. split.
  - destruct err as [e|]; [|done]. destruct (Hok e eq_refl) as [s' ->]. done.
  - intros ->. by apply cancel_nil.
Qed.

Lemma WithDeadline_total parent d s :
  wf s → is_Some (heap s !! parent) →
  ∃ s' c f, WithDeadline (Some parent) d s = Ok (s', c, f).
Proof.
  intros Hwf Hp. pose proof Hwf as [Hb Hs].
  destruct (Deadline_total parent s Hb Hp) as [cur Hcur].
  destruct (from_option (λ cur, Before cur d) false cur) eqn:Hfrom.
  { unfold WithDeadline. rewrite Hcur. simpl. rewrite Hfrom.
    destruct (WithCancel_total parent s Hwf Hp) as (s' & f & HW). eauto. }
  rewrite (WithDeadline_timer parent d s cur) by done.
  set (x := TimerCtx _).
  destruct (wf_alloc_scope (λ _, False) x parent s) as (Hwf0 & Hs0 & Hget);
    [done..|right; by eexists|].
  destruct (propagateCancel_total (λ _, False) parent (next_ref s) _ Hwf0 Hs0)
    as [s1 Hprop]; [by apply is_Some_heap_alloc|eauto|].
  destruct (propagateCancel_wf _ _ _ _ _ Hwf0 Hs0 (mk_is_Some _ _ Hget) Hprop)
    as (Hwf1 & Hs1 & Hm1 & _).
  rewrite Hprop, res_bind_Ok.
  destruct (mono_is_Some_get _ _ (next_ref s) Hm1 (mk_is_Some _ _ Hget)) as [cc Hcc].
  case_decide.
  - destruct (cancel_spec (λ _, False) (next_ref s) true DeadlineExceeded s1 Hwf1 Hs1)
      as (_ & s2 & _ & -> & _); [eauto|]. rewrite res_bind_Ok. eauto.
  - rewrite Hcc. destruct (c_err cc); eauto.
Qed.

(** The derivations on a reachable store panic exactly when the parent
    is nil; on a parent that exists each of them returns. *)
Theorem derivation_panics_iff_nil_parent s parent d t :
  reachable s → (∀ p, parent = Some p → is_Some (heap s !! p)) →
  (WithCancel parent s = Panic ↔ parent = None) ∧
  (WithDeadline parent d s = Panic ↔ parent = None) ∧
  (WithTimeout parent t s = Panic ↔ parent = None) ∧
  (is_Some parent →
     (∃ r, WithCancel parent s = Ok r) ∧ (∃ r, WithDeadline parent d s = Ok r) ∧
     (∃ r, WithTimeout parent t s = Ok r)).
Proof.
  intros Hwf%reachable_wf Hp. destruct parent as [p|].
  - specialize (Hp p eq_refl).
    destruct (WithCancel_total p s Hwf Hp) as (s1 & f1 & H1).
    destruct (WithDeadline_total p d s Hwf Hp) as (s2 & c2 & f2 & H2).
    destruct (WithDeadline_total p (now s + t) s Hwf Hp) as (s3 & c3 & f3 & H3).
    unfold WithTimeout. rewrite H1, H2, H3.
    split; [by split|]. split; [by split|]. split; [by split|].
    intros _. split; [eauto|]. split; eauto.
  - split; [by split|]. split; [by split|]. split; [by split|]. by intros [? ?].
Qed.

(** ** [removeChild] *)

Lemma update_same p pc f s : get p s = Some pc → f pc = pc → update p f s = s.
Proof.
  intros (x & Hx & Hc)%get_Some Hf. apply state_eq; try done.
  unfold update. simpl. apply alter_id. intros y Hy.
  rewrite Hx in Hy. injection Hy as <-.
  destruct x as [|c0|t| |]; try done; simpl in Hc; injection Hc as Hc; subst pc;
    simpl; rewrite Hf; [done|by destruct t].
Qed.

(** [removeChild] on a reachable store returns.  When discovery from
    [parent] finds the scope [p], [child] is gone from the children map
    of [p], whose other entries and other fields stay, and no other
    object changes; when it finds nothing the store is untouched.  A
    second call changes nothing; channels, goroutines and the counter
    are never affected. *)
Theorem removeChild_detaches s parent child :
  reachable s → is_Some (heap s !! parent) →
  ∃ s1 po s', parentCancelCtx parent s = Ok (s1, po) ∧
    removeChild parent child s = Ok s' ∧
    removeChild parent child s' = Ok s' ∧
    (po = None → s' = s) ∧
    (∀ p pc, po = Some p → get p s1 = Some pc →
       ∃ pc', get p s' = Some pc' ∧
         children_of pc' = children_of pc ∖ {[child]} ∧
         c_err pc' = c_err pc ∧ c_done pc' = c_done pc ∧
         c_Context pc' = c_Context pc) ∧
    (∀ r, po ≠ Some r → heap s' !! r = heap s1 !! r) ∧
    closed s' = closed s ∧ tasks s' = tasks s ∧ goroutines s' = goroutines s.
Proof.
  intros Hwf%reachable_wf Hpar. pose proof Hwf as [Hb Hs].
  destruct (parentCancelCtx_total parent s Hb Hpar) as (s1 & po & HP).
  destruct (parentCancelCtx_wf _ _ _ _ _ Hb Hs HP) as (Hb1 & Hs1 & _).
  pose proof (parentCancelCtx_again _ _ _ _ Hb HP) as HP1.
  pose proof HP as [d HD%Done_at_ex]%parentCancelCtx_state.
  pose proof (Done_at_quiet _ _ _ _ HD) as [_ _ Hg Ht].
  pose proof (Done_at_closed _ _ _ _ HD) as Hcl.
  exists s1, po. destruct po as [p|].
  - pose proof HP as (_ & _ & _ & pc & _ & _ & _ & Hp & _)%parentCancelCtx_inv.
    destruct (c_children pc) as [X|] eqn:HX.
    + set (s' := update p (set_children (Some (X ∖ {[child]}))) s1).
      assert (removeChild parent child s = Ok s') as Hrm.
      { unfold removeChild. by rewrite HP, res_bind_Ok, Hp, HX. }
      destruct (removeChild_wf _ _ _ _ _ Hb Hs Hrm) as (Hb' & _ & _).
      assert (get p s' = Some (set_children (Some (X ∖ {[child]})) pc)) as Hp'.
      { unfold s'. by rewrite get_update_eq, Hp. }
      assert (mono s1 s') as Hm.
      { apply (mono_update p pc); [done|]. split; [done|]. split; [done|].
        intros e He. split; [done|]. by rewrite HX. }
      exists s'. split; [done|]. split; [done|]. split.
      { rewrite (removeChild_found parent child s' p _
                   (parentCancelCtx_stable _ _ _ _ Hb1 Hb' Hm HP1) Hp').
        simpl. f_equal. apply (update_same p _ _ _ Hp').
        unfold set_children. simpl. do 2 f_equal. set_solver. }
      split; [done|]. split.
      { intros p0 pc0 [= <-] Hp0. rewrite Hp in Hp0. injection Hp0 as <-.
        eexists. split; [exact Hp'|]. unfold children_of. simpl.
        by rewrite HX. }
      split.
      { intros r Hr. unfold s', update. simpl. rewrite lookup_alter_ne; [done|].
        congruence. }
      unfold s'. st. done.
    + assert (removeChild parent child s = Ok s1) as Hrm.
      { unfold removeChild. by rewrite HP, res_bind_Ok, Hp, HX. }
      exists s1. split; [done|]. split; [done|]. split.
      { rewrite (removeChild_found parent child s1 p pc) by done. by rewrite HX. }
      split; [done|]. split.
      { intros p0 pc0 [= <-] Hp0. rewrite Hp in Hp0. injection Hp0 as <-.
        exists pc. split; [done|]. unfold children_of. rewrite HX. simpl.
        split; [set_solver|done]. }
      done.
  - pose proof (parentCancelCtx_None _ _ _ Hb HP) as ->.
    exists s. split; [done|].
    rewrite (removeChild_not_found parent child s) by done.
    split; [done|]. split; [done|]. split; [done|]. split; [done|]. done.
Qed.

(** ** Invariants of the reachable stores *)


(** Two scopes never share a channel made by [Done]: the only channel
    that several scopes can hold is [closedchan], which [cancel] installs
    in a scope cancelled before its first [Done]; [closedchan] is closed
    and every channel made by [Done] differs from it. *)
Theorem done_channels_are_not_shared s :
  reachable s →
  closedchan ∈ closed s ∧
  (∀ r r' c c' d, get r s = Some c → get r' s = Some c' →
     c_done c = Some d → c_done c' = Some d → d ≠ closedchan → r = r') ∧
  (∀ c cc s' d, get c s = Some cc → c_done cc = None →
     Done c s = Ok (s', d) →
     d ≠ Some closedchan ∧ ∀ r cr, get r s = Some cr → c_done cr ≠ d).
Proof.
  intros Hwf%reachable_wf. pose proof Hwf as [Hb _].
  split; [apply Hb|]. split.
  - intros r r' c c' d (x & Hx & Hc)%get_Some (x' & Hx' & Hc')%get_Some Hd Hd' Hne.
    apply (wb_chan_owner _ Hb r r' x x' d); try done.
    + by rewrite (chan_of_cancelCtx x c).
    + by rewrite (chan_of_cancelCtx x' c').
  - intros c cc s' d Hget Hd. rewrite (Done_cancelCtx_Done c cc) by done.
    unfold cancelCtx_Done. rewrite Hget, Hd. intros [= <- <-].
    pose proof (wb_closed_alloc _ Hb _ (wb_closedchan _ Hb)) as Hlt.
    split.
    + intros [= Heq]. unfold closedchan in *. lia.
    + intros r cr (x & Hx & Hc)%get_Some Hcr.
      pose proof (wb_chan_alloc _ Hb r x (next_chan s) Hx) as Hlt'.
      rewrite (chan_of_cancelCtx x cr) in Hlt' by done. specialize (Hlt' Hcr). lia.
Qed.

(** ** What no step changes *)

(** Once discovery from [parent] has found the scope [p], it finds [p]
    after any further steps, and creates nothing. *)
Theorem discovery_is_stable s parent s1 p :
  reachable s → parentCancelCtx parent s = Ok (s1, Some p) →
  ∀ s2, steps s1 s2 → parentCancelCtx parent s2 = Ok (s2, Some p).
Proof.
  intros Hr HP s2 Hst. pose proof (reachable_wf _ Hr) as Hwf.
  pose proof HP as [d HD]%parentCancelCtx_state.
  assert (wf s1) as Hwf1.
  { apply (step_wf_mono s); [done|]. by eapply step_Done. }
  destruct (steps_wf_mono _ _ Hwf1 Hst) as [Hwf2 Hm].
  apply (parentCancelCtx_stable parent s1); [apply Hwf1|apply Hwf2|done|].
  apply (parentCancelCtx_again parent s); [apply Hwf|done].
Qed.

(** The answers of [Value] and of [Deadline] never change: what a
    context answers in a reachable store it answers after any steps. *)
Theorem Value_and_Deadline_never_change s c s' :
  reachable s → steps s s' →
  (∀ k v, Value c k s = Ok v → Value c k s' = Ok v) ∧
  (∀ d, Deadline c s = Ok d → Deadline c s' = Ok d).
Proof.
  intros Hwf%reachable_wf Hst. destruct (steps_wf_mono _ _ Hwf Hst) as [_ Hm].
  split.
  - intros k v. by apply Value_stable.
  - intros d. by apply Deadline_stable.
Qed.

(** ** Deadlines and timers *)

Lemma WithCancel_mono_alloc parent s s' c f :
  wf s → is_Some (heap s !! parent) →
  WithCancel (Some parent) s = Ok (s', c, f) →
  c = next_ref s ∧ mono (alloc (CancelCtx (newCancelCtx parent)) s).1 s'.
Proof.
  intros [Hb Hs] Hp (-> & _ & Hprop)%WithCancel_inv. split; [done|].
  destruct (wf_alloc_scope (λ _, False) (CancelCtx (newCancelCtx parent)) parent s)
    as (Hwf0 & Hs0 & Hget); [done..|by left|].
  by destruct (propagateCancel_wf _ _ _ _ _ Hwf0 Hs0 (mk_is_Some _ _ Hget) Hprop)
    as (_ & _ & Hm & _).
Qed.

Lemma WithDeadline_mono_alloc parent d s cur s' c f :
  wf s → Deadline parent s = Ok cur →
  from_option (λ cur, Before cur d) false cur = false →
  WithDeadline (Some parent) d s = Ok (s', c, f) →
  c = next_ref s ∧
  mono (alloc (TimerCtx (mkTimerCtx (newCancelCtx parent) None d)) s).1 s'.
Proof.
  intros [Hb Hs] Hcur Hfrom.
  pose proof (Deadline_Ok_is_Some _ _ _ Hcur) as Hp.
  rewrite (WithDeadline_timer parent d s cur) by done.
  set (x := TimerCtx _). intros (s1 & Hprop & H)%bind_Ok.
  destruct (wf_alloc_scope (λ _, False) x parent s) as (Hwf0 & Hs0 & Hget);
    [done..|right; by eexists|].
  destruct (propagateCancel_wf _ _ _ _ _ Hwf0 Hs0 (mk_is_Some _ _ Hget) Hprop)
    as (Hwf1 & Hs1 & Hm1 & _).
  case_decide.
  - apply bind_Ok in H as (s2 & Hc & [= <- <- <-]). split; [done|].
    destruct (cancel_wf _ _ _ _ _ _ Hwf1 Hs1 Hc) as (_ & _ & Hm2 & _).
    by eapply mono_trans.
  - destruct (get (next_ref s) s1) as [cc|]; [|done].
    destruct (c_err cc); injection H as <- <- <-; (split; [done|]); [done|].
    eapply mono_trans; [done|apply mono_update_timer].
Qed.

Lemma Deadline_CancelCtx c cc s d :
  wf_base s → heap s !! c = Some (CancelCtx cc) →
  Deadline (c_Context cc) s = Ok d → Deadline c s = Ok d.
Proof.
  intros Hwf Hx Hd. unfold Deadline. cbn [Deadline_fuel]. rewrite Hx.
  eapply Deadline_fuel_mono; [exact Hd|].
  destruct (wb_parent _ Hwf c _ (c_Context cc) Hx eq_refl). lia.
Qed.

Lemma WithDeadline_deadline s parent cur d :
  wf s → Deadline parent s = Ok cur →
  ∃ s' c f, WithDeadline (Some parent) d s = Ok (s', c, f) ∧ wf s' ∧
    Deadline c s' = Ok (Some (from_option (Z.min d) d cur)).
Proof.
  intros Hwf Hcur. pose proof Hwf as [Hb Hs].
  pose proof (Deadline_Ok_is_Some _ _ _ Hcur) as Hp.
  destruct (WithDeadline_total parent d s Hwf Hp) as (s' & c & f & HW).
  destruct (WithDeadline_wf (λ _, False) _ _ _ _ _ _ Hb Hs Hp HW) as (Hb' & Hs' & Hm).
  exists s', c, f. split; [done|]. split; [done|].
  destruct (from_option (λ cur, Before cur d) false cur) eqn:Hfrom.
  - destruct cur as [t|]; [|done]. simpl in Hfrom.
    apply bool_decide_eq_true_1 in Hfrom.
    assert (WithCancel (Some parent) s = Ok (s', c, f)) as HWc.
    { rewrite <- HW. unfold WithDeadline. rewrite Hcur. simpl. unfold Before.
      by rewrite bool_decide_eq_true_2. }
    destruct (WithCancel_mono_alloc _ _ _ _ _ Hwf Hp HWc) as [-> Hm0].
    destruct (mn_heap _ _ Hm0 (next_ref s) (CancelCtx (newCancelCtx parent)))
      as (x' & Hx' & He); [apply heap_alloc_Some; by left|].
    destruct x' as [|cc'| | |]; try done. destruct He as (Hctx & _).
    simpl in Hctx. apply (Deadline_CancelCtx _ cc'); [done..|].
    rewrite Hctx. simpl. rewrite Z.min_r by lia.
    by apply (Deadline_stable _ s).
  - destruct (WithDeadline_mono_alloc _ _ _ _ _ _ _ Hwf Hcur Hfrom HW) as [-> Hm0].
    destruct (mn_heap _ _ Hm0 (next_ref s)
                (TimerCtx (mkTimerCtx (newCancelCtx parent) None d)))
      as (x' & Hx' & He); [apply heap_alloc_Some; by left|].
    destruct x' as [| |t'| |]; try done. destruct He as (_ & Hdl).
    simpl in Hdl. unfold Deadline. cbn [Deadline_fuel]. rewrite Hx', Hdl.
    do 2 f_equal. destruct cur as [t|]; [|done]. simpl in *.
    apply bool_decide_eq_false_1 in Hfrom. lia.
Qed.

(** The deadline of the scope that [WithDeadline] returns is the earlier
    of the requested one and the parent's, whether the scope is a timer
    scope or a plain one, and it stays so; [WithTimeout] counts the
    requested one from the current instant. *)
Theorem derived_deadline_is_the_earlier s parent cur d t :
  reachable s → Deadline parent s = Ok cur →
  (∃ s' c f, WithDeadline (Some parent) d s = Ok (s', c, f) ∧
     ∀ s'', steps s' s'' →
       Deadline c s'' = Ok (Some (from_option (Z.min d) d cur))) ∧
  (∃ s' c f, WithTimeout (Some parent) t s = Ok (s', c, f) ∧
     ∀ s'', steps s' s'' →
       Deadline c s'' =
         Ok (Some (from_option (Z.min (now s + t)) (now s + t) cur))).
Proof.
  intros Hwf%reachable_wf Hcur.
  assert (∀ d, ∃ s' c f, WithDeadline (Some parent) d s = Ok (s', c, f) ∧
            ∀ s'', steps s' s'' →
              Deadline c s'' = Ok (Some (from_option (Z.min d) d cur))) as H.
  { intros d0.
    destruct (WithDeadline_deadline s parent cur d0 Hwf Hcur)
      as (s' & c & f & HW & Hwf' & Hd).
    exists s', c, f. split; [done|]. intros s'' Hst.
    destruct (steps_wf_mono _ _ Hwf' Hst) as [_ Hm].
    by apply (Deadline_stable _ s'). }
  split; [apply H|]. unfold WithTimeout. apply H.
Qed.


(** ** Cancellation stays inside the subtree *)

Lemma shrinks_refl s : shrinks s s.
Proof. intros r cr Hr. by exists cr. Qed.

Lemma shrinks_trans s1 s2 s3 : shrinks s1 s2 → shrinks s2 s3 → shrinks s1 s3.
Proof.
  intros H12 H23 r c3 Hr.
  destruct (H23 r c3 Hr) as (c2 & Hr2 & Hs2).
  destruct (H12 r c2 Hr2) as (c1 & Hr1 & Hs1).
  exists c1. split; [done|set_solver].
Qed.

Lemma shrinks_heap s s' : heap s' = heap s → shrinks s s'.
Proof. intros Hh r cr. unfold get. rewrite Hh. intros Hr. by exists cr. Qed.

Lemma shrinks_update c f s :
  (∀ cc, children_of (f cc) ⊆ children_of cc) → shrinks s (update c f s).
Proof.
  intros Hf r cr'. rewrite get_update. case_decide; [|by exists cr'].
  destruct (get r s) as [cr|]; [|done]. intros [= <-]. exists cr. auto.
Qed.

Lemma shrinks_update_timer c f s : shrinks s (update_timer c f s).
Proof. intros r cr'. rewrite get_update_timer. by exists cr'. Qed.

Lemma descendant_shrinks s s' a b :
  shrinks s s' → descendant s' a b → descendant s a b.
Proof.
  intros Hsh. induction 1 as [a cc k Hget Hk|a cc k k' Hget Hk _ IH].
  - destruct (Hsh a cc Hget) as (cc0 & Hget0 & Hsub).
    apply (descendant_child s a cc0 k); [done|set_solver].
  - destruct (Hsh a cc Hget) as (cc0 & Hget0 & Hsub).
    apply (descendant_trans s a cc0 k k'); [done|set_solver|done].
Qed.

Lemma descendant_step s c cc k r :
  get c s = Some cc → k ∈ children_of cc → r = k ∨ descendant s k r →
  descendant s c r.
Proof.
  intros Hget Hk [->|Hd]; [by eapply descendant_child|by eapply descendant_trans].
Qed.

Lemma confined_refl c s : confined c s s.
Proof. split; [done|apply shrinks_refl|done|auto]. Qed.

Lemma foldM_confined (rec : ref → bool → option error → state → res state) e l s s' :
  (∀ k s s', rec k false (Some e) s = Ok s' → confined k s s') →
  foldM (λ k, rec k false (Some e)) l s = Ok s' →
  shrinks s s' ∧
  (∀ r, (∀ k, k ∈ l → r ≠ k ∧ ¬ descendant s k r) → heap s' !! r = heap s !! r) ∧
  (∀ r cr', get r s' = Some cr' → c_err cr' = None → get r s = Some cr') ∧
  (∀ d, d ∈ closed s' →
     d ∈ closed s ∨
     ∃ k r cr, k ∈ l ∧ (r = k ∨ descendant s k r) ∧ get r s = Some cr ∧
               c_err cr = None ∧ c_done cr = Some d).
Proof.
  intros Hrec. revert s. induction l as [|a l IH]; intros s; simpl.
  - intros [= <-]. split; [apply shrinks_refl|]. auto.
  - intros (sa & Ha & Hl)%bind_Ok.
    destruct (Hrec _ _ _ Ha) as [Hfa Hsa Hla Hca].
    destruct (IH _ Hl) as (Hsl & Hfl & Hll & Hcl).
    split; [by eapply shrinks_trans|]. split; [|split].
    + intros r Hr. rewrite Hfl.
      * apply Hfa; apply (Hr a); left.
      * intros k Hk. destruct (Hr k) as [Hne Hnd]; [by right|].
        split; [done|]. intros Hd. apply Hnd. by eapply descendant_shrinks.
    + intros r cr' Hr He. apply Hla; [|done]. by apply Hll.
    + intros d Hd. destruct (Hcl d Hd) as [Hin|(k & r & cr & Hk & Hrk & Hr & He & Hdn)].
      * destruct (Hca d Hin) as [?|(r & cr & Hra & Hr & He & Hdn)]; [by left|].
        right. exists a, r, cr. split; [left|]. done.
      * right. exists k, r, cr. split; [by right|]. split.
        { destruct Hrk as [->|Hdk]; [by left|right].
          by eapply descendant_shrinks. }
        split; [by apply Hla|done].
Qed.

Lemma close_heap d s s' : close d s = Ok s' → heap s' = heap s.
Proof. unfold close. case_decide; [done|]. by intros [= <-]. Qed.

Lemma close_closed d s s' : close d s = Ok s' → closed s' = {[d]} ∪ closed s.
Proof. unfold close. case_decide; [done|]. by intros [= <-]. Qed.

Lemma get_heap_eq r s s' : heap s' = heap s → get r s' = get r s.
Proof. unfold get. by intros ->. Qed.

Lemma cancelCtx_cancel_with_shape
    (rec : ref → bool → option error → state → res state) c b e s s' :
  (∀ k s s', rec k false (Some e) s = Ok s' → confined k s s') →
  cancelCtx_cancel_with rec c b (Some e) s = Ok s' →
  ∃ s3, confined c s s3 ∧
    (s' = s3 ∨ (b = true ∧ ∃ q, removeChild q c s3 = Ok s')).
Proof.
  intros Hrec. unfold cancelCtx_cancel_with.
  destruct (get c s) as [cc|] eqn:Hget; [|done].
  destruct (c_err cc) as [e0|] eqn:He.
  { intros [= <-]. exists s. split; [apply confined_refl|by left]. }
  intros (s1 & H1 & (s2 & Hfold & H)%bind_Ok)%bind_Ok.
  set (sA := update c (set_err (Some e)) s) in *.
  assert (Hg1 : ∀ r, get r s1 =
            if decide (c = r)
            then Some (set_done (Some (default closedchan (c_done cc)))
                         (set_err (Some e) cc))
            else get r s).
  { intros r. destruct (c_done cc) as [d|] eqn:Hd.
    - rewrite (get_heap_eq r sA s1) by (by eapply close_heap).
      unfold sA. rewrite get_update. case_decide; [|done]. subst r.
      rewrite Hget. simpl. by rewrite <- Hd; destruct cc.
    - injection H1 as <-. unfold sA. rewrite !get_update.
      case_decide; [|done]. subst r. by rewrite Hget. }
  assert (Hfr1 : ∀ r, r ≠ c → heap s1 !! r = heap s !! r).
  { intros r Hr. destruct (c_done cc).
    - rewrite (close_heap _ _ _ H1). unfold sA, update. simpl.
      by rewrite lookup_alter_ne.
    - injection H1 as <-. unfold sA, update. simpl.
      by rewrite !lookup_alter_ne. }
  assert (shrinks s s1) as Hs1.
  { intros r cr'. rewrite Hg1. case_decide; [|by exists cr'].
    subst r. intros [= <-]. by exists cc. }
  assert (Hc1 : ∀ d, d ∈ closed s1 → d ∈ closed s ∨ c_done cc = Some d).
  { intros d. destruct (c_done cc) as [d0|].
    - rewrite (close_closed _ _ _ H1). unfold sA. st. set_solver.
    - injection H1 as <-. unfold sA. st. auto. }
  destruct (foldM_confined rec e _ _ _ Hrec Hfold) as (Hs2 & Hfr2 & Hl2 & Hc2).
  assert (Hkid : ∀ k r, k ∈ order (children_of cc) →
            r = k ∨ descendant s1 k r → descendant s c r).
  { intros k r Hk%elem_of_order [->|Hd]; [by eapply descendant_child|].
    eapply descendant_trans; [done..|]. by eapply descendant_shrinks. }
  set (s3 := update c (set_children None) s2) in *.
  exists s3. split.
  - split.
    + intros r Hrc Hnd. unfold s3, update. simpl. rewrite lookup_alter_ne by done.
      rewrite Hfr2; [by apply Hfr1|].
      intros k Hk. split.
      * intros ->. apply Hnd. apply (Hkid k k Hk). by left.
      * intros Hd. apply Hnd. apply (Hkid k r Hk). by right.
    + eapply shrinks_trans; [exact Hs1|]. eapply shrinks_trans; [exact Hs2|].
      apply shrinks_update. intros cc0. unfold children_of. simpl. set_solver.
    + intros r cr'. unfold s3. rewrite get_update.
      assert (∀ cr, get r s2 = Some cr → c_err cr = None → get r s = Some cr)
        as Hlive.
      { intros cr Hr Hecr. pose proof (Hl2 r cr Hr Hecr) as Hr1.
        rewrite Hg1 in Hr1. case_decide; [|done].
        injection Hr1 as <-. done. }
      case_decide as Hcr; [|apply Hlive]. subst r.
      destruct (get c s2) as [c2|] eqn:Hc2'; [|done]. simpl. intros [= <-] He2.
      specialize (Hlive c2 eq_refl He2). rewrite Hget in Hlive.
      injection Hlive as <-. exfalso.
      pose proof (Hl2 c cc Hc2' He) as Hr1. rewrite Hg1, decide_True in Hr1 by done.
      injection Hr1 as Hr1. apply (f_equal c_err) in Hr1. simpl in Hr1. congruence.
    + intros d. unfold s3. st. intros Hd.
      destruct (Hc2 d Hd) as [Hin|(k & r & cr & Hk & Hrk & Hr & Hecr & Hdn)].
      * destruct (Hc1 d Hin) as [?|Hdc]; [by left|].
        right. exists c, cc. auto.
      * right. exists r, cr. split; [right; by apply (Hkid k)|].
        rewrite Hg1 in Hr. case_decide; [|done].
        injection Hr as <-. done.
  - destruct b; [right|left; by injection H as <-]. split; [done|]. eauto.
Qed.

Lemma cancel_fuel_confined n c e s s' :
  cancel_fuel n c false (Some e) s = Ok s' → confined c s s'.
Proof.
  revert c s s'. induction n as [|n IH]; intros c s s'; [done|].
  rewrite cancel_fuel_S.
  destruct (heap s !! c) as [[|cc|t| |]|] eqn:Hx; try done.
  - intros (s3 & Hc & [->|[[=] _]])%cancelCtx_cancel_with_shape; done.
  - unfold timerCtx_cancel_with.
    intros (sT & (s3 & [Hfr Hsh Hl Hcl] & [->|[[=] _]])%cancelCtx_cancel_with_shape
            & [= <-])%bind_Ok; [|done].
    split.
    + intros r Hrc Hnd. unfold update_timer. simpl.
      rewrite lookup_alter_ne by done. by apply Hfr.
    + eapply shrinks_trans; [done|apply shrinks_update_timer].
    + intros r cr'. rewrite get_update_timer. apply Hl.
    + intros d. st. apply Hcl.
Qed.

Lemma Done_at_other c s s' d r x :
  Done_at s c s' d → heap s !! r = Some x → cancelCtx_of x = None →
  heap s' !! r = Some x.
Proof.
  induction 1; auto. intros Hx Hn. unfold alloc_done. st.
  apply heap_update_Some. destruct (decide (c = r)) as [->|Hne]; [|by right].
  left. split; [done|]. exists x. split; [done|]. by destruct x.
Qed.

(** What [removeChild] may change in a scope: one entry less in its
    children map, and a channel more. *)
Lemma removeChild_frame parent child s s' :
  removeChild parent child s = Ok s' →
  (∀ r cr, get r s = Some cr →
     ∃ cr', get r s' = Some cr' ∧ c_err cr' = c_err cr ∧
       c_Context cr' = c_Context cr ∧
       children_of cr ∖ {[child]} ⊆ children_of cr' ∧
       children_of cr' ⊆ children_of cr) ∧
  (∀ r x, heap s !! r = Some x → cancelCtx_of x = None → heap s' !! r = Some x).
Proof.
  intros (s1 & po & HP & H)%removeChild_inv.
  pose proof HP as [d HD%Done_at_ex]%parentCancelCtx_state.
  assert (H1 : ∀ r cr, get r s = Some cr →
            ∃ cr', get r s1 = Some cr' ∧ c_err cr' = c_err cr ∧
              c_Context cr' = c_Context cr ∧ children_of cr' = children_of cr).
  { intros r cr Hr.
    destruct (Done_at_get _ _ _ _ _ _ HD Hr) as (cr' & Hr' & He & Hk & Hc).
    exists cr'. unfold children_of. by rewrite Hk. }
  destruct H as [->|(p & pc & X & -> & Hp & HX & ->)].
  - split.
    + intros r cr Hr. destruct (H1 r cr Hr) as (cr' & Hr' & He & Hc & Hk).
      exists cr'. rewrite Hk. split; [done|]. split; [done|]. split; [done|].
      split; set_solver.
    + intros r x Hx Hn. by eapply Done_at_other.
  - split.
    + intros r cr Hr. destruct (H1 r cr Hr) as (cr' & Hr' & He & Hc & Hk).
      rewrite get_update. case_decide as Hpr; [|exists cr'; rewrite Hk; set_solver].
      subst r. rewrite Hr'. simpl. eexists. split; [done|]. simpl.
      rewrite Hp in Hr'. injection Hr' as <-.
      split; [done|]. split; [done|]. unfold children_of in *. simpl.
      rewrite HX in Hk. simpl in Hk. rewrite <- Hk. set_solver.
    + intros r x Hx Hn. apply heap_update_Some.
      pose proof (Done_at_other _ _ _ _ _ _ HD Hx Hn) as Hx1.
      destruct (decide (p = r)) as [->|Hne]; [|by right].
      left. split; [done|]. exists x. split; [done|]. by destruct x.
Qed.

(** [cancel] changes nothing outside the subtree registered below its
    scope.  A scope that is neither [c] nor a descendant of [c] keeps
    its cause, its parent and its children, except that the trigger
    ([removeFromParent] true) takes [c] out of a children map; with
    [removeFromParent] false such an object is untouched altogether; and
    a context that is not a cancellable scope is never touched. *)
Theorem cancel_is_confined_to_the_subtree s c b e s' r :
  cancel c b (Some e) s = Ok s' → r ≠ c → ¬ descendant s c r →
  (b = false → heap s' !! r = heap s !! r) ∧
  (∀ cr, get r s = Some cr →
     ∃ cr', get r s' = Some cr' ∧ c_err cr' = c_err cr ∧
       c_Context cr' = c_Context cr ∧
       children_of cr ∖ {[c]} ⊆ children_of cr' ∧
       children_of cr' ⊆ children_of cr) ∧
  (∀ x, heap s !! r = Some x → cancelCtx_of x = None → heap s' !! r = Some x).
Proof.
  intros Hc Hrc Hnd.
  assert (∃ s3 s4, confined c s s3 ∧
            (s4 = s3 ∨ (b = true ∧ ∃ q, removeChild q c s3 = Ok s4)) ∧
            heap s' !! r = heap s4 !! r) as (s3 & s4 & [Hfr _ _ _] & H34 & Hr').
  { unfold cancel in Hc. rewrite cancel_fuel_S in Hc.
    destruct (heap s !! c) as [[|cc|t| |]|] eqn:Hx; try done.
    - apply cancelCtx_cancel_with_shape in Hc as (s3 & Hconf & H);
        [|intros ? ? ?; apply cancel_fuel_confined].
      exists s3, s'. done.
    - unfold timerCtx_cancel_with in Hc. apply bind_Ok in Hc as (sT & Hc & [= <-]).
      apply cancelCtx_cancel_with_shape in Hc as (s3 & Hconf & H);
        [|intros ? ? ?; apply cancel_fuel_confined].
      exists s3, sT. split; [done|]. split; [done|].
      unfold update_timer. simpl. by rewrite lookup_alter_ne. }
  specialize (Hfr r Hrc Hnd).
  assert (Hget' : get r s' = get r s4) by (unfold get; by rewrite Hr').
  destruct H34 as [->|[-> [q Hrm]]].
  - split; [intros _; congruence|]. split.
    + intros cr Hr. exists cr. rewrite Hget'. unfold get in *. rewrite Hfr.
      split; [done|]. split; [done|]. split; [done|]. split; set_solver.
    + intros x Hx _. congruence.
  - destruct (removeChild_frame _ _ _ _ Hrm) as [Hsc Hot].
    split; [done|]. split.
    + intros cr Hr. rewrite Hget'. apply Hsc. unfold get in *. by rewrite Hfr.
    + intros x Hx Hn. rewrite Hr'. apply Hot; [|done]. by rewrite Hfr.
Qed.

(** ** Values *)

Lemma Value_CancelCtx c cc k s v :
  wf_base s → heap s !! c = Some (CancelCtx cc) → k ≠ cancelCtxKey →
  Value (c_Context cc) k s = Ok v → Value c k s = Ok v.
Proof.
  intros Hwf Hx Hk Hv. unfold Value. cbn [Value_fuel]. rewrite Hx.
  rewrite decide_False by done.
  eapply Value_fuel_mono; [exact Hv|].
  destruct (wb_parent _ Hwf c _ (c_Context cc) Hx eq_refl). lia.
Qed.

(** The scope that [WithCancel] returns answers the key of the package
    with itself, every other key as its parent does, and [Deadline] as
    its parent does. *)
Theorem WithCancel_inherits s parent :
  reachable s → is_Some (heap s !! parent) →
  ∃ s' c f, WithCancel (Some parent) s = Ok (s', c, f) ∧
    Value c cancelCtxKey s' = Ok (Some (VCancelCtx c)) ∧
    (∀ k, k ≠ cancelCtxKey → Value c k s' = Value parent k s) ∧
    Deadline c s' = Deadline parent s.
Proof.
  intros Hwf%reachable_wf Hp. pose proof Hwf as [Hb Hs].
  destruct (WithCancel_total parent s Hwf Hp) as (s' & f & HW).
  destruct (WithCancel_wf (λ _, False) _ _ _ _ _ Hb Hs Hp HW) as (Hb' & _ & Hm).
  destruct (WithCancel_mono_alloc _ _ _ _ _ Hwf Hp HW) as [_ Hm0].
  destruct (mn_heap _ _ Hm0 (next_ref s) (CancelCtx (newCancelCtx parent)))
    as (x' & Hx' & He); [apply heap_alloc_Some; by left|].
  destruct x' as [|cc'| | |]; try done. destruct He as (Hctx & _).
  simpl in Hctx.
  exists s', (next_ref s), f. split; [done|]. split; [|split].
  - apply (Value_self _ cc'). unfold get. by rewrite Hx'.
  - intros k Hk. destruct (Value_total parent k s Hb Hp) as [v Hv]. rewrite Hv.
    apply (Value_CancelCtx _ cc'); [done..|]. rewrite Hctx.
    by apply (Value_stable _ _ s).
  - destruct (Deadline_total parent s Hb Hp) as [d Hd]. rewrite Hd.
    apply (Deadline_CancelCtx _ cc'); [done..|]. rewrite Hctx.
    by apply (Deadline_stable _ s).
Qed.

Lemma Value_fuel_alloc_new n parent k v k' s :
  Value_fuel (S n) (next_ref s) k' (alloc (ValueCtx parent k v) s).1 =
    if decide (k = k') then Ok (Some v)
    else Value_fuel n parent k' (alloc (ValueCtx parent k v) s).1.
Proof.
  cbn [Value_fuel].
  replace (heap (alloc (ValueCtx parent k v) s).1 !! next_ref s)
    with (Some (ValueCtx parent k v)); [done|].
  symmetry. apply heap_alloc_Some. by left.
Qed.

(** [WithValue] panics on a nil parent, on a nil key and on a key that
    is not comparable.  Otherwise it returns a new context and changes
    no object, channel, goroutine or counter; the new context answers
    its key with its value and every other key as its parent does, the
    key of the package included, so that discovery looks through it. *)
Theorem WithValue_binds_one_key s parent n v :
  reachable s → is_Some (heap s !! parent) →
  WithValue None (Some (UserKey n)) v s = Panic ∧
  WithValue (Some parent) None v s = Panic ∧
  (∀ u, WithValue (Some parent) (Some (UncomparableKey u)) v s = Panic) ∧
  ∃ s' c, WithValue (Some parent) (Some (UserKey n)) v s = Ok (s', c) ∧
    heap s !! c = None ∧
    (∀ r x, heap s !! r = Some x → heap s' !! r = Some x) ∧
    closed s' = closed s ∧ tasks s' = tasks s ∧ goroutines s' = goroutines s ∧
    Value c (UserKey n) s' = Ok (Some v) ∧
    (∀ k, k ≠ UserKey n → Value c k s' = Value parent k s).
Proof.
  intros Hwf%reachable_wf Hp. pose proof Hwf as [Hb Hs].
  split; [done|]. split; [done|]. split; [done|].
  exists (alloc (ValueCtx parent (UserKey n) v) s).1, (next_ref s).
  split; [done|].
  split; [by apply fresh_ref|]. split.
  { intros r y Hy. apply heap_alloc_Some. right. split; [|done].
    intros ->. by rewrite fresh_ref in Hy. }
  split; [done|]. split; [done|]. split; [done|].
  destruct Hp as [y Hy]. pose proof (wb_dom _ Hb _ _ Hy) as Hlt.
  split.
  - unfold Value. rewrite (Value_fuel_alloc_new _ parent).
    by rewrite decide_True.
  - intros k Hk. unfold Value at 1.
    rewrite (Value_fuel_alloc_new _ parent).
    rewrite decide_False by congruence.
    destruct (Value_total parent k s Hb (mk_is_Some _ _ Hy)) as [w Hw].
    rewrite Hw. eapply Value_fuel_mono; [|exact Hlt].
    apply (Value_stable _ _ s); [by apply mono_alloc|done].
Qed.

(** ** The trigger of a registered scope *)

Lemma cancel_true_live c cc e s :
  wf s → get c s = Some cc → c_err cc = None →
  ∃ s3 s4 s', cancel c true (Some e) s = Ok s' ∧
    wf_base s3 ∧ cancels e s s3 ∧
    removeChild (c_Context cc) c s3 = Ok s4 ∧
    ∀ r, get r s' = get r s4.
Proof.
  intros [Hwf Hs] Hget He.
  pose proof Hget as (x & Hx & Hc)%get_Some.
  destruct (cancel_core (size (heap s)) (λ _, False) c cc e s)
    as (s2 & Hfold & Hwf3 & _ & Hc3 & _); [done..|apply size_live|].
  set (s3 := update c (set_children None) s2) in *.
  assert (is_Some (heap s3 !! c_Context cc)) as Hpar.
  { eapply mono_is_Some_heap; [by eapply cancels_mono|].
    eapply (wb_parent _ Hwf c x); [done|]. by destruct x; simplify_eq/=. }
  destruct (removeChild_total (c_Context cc) c s3 Hwf3 Hpar) as [s4 Hrm].
  exists s3, s4. unfold cancel. rewrite cancel_fuel_S, Hx.
  destruct x as [|c0|t| |]; try done; simpl in Hc; injection Hc as Hc; subst cc.
  - exists s4. rewrite (cancelCtx_cancel_with_live _ _ c0), Hfold by done.
    rewrite res_bind_Ok. fold s3. done.
  - exists (update_timer c (λ _, None) s4). unfold timerCtx_cancel_with.
    rewrite (cancelCtx_cancel_with_live _ _ (t_cancelCtx t)), Hfold by done.
    rewrite res_bind_Ok. fold s3. rewrite Hrm, res_bind_Ok.
    split; [done|]. split; [done|]. split; [done|]. split; [done|].
    intros r. apply get_update_timer.
Qed.

(** The trigger of a live scope that discovery relates to the ancestor
    [p]: the scope is cancelled with the cause and it is no longer in
    the children map of [p]. *)
Theorem trigger_leaves_the_children_map s c cc p e :
  reachable s → get c s = Some cc → c_err cc = None →
  parentCancelCtx (c_Context cc) s = Ok (s, Some p) →
  ∃ s' pc', cancel c true (Some e) s = Ok s' ∧ cancelled_with e c s' ∧
    get p s' = Some pc' ∧ c ∉ children_of pc'.
Proof.
  intros Hwf%reachable_wf Hget He HP.
  destruct (cancel_true_live c cc e s Hwf Hget He)
    as (s3 & s4 & s' & Hc & Hwf3 & Hcn & Hrm & Hg).
  destruct (cancel_live s c cc true e Hwf Hget He)
    as (s'' & cc' & Hc' & Hget' & He' & _).
  rewrite Hc in Hc'. injection Hc' as <-.
  pose proof (parentCancelCtx_stable _ _ _ _ (proj1 Hwf) Hwf3
                (cancels_mono _ _ _ Hcn) HP) as HP3.
  pose proof HP3 as (_ & _ & _ & pc3 & _ & _ & _ & Hp3 & _)%parentCancelCtx_inv.
  rewrite (removeChild_found _ c s3 p pc3 HP3 Hp3) in Hrm.
  injection Hrm as Hrm.
  assert (∃ pc', get p s4 = Some pc' ∧ c ∉ children_of pc') as (pc' & Hp' & Hnot).
  { destruct (c_children pc3) as [X|] eqn:HX; subst s4.
    - rewrite get_update_eq, Hp3. simpl. eexists. split; [done|].
      unfold children_of. simpl. set_solver.
    - exists pc3. split; [done|]. unfold children_of. rewrite HX. set_solver. }
  exists s', pc'. split; [done|]. split; [by exists cc'|].
  by rewrite Hg.
Qed.

(** ** The order in which the children are visited does not matter *)

Lemma cancel_false_post c e s s' :
  wf s → cancel c false (Some e) s = Ok s' → cancel_post c e s s'.
Proof.
  intros Hwf Hc. pose proof Hwf as [Hb Hs].
  destruct (cancel_Ok_inv _ _ _ _ _ Hc) as [Hsome _].
  destruct (cancel_spec (λ _, False) c false e s Hb Hs Hsome)
    as (s1 & s2 & H1 & H2 & Hb' & Hs' & Hcn & Hcd & _).
  rewrite Hc in H1, H2. injection H1 as <-. injection H2 as <-.
  split; [by split|]. split; [done|]. split; [by eapply cancel_fuel_confined|].
  intros r [->|Hd]; [done|]. by eapply cancels_descendants.
Qed.

Lemma cancel_post_object c e s s' r x cr x' c' :
  wf s → cancel_post c e s s' →
  heap s !! r = Some x → cancelCtx_of x = Some cr →
  heap s' !! r = Some x' → cancelCtx_of x' = Some c' →
  (is_Some (c_err cr) → x' = x) ∧
  (c_err cr = None → is_Some (c_err c') → x' = killed e x).
Proof.
  intros Hwf (Hwf' & Hcn & _ & _) Hx Hcr Hx' Hc'.
  destruct (cn_scope _ _ _ Hcn r x cr Hx Hcr)
    as (x2 & c2 & Hx2 & Hc2 & Hkc & Hkt & Hsame & Hn).
  rewrite Hx' in Hx2. injection Hx2 as <-. rewrite Hc' in Hc2. injection Hc2 as <-.
  split.
  - intros He. specialize (Hsame He). subst c'.
    destruct x as [|c0|t| |]; try done; simpl in Hcr; injection Hcr as <-.
    + by rewrite (Hkc c0 eq_refl).
    + destruct (Hkt t eq_refl) as (tm & -> & Htm). f_equal.
      assert (t_timer t = None) as Ht.
      { apply (cancelled_timer_stopped s r t); [done..|].
        exists (t_cancelCtx t). split; [|done]. unfold get. by rewrite Hx. }
      destruct t as [tc tt td]. simpl in *. f_equal. destruct Htm; congruence.
  - intros He He'. destruct (Hn He) as [->|(Herr & Hdone & _ & Hkids & Hctx & _)].
    { rewrite He in He'. by destruct He'. }
    assert (c' = mkCancelCtx (c_Context cr) (Some (default closedchan (c_done cr)))
                   None (Some e)) as ->.
    { destruct c'. simpl in *. by subst. }
    destruct x as [|c0|t| |]; try done; simpl in Hcr; injection Hcr as <-.
    + by rewrite (Hkc c0 eq_refl).
    + destruct (Hkt t eq_refl) as (tm & -> & _). simpl. do 2 f_equal.
      apply (cancelled_timer_stopped s' r _ Hwf' Hx').
      eexists. split; [unfold get; by rewrite Hx'|]. simpl. eauto.
Qed.




(** Stopping a timer commutes with what [removeChild] does. *)
Lemma update_update_timer r g c f s :
  update r g (update_timer c f s) = update_timer c f (update r g s).
Proof.
  apply state_eq; try done. unfold update, update_timer. simpl.
  apply map_eq. intros i. rewrite !lookup_alter.
  repeat case_decide; simplify_eq; try done;
    by destruct (heap s !! _) as [[| | | |]|].
Qed.

Lemma Done_fuel_update_timer n r c f s :
  Done_fuel n r (update_timer c f s) =
    '(s', d) ← Done_fuel n r s; Ok (update_timer c f s', d).
Proof.
  revert r. induction n as [|n IH]; intros r; [done|]. cbn [Done_fuel].
  assert (heap (update_timer c f s) !! r =
            (if decide (c = r) then map_timer f else id) <$> heap s !! r) as ->.
  { unfold update_timer. simpl. rewrite lookup_alter.
    case_decide; [by subst|]. by destruct (heap s !! r). }
  assert (cancelCtx_Done r (update_timer c f s) =
            '(s', d) ← cancelCtx_Done r s; Ok (update_timer c f s', d)) as HD.
  { unfold cancelCtx_Done. rewrite get_update_timer.
    destruct (get r s) as [cc|]; [|done]. destruct (c_done cc); [done|].
    simpl. by rewrite update_update_timer. }
  destruct (heap s !! r) as [[| | | |]|]; simpl; try done;
    case_decide; simpl; try done; apply IH.
Qed.

Lemma Value_fuel_update_timer n r k c f s :
  Value_fuel n r k (update_timer c f s) = Value_fuel n r k s.
Proof.
  revert r. induction n as [|n IH]; intros r; [done|]. cbn [Value_fuel].
  assert (heap (update_timer c f s) !! r =
            (if decide (c = r) then map_timer f else id) <$> heap s !! r) as ->.
  { unfold update_timer. simpl. rewrite lookup_alter.
    case_decide; [by subst|]. by destruct (heap s !! r). }
  destruct (heap s !! r) as [[| | | |]|]; simpl; try done;
    destruct (decide (c = r)); simpl; try done;
    repeat case_decide; try done; try apply IH;
    by destruct (f_inner _).
Qed.

Lemma parentCancelCtx_update_timer parent c f s :
  parentCancelCtx parent (update_timer c f s) =
    '(s', po) ← parentCancelCtx parent s; Ok (update_timer c f s', po).
Proof.
  unfold parentCancelCtx, Done, Value. rewrite Done_fuel_update_timer.
  destruct (Done_fuel (S parent) parent s) as [[s1 d]| |]; [|done..].
  rewrite !res_bind_Ok. cbv beta iota. case_decide; [done|].
  rewrite Value_fuel_update_timer.
  destruct (Value_fuel (S parent) parent cancelCtxKey s1) as [[[p|]|]| |];
    try done.
  rewrite !res_bind_Ok. rewrite get_update_timer.
  destruct (get p s1); [|done]. by case_decide.
Qed.

Lemma removeChild_update_timer parent child c f s :
  removeChild parent child (update_timer c f s) =
    s' ← removeChild parent child s; Ok (update_timer c f s').
Proof.
  unfold removeChild. rewrite parentCancelCtx_update_timer.
  destruct (parentCancelCtx parent s) as [[s1 po]| |]; [|done..].
  rewrite !res_bind_Ok. cbv beta iota. destruct po as [p|]; [|done].
  rewrite get_update_timer. destruct (get p s1) as [pc|]; [|done].
  destruct (c_children pc); [|done]. by rewrite update_update_timer.
Qed.

Lemma update_timer_twice c s :
  update_timer c (λ _, None) (update_timer c (λ _, None) s) =
    update_timer c (λ _, None) s.
Proof. apply update_timer_id, timer_of_update_timer_None. Qed.

(** The trigger is the cancellation followed by the detachment. *)
Lemma cancel_true_decompose c cc e s :
  wf s → get c s = Some cc → c_err cc = None →
  cancel c true (Some e) s =
    sF ← cancel c false (Some e) s;
    s4 ← removeChild (c_Context cc) c sF;
    Ok (update_timer c (λ _, None) s4).
Proof.
  intros [Hwf Hs] Hget He.
  pose proof Hget as (x & Hx & Hc)%get_Some.
  destruct (cancel_core (size (heap s)) (λ _, False) c cc e s)
    as (s2 & Hfold & Hwf3 & _ & Hc3 & _); [done..|apply size_live|].
  set (s3 := update c (set_children None) s2) in *.
  unfold cancel. rewrite !cancel_fuel_S, Hx.
  destruct x as [|c0|t| |]; try done; simpl in Hc; injection Hc as Hc; subst cc.
  - rewrite !(cancelCtx_cancel_with_live _ _ c0), Hfold by done.
    rewrite !res_bind_Ok. fold s3.
    destruct (removeChild (c_Context c0) c s3) as [s4| |] eqn:Hrm; [|done..].
    rewrite res_bind_Ok. f_equal. symmetry.
    destruct (mn_heap _ _ (cancels_mono _ _ _ Hc3) c _ Hx) as (x3 & Hx3 & Hev).
    destruct x3 as [|c3| | |]; try done.
    by eapply (removeChild_kind _ _ s3 s4 c c3).
  - unfold timerCtx_cancel_with.
    rewrite !(cancelCtx_cancel_with_live _ _ (t_cancelCtx t)), Hfold by done.
    rewrite !res_bind_Ok. fold s3. rewrite removeChild_update_timer.
    destruct (removeChild (c_Context (t_cancelCtx t)) c s3) as [s4| |]; [|done..].
    rewrite !res_bind_Ok. by rewrite update_timer_twice.
Qed.

(** What [cancel] with [removeFromParent] false does to every object of
    a reachable store: a live scope that is [c] or is registered below
    [c] becomes its cancelled form, with the cause, its channel closed
    (the shared closed channel if it had none), no children and no
    timer; an object that is not a live scope, and any object outside
    the subtree, is left as it is. *)
Theorem cancel_kills_exactly_the_subtree s c e s' r x :
  reachable s → cancel c false (Some e) s = Ok s' → heap s !! r = Some x →
  (r = c ∨ descendant s c r → is_live x = true →
     heap s' !! r = Some (killed e x)) ∧
  (is_live x = false → heap s' !! r = Some x) ∧
  (r ≠ c → ¬ descendant s c r → heap s' !! r = Some x).
Proof.
  intros Hwf%reachable_wf Hc Hx.
  pose proof (cancel_false_post _ _ _ _ Hwf Hc) as Hpost.
  pose proof Hpost as (_ & Hcn & Hcf & Hk).
  split; [|split].
  - intros Hr Hl. unfold is_live in Hl.
    destruct (cancelCtx_of x) as [cr|] eqn:Hcr; [|done].
    apply bool_decide_eq_true_1 in Hl.
    destruct (cn_scope _ _ _ Hcn r x cr Hx Hcr) as (x' & c' & Hx' & Hc' & _).
    destruct (cancel_post_object c e s s' r x cr x' c') as [_ H]; try done.
    rewrite Hx'. f_equal. apply H; [done|].
    destruct (Hk r Hr) as (c2 & (y & Hy & Hcy)%get_Some & He2).
    rewrite Hx' in Hy. injection Hy as <-. rewrite Hc' in Hcy.
    by injection Hcy as <-.
  - intros Hl. unfold is_live in Hl.
    destruct (cancelCtx_of x) as [cr|] eqn:Hcr.
    + apply bool_decide_eq_false_1 in Hl.
      destruct (cn_scope _ _ _ Hcn r x cr Hx Hcr) as (x' & c' & Hx' & Hc' & _).
      destruct (cancel_post_object c e s s' r x cr x' c') as [H _]; try done.
      rewrite Hx'. f_equal. apply H. by destruct (c_err cr).
    + by apply (cn_other _ _ _ Hcn).
  - intros Hrc Hnd. rewrite <- Hx. by apply (conf_outside _ _ _ Hcf).
Qed.

(** ** A timer scope under a live ancestor *)

Lemma derive_register x s parent s1 p pc :
  wf s →
  x = CancelCtx (newCancelCtx parent) ∨
  (∃ d, x = TimerCtx (mkTimerCtx (newCancelCtx parent) None d)) →
  parentCancelCtx parent s = Ok (s1, Some p) →
  get p s1 = Some pc → c_err pc = None →
  p ≠ next_ref s ∧ next_ref s1 = next_ref s ∧ wf_base s1 ∧
  propagateCancel parent (next_ref s) (alloc x s).1 =
    Ok (update p (set_children (Some ({[next_ref s]} ∪ children_of pc)))
          (alloc x s1).1).
Proof.
  intros [Hwf Hs] Hx HP Hp He.
  pose proof (parentCancelCtx_is_Some _ _ _ _ HP) as Hpar.
  pose proof HP as [d HD]%parentCancelCtx_state.
  pose proof (Done_wf_base _ _ _ _ Hwf HD) as Hwf1.
  pose proof (Done_at_quiet _ _ _ _ (Done_at_ex _ _ _ _ HD)) as [Hn _ _ _].
  destruct (wf_alloc_scope (λ _, False) x parent s) as (Hwf0 & Hs0 & Hget0);
    [done..|].
  assert (p ≠ next_ref s) as Hne.
  { intros ->. apply get_Some in Hp as (y & Hy & _).
    rewrite <- Hn in Hy. by rewrite fresh_ref in Hy. }
  split; [done|]. split; [done|]. split; [done|].
  apply (propagateCancel_register parent (next_ref s) (alloc x s).1
           (alloc x s1).1 p pc); [done| | |done].
  - by apply parentCancelCtx_alloc.
  - rewrite get_alloc by done. rewrite decide_False by congruence. done.
Qed.

Lemma no_descendant c cc s r :
  get c s = Some cc → c_children cc = None → ¬ descendant s c r.
Proof.
  intros Hget Hk Hd.
  assert (∀ cc' k, get c s = Some cc' → k ∈ children_of cc' → False) as Hno.
  { intros cc' k Hg Hin. rewrite Hget in Hg. injection Hg as <-.
    unfold children_of in Hin. rewrite Hk in Hin. set_solver. }
  destruct Hd; eauto.
Qed.

(** [WithDeadline] where discovery from the parent finds a live ancestor
    [p] and the parent has no earlier deadline.  No goroutine is
    started and [p] stays alive.  With the deadline in the future the
    new scope is alive and is entered in the children map of [p]; with
    the deadline not in the future it is cancelled with
    [DeadlineExceeded] before the call returns and the children map of
    [p] holds what it held before: the scope was entered and taken out
    again. *)
Theorem WithDeadline_under_live_ancestor s parent cur d s1 p pc :
  reachable s → Deadline parent s = Ok cur → (∀ t, cur = Some t → ¬ t < d) →
  parentCancelCtx parent s = Ok (s1, Some p) →
  get p s1 = Some pc → c_err pc = None →
  ∃ s' c f pc', WithDeadline (Some parent) d s = Ok (s', c, f) ∧
    get p s' = Some pc' ∧ c_err pc' = None ∧
    tasks s' = tasks s ∧ goroutines s' = goroutines s ∧
    (0 < d - now s →
       children_of pc' = {[c]} ∪ children_of pc ∧ ¬ cancelled c s' ∧
       f = mkCancelFunc c true) ∧
    (d - now s ≤ 0 →
       children_of pc' = children_of pc ∧
       cancelled_with DeadlineExceeded c s' ∧ f = mkCancelFunc c false).
Proof.
  intros Hwf%reachable_wf Hcur Hpre HP Hp He. pose proof Hwf as [Hb Hs].
  pose proof (Deadline_Ok_is_Some _ _ _ Hcur) as Hpar.
  assert (from_option (λ cur, Before cur d) false cur = false) as Hfrom.
  { destruct cur as [t|]; [|done]. simpl. unfold Before.
    apply bool_decide_eq_false_2. by apply Hpre. }
  set (x := TimerCtx (mkTimerCtx (newCancelCtx parent) None d)).
  set (c := next_ref s).
  destruct (derive_register x s parent s1 p pc Hwf) as (Hne & Hn & Hwf1 & Hprop);
    [right; by eexists|done..|].
  fold c in Hne, Hn, Hprop.
  pose proof HP as [d0 HD%Done_at_ex]%parentCancelCtx_state.
  pose proof (Done_at_quiet _ _ _ _ HD) as [_ Hnow Hg Ht].
  destruct (wf_alloc_scope (λ _, False) x parent s) as (Hwf0 & Hs0 & Hget0);
    [done..|right; by eexists|].
  fold c in Hget0.
  set (pc' := set_children (Some ({[c]} ∪ children_of pc)) pc).
  set (s0 := update p (set_children (Some ({[c]} ∪ children_of pc))) (alloc x s1).1)
    in *.
  destruct (propagateCancel_wf (λ _, False) _ _ _ _ Hwf0 Hs0 (mk_is_Some _ _ Hget0) Hprop)
    as (Hb0 & Hs0' & _ & _ & _).
  assert (get c s0 = Some (newCancelCtx parent)) as Hc0.
  { unfold s0. rewrite get_update_ne by done. rewrite get_alloc by done.
    by rewrite decide_True by done. }
  assert (get p s0 = Some pc') as Hp0.
  { unfold s0. rewrite get_update_eq, get_alloc by done.
    rewrite decide_False by congruence. by rewrite Hp. }
  assert (mono s1 s0) as Hm1.
  { eapply mono_trans; [by apply (mono_alloc x)|].
    apply (mono_update p pc).
    - rewrite get_alloc by done. rewrite decide_False by congruence. done.
    - split; [done|]. split; [done|]. intros e. by rewrite He. }
  assert (now s0 = now s ∧ tasks s0 = tasks s ∧ goroutines s0 = goroutines s)
    as (Hnow0 & Ht0 & Hg0).
  { unfold s0. st. done. }
  assert (c ∉ children_of pc) as Hfresh.
  { intros Hin. destruct (wb_children _ Hwf1 p pc c Hp Hin) as [y Hy].
    apply get_Some in Hy as (z & Hz & _). rewrite <- Hn in Hz.
    by rewrite fresh_ref in Hz. }
  clearbody s0.
  rewrite (WithDeadline_timer parent d s cur) by done.
  fold x c. rewrite Hprop, res_bind_Ok. rewrite Hnow0.
  destruct (decide (d - now s ≤ 0)) as [Hle|Hgt].
  - destruct (cancel_spec (λ _, False) c false DeadlineExceeded s0 Hb0 Hs0')
      as (sF & sF2 & HcF & HcF2 & HbF & HsF & Hcn & Hcd & _); [eauto|].
    rewrite HcF in HcF2. injection HcF2 as <-.
    rewrite (cancel_true_decompose c (newCancelCtx parent)), HcF, res_bind_Ok
      by done.
    simpl.
    assert (parentCancelCtx parent sF = Ok (sF, Some p)) as HPF.
    { apply (parentCancelCtx_stable parent s1); [done..| |].
      - eapply mono_trans; [done|]. by eapply cancels_mono.
      - apply (parentCancelCtx_again parent s); [done|done]. }
    assert (get p sF = Some pc') as HpF.
    { unfold get. unfold cancel in HcF.
      rewrite (conf_outside _ _ _ (cancel_fuel_confined _ _ _ _ _ HcF));
        [done|done|].
      by apply (no_descendant c (newCancelCtx parent)). }
    rewrite (removeChild_found parent c sF p pc' HPF HpF), res_bind_Ok. simpl.
    eexists _, c, _, _. split; [done|]. split.
    { rewrite get_update_timer, get_update_eq, HpF. done. }
    split; [done|]. split.
    { st. rewrite (cn_tasks _ _ _ Hcn). congruence. }
    split.
    { st. rewrite (cn_goroutines _ _ _ Hcn). congruence. }
    split; [intros ?; lia|]. intros _. split.
    { unfold children_of. simpl. fold (children_of pc). set_solver. }
    split; [|done].
    destruct (cancel_live s0 c (newCancelCtx parent) false DeadlineExceeded)
      as (sF' & ccF & HcF' & HgF & HeF & _); [by split|done..|].
    rewrite HcF in HcF'. injection HcF' as <-.
    exists ccF. rewrite get_update_timer, get_update_ne by done. done.
  - rewrite Hc0. simpl.
    eexists _, c, _, pc'. split; [done|]. split.
    { by rewrite get_update_timer. }
    split; [done|]. split; [by st|]. split; [by st|].
    split; [|intros ?; lia]. intros _. split; [done|]. split; [|done].
    intros (cc & Hcc & Hecc). rewrite get_update_timer, Hc0 in Hcc.
    injection Hcc as <-. by destruct Hecc.
Qed.

End Cancellation.

(** * The claims on the three small states *)

Lemma elements_perm (X : gset ref) : elements X ≡ₚ elements X.
Proof. reflexivity. Defined.

Lemma reachable_step_eq order s s' s'' :
  reachable order s → step order s s' → s' = s'' → reachable order s''.
Proof. intros Hr Hs <-. by eapply reachable_step. Qed.

Lemma reachable_ex_tree : reachable elements ex_tree.
Proof.
  eapply (reachable_step elements
            (mkState (<[3%nat := CancelCtx (newCancelCtx 2%nat)]>
                        (<[2%nat := CancelCtx ex_a]> (heap (init 0))))
               {[closedchan]} 4%nat 2%nat 0 0 [])).
  - eapply (reachable_step elements
              (mkState (<[2%nat := CancelCtx (newCancelCtx 0%nat)]> (heap (init 0)))
                 {[closedchan]} 3%nat 1%nat 0 0 [])).
    + eapply (reachable_step elements (init 0)); [constructor|].
      eapply (step_WithCancel elements 0%nat _ _ 2%nat (mkCancelFunc 2%nat true)).
      * by eexists.
      * vm_compute. reflexivity.
    + eapply (step_WithCancel elements 2%nat _ _ 3%nat (mkCancelFunc 3%nat true)).
      * by eexists.
      * vm_compute. reflexivity.
  - eapply (step_WithDeadline elements 3%nat 100 _ _ 4%nat (mkCancelFunc 4%nat true)).
    + by eexists.
    + vm_compute. reflexivity.
Qed.

Lemma reachable_ex_done : reachable elements ex_done.
Proof.
  eapply (reachable_step_eq elements
            (mkState (<[2%nat := CancelCtx (newCancelCtx 0%nat)]> (heap (init 0)))
               {[closedchan]} 3%nat 1%nat 0 0 [])).
  - eapply (reachable_step elements (init 0)); [constructor|].
    eapply (step_WithCancel elements 0%nat _ _ 2%nat (mkCancelFunc 2%nat true)).
    + by eexists.
    + vm_compute. reflexivity.
  - eapply (step_cancel elements 2%nat true Canceled _ ex_done).
    vm_compute. reflexivity.
  - reflexivity.
Qed.


Lemma ex_tree_live (k : ref) :
  (2 ≤ k ≤ 4)%nat → ¬ cancelled k ex_tree.
Proof.
  intros Hk (cc & Hg & He).
  assert (k = 2 ∨ k = 3 ∨ k = 4)%nat as [-> | [-> | ->]] by lia;
    vm_compute in Hg; injection Hg as <-; by destruct He.
Qed.

Lemma C1_witness :
  reachable elements ex_tree ∧ get 2%nat ex_tree = Some ex_a ∧
  c_err ex_a = None ∧
  ∃ s', cancel elements 2%nat true (Some Canceled) ex_tree = Ok s' ∧
        cancelled_with Canceled 3%nat s' ∧ cancelled_with Canceled 4%nat s'.
Proof.
  split; [exact reachable_ex_tree|]. split; [reflexivity|]. split; [reflexivity|].
  destruct (C1_cancel_fans_out elements elements_perm ex_tree 2%nat ex_a true
              Canceled reachable_ex_tree eq_refl eq_refl)
    as (s' & cc' & Hc & _ & _ & _ & _ & _ & Hk & Hd).
  assert (3%nat ∈ children_of ex_a) as H3 by (vm_compute; reflexivity).
  assert (4%nat ∈ children_of ex_b) as H4 by (vm_compute; reflexivity).
  exists s'. split; [exact Hc|]. split.
  - apply (Hk 3%nat H3). apply ex_tree_live. lia.
  - refine (proj2 (Hd 4%nat _) _); [|apply ex_tree_live; lia].
    apply (descendant_trans _ 2%nat ex_a 3%nat 4%nat); [reflexivity|exact H3|].
    apply (descendant_child _ 3%nat ex_b 4%nat); [reflexivity|exact H4].
Defined.

Lemma C2_witness :
  reachable elements ex_done ∧
  cancel elements 2%nat true (Some DeadlineExceeded) ex_done = Ok ex_done.
Proof.
  split; [exact reachable_ex_done|].
  destruct (C2_cancel_idempotent elements elements_perm ex_done 2%nat
              reachable_ex_done) as [H _].
  destruct (H ex_cancelled Canceled eq_refl eq_refl) as [Hc _].
  apply Hc.
Defined.

Lemma C3_witness :
  reachable elements ex_done ∧
  Done 2%nat ex_done = Ok (ex_done, Some closedchan) ∧
  closedchan ∈ closed ex_done ∧
  ∃ s' c f, WithTimeout elements (Some 2%nat) 50 ex_done = Ok (s', c, f) ∧
            born_cancelled Canceled ex_done s' c.
Proof.
  assert (closedchan ∈ closed ex_done) as Hin by (vm_compute; reflexivity).
  split; [exact reachable_ex_done|]. split; [reflexivity|].
  split; [exact Hin|].
  destruct (C3_derived_from_cancelled elements elements_perm ex_done 2%nat
              ex_done closedchan reachable_ex_done eq_refl Hin)
    as (e & He & _ & _ & Ht).
  vm_compute in He. injection He as <-. apply Ht.
Defined.

Lemma C4_witness :
  reachable elements ex_tree ∧ Deadline 4%nat ex_tree = Ok (Some 100) ∧
  100 < 200 ∧
  WithDeadline elements (Some 4%nat) 200 ex_tree =
    WithCancel elements (Some 4%nat) ex_tree.
Proof.
  split; [exact reachable_ex_tree|]. split; [reflexivity|]. split; [lia|].
  apply (C4_earlier_deadline_degenerates elements elements_perm ex_tree 4%nat
           100 200 reachable_ex_tree eq_refl).
  lia.
Defined.

(** The parent's deadline equals the requested one: [WithDeadline] does
    not return what [WithCancel] returns; it builds a timer scope and
    arms its timer. *)
Lemma C4_counterexample :
  reachable elements ex_tree ∧ Deadline 4%nat ex_tree = Ok (Some 100) ∧
  100 ≤ 100 ∧
  WithDeadline elements (Some 4%nat) 100 ex_tree ≠
    WithCancel elements (Some 4%nat) ex_tree ∧
  ∃ s' f t, WithDeadline elements (Some 4%nat) 100 ex_tree = Ok (s', 5%nat, f) ∧
            heap s' !! 5%nat = Some (TimerCtx t) ∧ t_timer t = Some 100.
Proof.
  split; [exact reachable_ex_tree|]. split; [reflexivity|]. split; [lia|].
  split.
  - intros H.
    apply (f_equal (λ r, match r with
                         | Ok (s', c, _) => heap s' !! c ≫= timer_of
                         | _ => None
                         end)) in H.
    vm_compute in H. discriminate H.
  - eexists _, _, _. split; [vm_compute; reflexivity|].
    split; vm_compute; reflexivity.
Qed.

Lemma C5_witness :
  reachable elements ex_tree ∧ Deadline 2%nat ex_tree = Ok None ∧
  (-5) - now ex_tree ≤ 0 ∧ Err 2%nat ex_tree = Ok None ∧
  ∃ s' c f, WithDeadline elements (Some 2%nat) (-5) ex_tree = Ok (s', c, f) ∧
            cancelled_with DeadlineExceeded c s'.
Proof.
  split; [exact reachable_ex_tree|]. split; [reflexivity|].
  split; [vm_compute; discriminate|]. split; [reflexivity|].
  destruct (C5_past_deadline elements elements_perm ex_tree 2%nat None (-5)
              reachable_ex_tree eq_refl)
    as (s' & c & f & HW & Hc & _); [discriminate|vm_compute; discriminate|reflexivity|].
  eauto.
Defined.

(** The parent is already cancelled, with cause [Canceled], and the
    deadline is in the past: the derived scope has the parent's cause,
    not [DeadlineExceeded]. *)
Lemma C5_counterexample :
  reachable elements ex_done ∧ Deadline 2%nat ex_done = Ok None ∧
  (-5) - now ex_done ≤ 0 ∧
  ∃ s' f, WithDeadline elements (Some 2%nat) (-5) ex_done = Ok (s', 3%nat, f) ∧
          cancelled_with Canceled 3%nat s' ∧
          ¬ cancelled_with DeadlineExceeded 3%nat s'.
Proof.
  split; [exact reachable_ex_done|]. split; [reflexivity|].
  split; [vm_compute; discriminate|].
  eexists _, _. split; [vm_compute; reflexivity|]. split.
  - eexists. split; vm_compute; reflexivity.
  - intros (cc & Hg & He). vm_compute in Hg. injection Hg as <-. discriminate He.
Qed.

Lemma C6_witness :
  reachable elements ex_tree ∧ heap ex_tree !! 4%nat = Some (TimerCtx ex_t) ∧
  ∀ s', cancel elements 2%nat true (Some Canceled) ex_tree = Ok s' →
    ∃ t', heap s' !! 4%nat = Some (TimerCtx t') ∧
          is_Some (c_err (t_cancelCtx t')) ∧ t_timer t' = None.
Proof.
  split; [exact reachable_ex_tree|]. split; [reflexivity|].
  destruct (C6_timer_stopped elements elements_perm ex_tree 4%nat ex_t
              reachable_ex_tree eq_refl) as (_ & H & _).
  intros s' Hc. apply (H 2%nat true Canceled s'); [|exact Hc].
  right.
  apply (descendant_trans _ 2%nat ex_a 3%nat 4%nat);
    [reflexivity|vm_compute; reflexivity|].
  apply (descendant_child _ 3%nat ex_b 4%nat);
    [reflexivity|vm_compute; reflexivity].
Defined.

Lemma C7_witness :
  reachable elements ex_done ∧
  (is_Some (c_err ex_cancelled) ↔
   ∃ d, c_done ex_cancelled = Some d ∧ d ∈ closed ex_done).
Proof.
  split; [exact reachable_ex_done|].
  destruct (C7_err_iff_done_closed elements elements_perm ex_done
              reachable_ex_done) as (H & _).
  apply (H 2%nat ex_cancelled). reflexivity.
Defined.



Lemma C10_witness :
  reachable elements ex_tree ∧
  get 4%nat ex_tree = Some (t_cancelCtx ex_t) ∧
  ∃ s1 d, cancelCtx_Done 4%nat ex_tree = Ok (s1, Some d) ∧
          ∀ s2, steps elements s1 s2 → cancelCtx_Done 4%nat s2 = Ok (s2, Some d).
Proof.
  split; [exact reachable_ex_tree|]. split; [reflexivity|].
  destruct (C10_Done_stable elements elements_perm ex_tree 4%nat
              (t_cancelCtx ex_t) reachable_ex_tree eq_refl)
    as (s1 & d & HD & _ & _ & _ & Hst & _).
  exists s1, d. split; [exact HD|exact Hst].
Defined.

(** * The further properties on the three small states *)

Lemma WithCancel_registers_child_witness :
  reachable elements ex_tree ∧
  parentCancelCtx 3%nat ex_tree = Ok (ex_tree, Some 3%nat) ∧
  get 3%nat ex_tree = Some ex_b ∧ c_err ex_b = None ∧
  ∃ s' c f, WithCancel elements (Some 3%nat) ex_tree = Ok (s', c, f) ∧
    c = 5%nat ∧
    get 3%nat s' = Some (set_children (Some ({[c]} ∪ children_of ex_b)) ex_b) ∧
    ∃ s'', cancel elements 3%nat false (Some Canceled) s' = Ok s'' ∧
           cancelled_with Canceled c s''.
Proof.
  split; [exact reachable_ex_tree|]. split; [reflexivity|].
  split; [reflexivity|]. split; [reflexivity|].
  destruct (WithCancel_registers_child elements elements_perm ex_tree 3%nat
              ex_tree 3%nat ex_b reachable_ex_tree eq_refl eq_refl eq_refl)
    as (s' & c & f & HW & Hc & _ & _ & Hp & _ & _ & _ & Hcancel).
  exists s', c, f. split; [exact HW|]. split; [exact Hc|]. split; [exact Hp|].
  apply (Hcancel false Canceled).
Defined.

Lemma WithCancel_then_trigger_witness :
  reachable elements ex_tree ∧
  parentCancelCtx 3%nat ex_tree = Ok (ex_tree, Some 3%nat) ∧
  get 3%nat ex_tree = Some ex_b ∧ c_err ex_b = None ∧
  ∃ s' c f s'' pc'', WithCancel elements (Some 3%nat) ex_tree = Ok (s', c, f) ∧
    call elements f s' = Ok s'' ∧ cancelled_with Canceled c s'' ∧
    get 3%nat s'' = Some pc'' ∧ children_of pc'' = children_of ex_b.
Proof.
  split; [exact reachable_ex_tree|]. split; [reflexivity|].
  split; [reflexivity|]. split; [reflexivity|].
  destruct (WithCancel_then_trigger elements elements_perm ex_tree 3%nat
              ex_tree 3%nat ex_b reachable_ex_tree eq_refl eq_refl eq_refl)
    as (s' & c & f & s'' & pc'' & HW & Hcall & Hc & _ & Hp & Hk & _).
  exists s', c, f, s'', pc''. split; [exact HW|]. split; [exact Hcall|].
  split; [exact Hc|]. split; [exact Hp|exact Hk].
Defined.

Lemma WithCancel_Done_trigger_witness :
  reachable elements ex_tree ∧ Err 2%nat ex_tree = Ok None ∧
  ∃ s1 c f s2 d s3, WithCancel elements (Some 2%nat) ex_tree = Ok (s1, c, f) ∧
    Done c s1 = Ok (s2, Some d) ∧ (d ∉ closed s2) ∧
    call elements f s2 = Ok s3 ∧ d ∈ closed s3 ∧
    Err c s3 = Ok (Some Canceled).
Proof.
  split; [exact reachable_ex_tree|]. split; [reflexivity|].
  destruct (WithCancel_Done_trigger elements elements_perm ex_tree 2%nat
              reachable_ex_tree eq_refl)
    as (s1 & c & f & s2 & d & s3 & HW & _ & HD & Hopen & _ & Hcall & Hin & _ & He).
  exists s1, c, f, s2, d, s3. split; [exact HW|]. split; [exact HD|].
  split; [exact Hopen|]. split; [exact Hcall|]. split; [exact Hin|exact He].
Defined.

Lemma WithCancel_nil_Done_parent_witness :
  reachable elements ex_tree ∧
  Done Background ex_tree = Ok (ex_tree, None) ∧
  ∃ s' c f s'', WithCancel elements (Some Background) ex_tree = Ok (s', c, f) ∧
    heap s' = <[5%nat := CancelCtx (newCancelCtx Background)]> (heap ex_tree) ∧
    call elements f s' = Ok s'' ∧ cancelled_with Canceled c s'' ∧
    tasks s'' = [] ∧ goroutines s'' = 0.
Proof.
  split; [exact reachable_ex_tree|]. split; [reflexivity|].
  destruct (WithCancel_nil_Done_parent elements elements_perm ex_tree Background
              ex_tree reachable_ex_tree eq_refl)
    as (s' & c & f & s'' & HW & Hs' & _ & Hcall & Hc & _ & Ht & Hg).
  exists s', c, f, s''. split; [exact HW|]. split; [rewrite Hs'; reflexivity|].
  split; [exact Hcall|]. split; [exact Hc|]. split; [exact Ht|exact Hg].
Defined.

Lemma cancel_panics_iff_nil_cause_witness :
  reachable elements ex_done ∧ is_Some (get 2%nat ex_done) ∧
  cancel elements 2%nat true None ex_done = Panic ∧
  ∃ s', cancel elements 2%nat true (Some DeadlineExceeded) ex_done = Ok s'.
Proof.
  assert (is_Some (get 2%nat ex_done)) as Hc by (by eexists).
  split; [exact reachable_ex_done|]. split; [exact Hc|].
  split.
  - apply (cancel_panics_iff_nil_cause elements elements_perm ex_done 2%nat true
             None reachable_ex_done Hc). reflexivity.
  - apply (proj2 (cancel_panics_iff_nil_cause elements elements_perm ex_done
                    2%nat true (Some DeadlineExceeded) reachable_ex_done Hc)
             DeadlineExceeded).
    reflexivity.
Defined.

Lemma derivation_panics_iff_nil_parent_witness :
  reachable elements ex_tree ∧ is_Some (heap ex_tree !! 4%nat) ∧
  (∃ r, WithCancel elements (Some 4%nat) ex_tree = Ok r) ∧
  (∃ r, WithDeadline elements (Some 4%nat) 7 ex_tree = Ok r) ∧
  (∃ r, WithTimeout elements (Some 4%nat) (-3) ex_tree = Ok r).
Proof.
  assert (is_Some (heap ex_tree !! 4%nat)) as Hp by (by eexists).
  split; [exact reachable_ex_tree|]. split; [exact Hp|].
  apply (derivation_panics_iff_nil_parent elements elements_perm ex_tree
           (Some 4%nat) 7 (-3) reachable_ex_tree).
  - intros p Hq. injection Hq as <-. exact Hp.
  - by eexists.
Defined.

Lemma removeChild_detaches_witness :
  reachable elements ex_tree ∧ is_Some (heap ex_tree !! 3%nat) ∧
  ∃ s', removeChild 3%nat 4%nat ex_tree = Ok s' ∧
        removeChild 3%nat 4%nat s' = Ok s' ∧
        ∃ pc', get 3%nat s' = Some pc' ∧
               children_of pc' = children_of ex_b ∖ {[4%nat]}.
Proof.
  assert (is_Some (heap ex_tree !! 3%nat)) as Hp by (by eexists).
  split; [exact reachable_ex_tree|]. split; [exact Hp|].
  destruct (removeChild_detaches elements elements_perm ex_tree 3%nat 4%nat
              reachable_ex_tree Hp)
    as (s1 & po & s' & HP & Hrm & Hrm' & _ & Hfound & _).
  assert (parentCancelCtx 3%nat ex_tree = Ok (ex_tree, Some 3%nat)) as HP'
    by reflexivity.
  rewrite HP' in HP. injection HP as <- <-.
  destruct (Hfound 3%nat ex_b eq_refl eq_refl) as (pc' & Hg & Hk & _).
  exists s'. split; [exact Hrm|]. split; [exact Hrm'|].
  exists pc'. split; [exact Hg|exact Hk].
Defined.


Lemma done_channels_are_not_shared_witness :
  reachable elements ex_tree ∧
  ∀ r r' c c' d, get r ex_tree = Some c → get r' ex_tree = Some c' →
    c_done c = Some d → c_done c' = Some d → d ≠ closedchan → r = r'.
Proof.
  split; [exact reachable_ex_tree|].
  apply (done_channels_are_not_shared elements elements_perm ex_tree
           reachable_ex_tree).
Defined.

Lemma discovery_is_stable_witness :
  reachable elements ex_tree ∧
  parentCancelCtx 4%nat ex_tree = Ok (alloc_done 4%nat ex_tree, Some 4%nat) ∧
  ∀ s2, steps elements (alloc_done 4%nat ex_tree) s2 →
    parentCancelCtx 4%nat s2 = Ok (s2, Some 4%nat).
Proof.
  split; [exact reachable_ex_tree|]. split; [reflexivity|].
  apply (discovery_is_stable elements elements_perm ex_tree 4%nat
           (alloc_done 4%nat ex_tree) 4%nat reachable_ex_tree eq_refl).
Defined.

Lemma Value_and_Deadline_never_change_witness :
  reachable elements ex_tree ∧
  steps elements ex_tree (alloc_done 4%nat ex_tree) ∧
  Deadline 4%nat (alloc_done 4%nat ex_tree) = Ok (Some 100) ∧
  Value 4%nat (UserKey 0) (alloc_done 4%nat ex_tree) = Ok None.
Proof.
  assert (steps elements ex_tree (alloc_done 4%nat ex_tree)) as Hst.
  { apply (steps_step elements ex_tree ex_tree); [apply steps_refl|].
    apply (step_Done elements 4%nat ex_tree _ (Some 3%nat)). reflexivity. }
  split; [exact reachable_ex_tree|]. split; [exact Hst|].
  destruct (Value_and_Deadline_never_change elements elements_perm ex_tree 4%nat
              (alloc_done 4%nat ex_tree) reachable_ex_tree Hst) as [HV HD].
  split; [apply HD; reflexivity|apply HV; reflexivity].
Defined.

Lemma derived_deadline_is_the_earlier_witness :
  reachable elements ex_tree ∧ Deadline 4%nat ex_tree = Ok (Some 100) ∧
  (∃ s' c f, WithDeadline elements (Some 4%nat) 200 ex_tree = Ok (s', c, f) ∧
             Deadline c s' = Ok (Some 100)) ∧
  (∃ s' c f, WithTimeout elements (Some 4%nat) 30 ex_tree = Ok (s', c, f) ∧
             Deadline c s' = Ok (Some 30)).
Proof.
  split; [exact reachable_ex_tree|]. split; [reflexivity|].
  destruct (derived_deadline_is_the_earlier elements elements_perm ex_tree 4%nat
              (Some 100) 200 30 reachable_ex_tree eq_refl)
    as [(s1 & c1 & f1 & H1 & Hd1) (s2 & c2 & f2 & H2 & Hd2)].
  split.
  - exists s1, c1, f1. split; [exact H1|]. apply (Hd1 s1), steps_refl.
  - exists s2, c2, f2. split; [exact H2|]. apply (Hd2 s2), steps_refl.
Defined.


Lemma cancel_is_confined_to_the_subtree_witness :
  ∃ s', cancel elements 4%nat true (Some Canceled) ex_tree = Ok s' ∧
    3%nat ≠ 4%nat ∧ ¬ descendant ex_tree 4%nat 3%nat ∧
    ∃ cr', get 3%nat s' = Some cr' ∧ c_err cr' = c_err ex_b ∧
           children_of cr' ⊆ children_of ex_b.
Proof.
  assert (∃ s', cancel elements 4%nat true (Some Canceled) ex_tree = Ok s')
    as [s' Hc] by (eexists; vm_compute; reflexivity).
  assert (¬ descendant ex_tree 4%nat 3%nat) as Hnd.
  { intros Hd.
    assert (∀ cc k, get 4%nat ex_tree = Some cc → k ∉ children_of cc) as Hno.
    { intros cc k Hg. vm_compute in Hg. injection Hg as <-.
      unfold children_of. simpl. apply not_elem_of_empty. }
    inversion Hd as [? cc k Hg Hk|? cc k k' Hg Hk _]; subst;
      exact (Hno cc _ Hg Hk). }
  exists s'. split; [exact Hc|]. split; [discriminate|]. split; [exact Hnd|].
  destruct (cancel_is_confined_to_the_subtree elements elements_perm ex_tree
              4%nat true Canceled s' 3%nat Hc) as (_ & H & _);
    [discriminate|exact Hnd|].
  destruct (H ex_b eq_refl) as (cr' & Hg & He & _ & _ & Hk).
  exists cr'. split; [exact Hg|]. split; [exact He|exact Hk].
Defined.

Lemma WithCancel_inherits_witness :
  reachable elements ex_tree ∧ is_Some (heap ex_tree !! 4%nat) ∧
  ∃ s' c f, WithCancel elements (Some 4%nat) ex_tree = Ok (s', c, f) ∧
    Value c cancelCtxKey s' = Ok (Some (VCancelCtx c)) ∧
    Deadline c s' = Ok (Some 100).
Proof.
  assert (is_Some (heap ex_tree !! 4%nat)) as Hp by (by eexists).
  split; [exact reachable_ex_tree|]. split; [exact Hp|].
  destruct (WithCancel_inherits elements elements_perm ex_tree 4%nat
              reachable_ex_tree Hp) as (s' & c & f & HW & HV & _ & HD).
  exists s', c, f. split; [exact HW|]. split; [exact HV|]. exact HD.
Defined.

Lemma WithValue_binds_one_key_witness :
  reachable elements ex_tree ∧ is_Some (heap ex_tree !! 2%nat) ∧
  ∃ s' c, WithValue (Some 2%nat) (Some (UserKey 7)) (VUser 1) ex_tree = Ok (s', c) ∧
    Value c (UserKey 7) s' = Ok (Some (VUser 1)) ∧
    Value c cancelCtxKey s' = Ok (Some (VCancelCtx 2%nat)).
Proof.
  assert (is_Some (heap ex_tree !! 2%nat)) as Hp by (by eexists).
  split; [exact reachable_ex_tree|]. split; [exact Hp|].
  destruct (WithValue_binds_one_key elements elements_perm ex_tree 2%nat 7%nat
              (VUser 1) reachable_ex_tree Hp)
    as (_ & _ & _ & s' & c & HW & _ & _ & _ & _ & _ & HV & Hk).
  exists s', c. split; [exact HW|]. split; [exact HV|].
  rewrite (Hk cancelCtxKey); [reflexivity|discriminate].
Defined.

Lemma trigger_leaves_the_children_map_witness :
  reachable elements ex_tree ∧ get 3%nat ex_tree = Some ex_b ∧
  c_err ex_b = None ∧
  parentCancelCtx (c_Context ex_b) ex_tree = Ok (ex_tree, Some 2%nat) ∧
  ∃ s' pc', cancel elements 3%nat true (Some Canceled) ex_tree = Ok s' ∧
    cancelled_with Canceled 3%nat s' ∧
    get 2%nat s' = Some pc' ∧ 3%nat ∉ children_of pc'.
Proof.
  split; [exact reachable_ex_tree|]. split; [reflexivity|].
  split; [reflexivity|]. split; [reflexivity|].
  apply (trigger_leaves_the_children_map elements elements_perm ex_tree 3%nat
           ex_b 2%nat Canceled reachable_ex_tree eq_refl eq_refl eq_refl).
Defined.

(** * The order of [range] over the children map *)




Lemma cancel_kills_exactly_the_subtree_witness :
  reachable elements ex_tree ∧
  heap ex_tree !! 4%nat = Some (TimerCtx ex_t) ∧
  descendant ex_tree 2%nat 4%nat ∧ is_live (TimerCtx ex_t) = true ∧
  ∃ s', cancel elements 2%nat false (Some Canceled) ex_tree = Ok s' ∧
        heap s' !! 4%nat = Some (killed Canceled (TimerCtx ex_t)) ∧
        heap s' !! Background = Some EmptyCtx.
Proof.
  assert (descendant ex_tree 2%nat 4%nat) as Hd.
  { apply (descendant_trans _ 2%nat ex_a 3%nat 4%nat);
      [reflexivity|vm_compute; reflexivity|].
    apply (descendant_child _ 3%nat ex_b 4%nat);
      [reflexivity|vm_compute; reflexivity]. }
  assert (∃ s', cancel elements 2%nat false (Some Canceled) ex_tree = Ok s')
    as [s' Hc] by (eexists; vm_compute; reflexivity).
  split; [exact reachable_ex_tree|]. split; [reflexivity|]. split; [exact Hd|].
  split; [reflexivity|]. exists s'. split; [exact Hc|]. split.
  - apply (proj1 (cancel_kills_exactly_the_subtree elements elements_perm ex_tree
                    2%nat Canceled s' 4%nat (TimerCtx ex_t) reachable_ex_tree Hc
                    eq_refl));
      [right; exact Hd|reflexivity].
  - apply (proj1 (proj2 (cancel_kills_exactly_the_subtree elements elements_perm
                           ex_tree 2%nat Canceled s' Background EmptyCtx
                           reachable_ex_tree Hc eq_refl))).
    reflexivity.
Defined.

Lemma WithDeadline_under_live_ancestor_witness :
  reachable elements ex_tree ∧ Deadline 3%nat ex_tree = Ok None ∧
  parentCancelCtx 3%nat ex_tree = Ok (ex_tree, Some 3%nat) ∧
  get 3%nat ex_tree = Some ex_b ∧ c_err ex_b = None ∧
  (-5) - now ex_tree ≤ 0 ∧
  ∃ s' c f pc', WithDeadline elements (Some 3%nat) (-5) ex_tree = Ok (s', c, f) ∧
    get 3%nat s' = Some pc' ∧ children_of pc' = children_of ex_b ∧
    cancelled_with DeadlineExceeded c s'.
Proof.
  assert ((-5) - now ex_tree ≤ 0) as Hle by (vm_compute; discriminate).
  split; [exact reachable_ex_tree|]. split; [reflexivity|].
  split; [reflexivity|]. split; [reflexivity|]. split; [reflexivity|].
  split; [exact Hle|].
  destruct (WithDeadline_under_live_ancestor elements elements_perm ex_tree 3%nat
              None (-5) ex_tree 3%nat ex_b reachable_ex_tree eq_refl)
    as (s' & c & f & pc' & HW & Hp & _ & _ & _ & _ & Hpast);
    [discriminate|reflexivity|reflexivity|reflexivity|].
  destruct (Hpast Hle) as (Hk & Hc & _).
  exists s', c, f, pc'. split; [exact HW|]. split; [exact Hp|].
  split; [exact Hk|exact Hc].
Defined.
